(** * NRMS debiased evaluation: [predict_debias.py]

    A shallow embedding of the numeric core of [src/predict_debias.py]:
    the deduplicating population of the embedding dictionaries, the
    category scatter matrix, projection removal and renormalisation, and
    the per-impression ranking loop that writes [prediction.txt].

    Conventions.
    - A Python [dict] keyed by strings is a [gmap string _]; a missing key
      raises [KeyError], so every lookup lives in the [result] monad.
    - A 2-D tensor is a record of its shape and its rows.  Tensors that the
      code mutates in place live in a [heap] and are passed by location.
    - Tensor arithmetic is written once over a [Scalar] interface.  The
      algebraic properties are proved at the instance [R] (exact real
      arithmetic: rounding is abstracted away); the instance [float]
      (IEEE-754 binary64, where torch computes in binary32) is used to
      evaluate the code on concrete inputs, all of them exactly
      representable in both formats, including the exceptional value NaN.
    - Click probabilities only ever get compared, so a finite probability
      is represented by the rational number it denotes.
    - The trained model, [torch.svd], [scipy.stats.rankdata] and the data
      loaders are external: the model and the factorisation appear as
      parameters, the loaders as the lists of minibatches they yield, and
      [rankdata] is written out after its implementation. *)

From Stdlib Require Floats.PrimFloat Numbers.Cyclic.Int63.Uint63.
From Stdlib Require Import ZArith QArith Reals Lqa Lra Lia Sorting.Sorted.
From stdpp Require Import gmap strings list pretty.

(* ================================================================== *)
(** * Part I: the program *)
(* ================================================================== *)

(** ** Exceptions *)

Inductive error : Type :=
| KeyError (key : string)
| UnboundLocalError (name : string)
| RuntimeError (msg : string).

Inductive result (A : Type) : Type :=
| Ok (a : A)
| Err (e : error).
Arguments Ok {A} a.
Arguments Err {A} e.

#[global] Instance result_ret : MRet result := fun A a => Ok a.
#[global] Instance result_bind : MBind result :=
  fun A B f m => match m with Ok a => f a | Err e => Err e end.

(** [d[key]] on a dict with string keys. *)
Definition getitem {V} (d : gmap string V) (key : string) : result V :=
  match d !! key with
  | Some v => Ok v
  | None => Err (KeyError key)
  end.

(** [d[key]] on a dict with integer keys. *)
Definition getitemZ {V} (d : gmap Z V) (key : Z) : result V :=
  match d !! key with
  | Some v => Ok v
  | None => Err (KeyError (pretty key))
  end.

(** A [for] loop whose body may raise. *)
Fixpoint foldlM {A B} (f : A -> B -> result A) (a : A) (l : list B) : result A :=
  match l with
  | [] => Ok a
  | x :: l' => a' ← f a x; foldlM f a' l'
  end.

(** ** Ordinal ranking (lines 317-318)

    [scipy.stats.rankdata(a, method='ordinal')] sorts the indices of [a]
    with a stable ascending sort ([np.argsort(kind='mergesort')]), inverts
    that permutation ([inv[sorter] = arange(n)]) and returns [inv + 1]. *)

(** [a[i]] *)
Definition key_at (a : list Q) (i : nat) : Q := nth i a 0%Q.

(** Insertion of index [i], which precedes every index of [s] in the
    input, into the sorted [s]: it goes before the first key that is not
    smaller, hence before its ties. *)
Fixpoint insert_stable (a : list Q) (i : nat) (s : list nat) : list nat :=
  match s with
  | [] => [i]
  | j :: s' =>
      if Qle_bool (key_at a i) (key_at a j) then i :: j :: s'
      else j :: insert_stable a i s'
  end.

Definition argsort_stable (a : list Q) : list nat :=
  foldr (insert_stable a) [] (seq 0 (length a)).

(** [inv = np.empty(n); inv[sorter] = np.arange(n)]. *)
Definition inverse_perm (sorter : list nat) : list nat :=
  foldl (fun inv js => <[js.2 := js.1]> inv)
        (replicate (length sorter) 0%nat)
        (zip (seq 0 (length sorter)) sorter).

Definition rankdata_ordinal (a : list Q) : list Z :=
  map (fun r => (Z.of_nat r + 1)%Z) (inverse_perm (argsort_stable a)).

(** [y_pred = len(y_pred_prob) - ss.rankdata(y_pred_prob, method='ordinal') + 1] *)
Definition y_pred_of (y_pred_prob : list Q) : list Z :=
  map (fun r => (Z.of_nat (length y_pred_prob) - r + 1)%Z)
      (rankdata_ordinal y_pred_prob).

(** [','.join(l)] *)
Definition join (sep : string) (l : list string) : string := String.concat sep l.

Definition newline : string := String (Ascii.ascii_of_nat 10) EmptyString.

(** [f'{impression_id} [{y_pred_str}]\n'] with
    [y_pred_str = ','.join([str(int(x)) for x in y_pred])]. *)
Definition format_line (impression_id : Z) (y_pred : list Z) : string :=
  pretty impression_id +:+ " [" +:+ join "," (map pretty y_pred) +:+ "]" +:+ newline.

(** [s.split('-')[0]]: the characters before the first separator. *)
Fixpoint split_head (sep : Ascii.ascii) (s : string) : string :=
  match s with
  | EmptyString => EmptyString
  | String c s' => if Ascii.eqb c sep then EmptyString else String c (split_head sep s')
  end.

(** The character ['-']. *)
Definition dash : Ascii.ascii := Ascii.ascii_of_nat 45.

(** ** Scalars *)

Class Scalar (F : Type) : Type := {
  s0 : F;
  sadd : F -> F -> F;
  ssub : F -> F -> F;
  smul : F -> F -> F;
  sdiv : F -> F -> F;
  ssqrt : F -> F;
  s_of_nat : nat -> F
}.

#[global] Instance R_scalar : Scalar R := {|
  s0 := 0%R; sadd := Rplus; ssub := Rminus; smul := Rmult; sdiv := Rdiv;
  ssqrt := sqrt; s_of_nat := INR
|}.

#[global] Instance float_scalar : Scalar PrimFloat.float := {|
  s0 := PrimFloat.zero; sadd := PrimFloat.add; ssub := PrimFloat.sub;
  smul := PrimFloat.mul; sdiv := PrimFloat.div; ssqrt := PrimFloat.sqrt;
  s_of_nat := fun n => PrimFloat.of_uint63 (Uint63.of_Z (Z.of_nat n))
|}.

(** ** Tensors *)

Abbreviation vec := list (only parsing).

Section Tensors.
Context {F : Type} `{Scalar F}.

Record tensor2 : Type := Tensor2 {
  shape0 : nat;
  shape1 : nat;
  rows : list (vec F)
}.

Definition zeros (n : nat) : vec F := replicate n s0.
Definition zeros2 (n m : nat) : list (vec F) := replicate n (zeros m).

Definition vadd (u v : vec F) : vec F := zip_with sadd u v.
Definition vsub (u v : vec F) : vec F := zip_with ssub u v.
Definition vscale (c : F) (v : vec F) : vec F := map (smul c) v.
Definition vdiv (v : vec F) (c : F) : vec F := map (fun x => sdiv x c) v.

Definition vsum (v : vec F) : F := foldr sadd s0 v.

(** One entry of [torch.matmul]: the inner product of a row and a column. *)
Definition dot (u v : vec F) : F := vsum (zip_with smul u v).

(** [torch.norm(e, p=2)] *)
Definition norm2 (e : vec F) : F := ssqrt (vsum (map (fun x => smul x x) e)).

(** [torch.ger(u, v)]: the outer product. *)
Definition ger (u v : vec F) : list (vec F) := map (fun x => map (fun y => smul x y) v) u.

Definition madd (M N : list (vec F)) : list (vec F) := zip_with vadd M N.
Definition mdiv (M : list (vec F)) (c : F) : list (vec F) := map (fun r => vdiv r c) M.

Definition entry (M : list (vec F)) (a b : nat) : F := nth b (nth a M []) s0.

(** [t[:, i]] *)
Definition column (t : tensor2) (i : nat) : vec F := map (fun r => nth i r s0) (rows t).

(** [torch.stack(vs)] of 1-D tensors; an empty list is refused. *)
Definition stack (vs : list (vec F)) : result tensor2 :=
  match vs with
  | [] => Err (RuntimeError "stack expects a non-empty TensorList")
  | v :: _ => Ok (Tensor2 (length vs) (length v) vs)
  end.

(** [embeddings[categories == c]]: the rows whose label is [c].  The mask
    must be as long as the tensor has rows: on another length the indexing
    raises [IndexError], which is not modelled, and the properties below
    assume one label per row. *)
Definition masked (categories : list Z) (c : Z) (E : list (vec F)) : list (vec F) :=
  map snd (filter (fun p => p.1 = c) (zip categories E)).

(** [t.mean(dim=0)] for [t] with rows [rs] of width [d]. *)
Definition mean_dim0 (d : nat) (rs : list (vec F)) : vec F :=
  vdiv (foldl vadd (zeros d) rs) (s_of_nat (length rs)).

(** [pandas.Series.unique]: distinct values in order of first appearance. *)
Definition unique (l : list Z) : list Z :=
  foldl (fun acc x => if decide (x ∈ acc) then acc else acc ++ [x]) [] l.

(** Lines 168-173. *)
Definition compute_category_means (embeddings : tensor2) (categories : list Z)
    (categories_unique : list Z) : gmap Z (vec F) :=
  foldl (fun means c =>
           <[c := mean_dim0 (shape1 embeddings) (masked categories c (rows embeddings))]> means)
        ∅ categories_unique.

(** Lines 177-185. *)
Definition construct_c (embeddings : tensor2) (categories : list Z)
    (category_means : gmap Z (vec F)) (categories_unique : list Z) : result tensor2 :=
  let embedding_dim := shape1 embeddings in
  C ← foldlM (fun C c =>
                let selected := masked categories c (rows embeddings) in
                mean ← getitemZ category_means c;
                let diffs := map (fun e => vsub e mean) selected in
                Ok (foldl (fun C diff =>
                             madd C (mdiv (ger diff diff) (s_of_nat (length diffs))))
                          C diffs))
             (zeros2 embedding_dim embedding_dim) categories_unique;
  Ok (Tensor2 embedding_dim embedding_dim C).

(** Lines 189-191; [svd_V C] is the factor [V] of [torch.svd(C)]. *)
Definition identify_bias_subspace (svd_V : tensor2 -> tensor2) (C : tensor2) (k : nat)
    : tensor2 :=
  let V := svd_V C in
  Tensor2 (shape0 V) (Nat.min k (shape1 V)) (map (take k) (rows V)).

(** *** The heap of tensors that are updated in place

    A heap is the list of the tensors allocated so far and a location is
    an index into it. *)

Definition load (h : list tensor2) (l : nat) : tensor2 := default (Tensor2 0 0 []) (h !! l).

Definition alloc (h : list tensor2) (t : tensor2) : list tensor2 * nat := (h ++ [t], length h).

(** [embeddings -= projections] for one direction.  [torch.matmul] raises
    [RuntimeError] unless the rows are as wide as [component] is long; that
    check is not modelled, and the properties below assume these widths. *)
Definition remove_component (component : vec F) (E : tensor2) : tensor2 :=
  let projections := map (fun e => vscale (dot e component) component) (rows E) in
  Tensor2 (shape0 E) (shape1 E) (zip_with vsub (rows E) projections).

(** [embeddings / torch.norm(embeddings, p=2, dim=1, keepdim=True)] *)
Definition normalize (E : tensor2) : tensor2 :=
  let embeddings_norm := map norm2 (rows E) in
  Tensor2 (shape0 E) (shape1 E) (zip_with vdiv (rows E) embeddings_norm).

(** The body of the loop of lines 196-203.  The state is the heap and the
    local variable [normalized_embeddings], unbound before the first
    iteration. *)
Definition neutralize_body (bias_subspace : tensor2) (embeddings : nat)
    (st : list tensor2 * option nat) (i : nat) : list tensor2 * option nat :=
  let h := st.1 in
  let component := column bias_subspace i in
  let h := <[embeddings := remove_component component (load h embeddings)]> h in
  let '(h, normalized_embeddings) := alloc h (normalize (load h embeddings)) in
  (h, Some normalized_embeddings).

(** Lines 195-204.  [embeddings] is the location of the caller's tensor. *)
Definition neutralize_embeddings (h : list tensor2) (embeddings : nat) (bias_subspace : tensor2)
    : list tensor2 * result nat :=
  let st := foldl (neutralize_body bias_subspace embeddings) (h, None)
                  (seq 0 (shape1 bias_subspace)) in
  (st.1, match st.2 with
         | Some normalized_embeddings => Ok normalized_embeddings
         | None => Err (UnboundLocalError "normalized_embeddings")
         end).

(** ** The driver [evaluate] (lines 207-327) *)

(** One row of the news table handed to the encoder; [news_attrs] stands
    for the attributes named by [config.dataset_attributes]. *)
Context {news_attrs : Type}.

Record news_item : Type := NewsItem {
  id : string;
  attrs : news_attrs
}.

(** A collated minibatch of [UserDataset]: the history strings of the
    batch, and per history slot the news ids of the batch. *)
Record user_minibatch : Type := UserMinibatch {
  mb_clicked_news_string : list string;
  mb_clicked_news : list (list string)
}.

(** One item of [BehaviorsDataset] (the loader's batch size is 1). *)
Record behavior : Type := Behavior {
  impression_id : Z;
  user : string;
  time : string;
  clicked_news_string : string;
  impressions : list string
}.

(** The three operations of the trained model. *)
Record model : Type := Model {
  get_news_vector : list news_item -> list (vec F);
  get_user_vector : list (list (vec F)) -> list (vec F);
  get_prediction : tensor2 -> vec F -> list Q
}.

(** [for k, v in kvs: if k not in d: d[k] = v] *)
Definition insert_missing {V} (kvs : list (string * V)) (d : gmap string V) : gmap string V :=
  foldl (fun d kv => match d !! kv.1 with
                     | None => <[kv.1 := kv.2]> d
                     | Some _ => d
                     end) d kvs.

(** [any(k not in d for k in ks)] *)
Definition any_missing {V} (d : gmap string V) (ks : list string) : bool :=
  existsb (fun k => bool_decide (d !! k = None)) ks.

(** Lines 230-237, one minibatch.  Besides [news2vector] the state records
    every batch handed to [get_news_vector]. *)
Definition news_step (m : model) (st : gmap string (vec F) * list (list news_item))
    (minibatch : list news_item) : gmap string (vec F) * list (list news_item) :=
  let news2vector := st.1 in
  let news_ids := map id minibatch in
  if any_missing news2vector news_ids then
    let news_vector := get_news_vector m minibatch in
    (insert_missing (zip news_ids news_vector) news2vector, st.2 ++ [minibatch])
  else st.

Definition news_loop (m : model) (st : gmap string (vec F) * list (list news_item))
    (news_dataloader : list (list news_item)) : gmap string (vec F) * list (list news_item) :=
  foldl (news_step m) st news_dataloader.

(** [t.transpose(0, 1)] on a stack of stacks. *)
Definition transpose01 {A} (l : list (list A)) : list (list A) :=
  match l with
  | [] => []
  | r :: _ => map (fun j => omap (fun row => row !! j) l) (seq 0 (length r))
  end.

(** [torch.stack] of tensors of higher rank, rows kept as they are. *)
Definition stack_list {A} (l : list A) : result (list A) :=
  match l with
  | [] => Err (RuntimeError "stack expects a non-empty TensorList")
  | _ => Ok l
  end.

(** Lines 275-287, one minibatch.  The state records the history strings
    of every batch handed to [get_user_vector]. *)
Definition user_step (m : model) (news2vector : gmap string (vec F))
    (st : gmap string (vec F) * list (list string)) (minibatch : user_minibatch)
    : result (gmap string (vec F) * list (list string)) :=
  let user2vector := st.1 in
  let user_strings := mb_clicked_news_string minibatch in
  if any_missing user2vector user_strings then
    stacks ← mapM (fun news_list =>
                     vs ← mapM (getitem news2vector) news_list; stack_list vs)
                  (mb_clicked_news minibatch);
    stacked ← stack_list stacks;
    let clicked_news_vector := transpose01 stacked in
    let user_vector := get_user_vector m clicked_news_vector in
    Ok (insert_missing (zip user_strings user_vector) user2vector, st.2 ++ [user_strings])
  else Ok st.

Definition user_loop (m : model) (news2vector : gmap string (vec F))
    (st : gmap string (vec F) * list (list string)) (user_dataloader : list user_minibatch)
    : result (gmap string (vec F) * list (list string)) :=
  foldlM (user_step m news2vector) st user_dataloader.

(** Lines 307-326: the line written for one impression. *)
Definition rank_impression (m : model) (news2vector user2vector : gmap string (vec F))
    (minibatch : behavior) : result string :=
  vs ← mapM (fun news => getitem news2vector (split_head dash news)) (impressions minibatch);
  candidate_news_vector ← stack vs;
  user_vector ← getitem user2vector (clicked_news_string minibatch);
  let click_probability := get_prediction m candidate_news_vector user_vector in
  let y_pred_prob := click_probability in
  let y_pred := y_pred_of y_pred_prob in
  Ok (format_line (impression_id minibatch) y_pred).

(** Lines 295-327.  [out] is what has been written to [prediction.txt];
    the second component is the exception that ended the loop, if any. *)
Fixpoint behaviors_loop (m : model) (news2vector user2vector : gmap string (vec F))
    (max_count : Z) (count : Z) (out : list string) (behaviors_dataloader : list behavior)
    : list string * option error :=
  match behaviors_dataloader with
  | [] => (out, None)
  | minibatch :: rest =>
      let count := (count + 1)%Z in
      if (count =? max_count)%Z then (out, None)
      else match rank_impression m news2vector user2vector minibatch with
           | Err e => (out, Some e)
           | Ok line => behaviors_loop m news2vector user2vector max_count count
                                       (out ++ [line]) rest
           end
  end.

(** [sys.maxsize] on a 64-bit platform. *)
Definition sys_maxsize : Z := (2 ^ 63 - 1)%Z.

(** Lines 239-263: the debiasing of the news embeddings.  Returns the heap
    (the caller's stacked tensor is at location 0) and the rebuilt
    [news2vector].  The entry for ['PADDED_NEWS'] is a zero vector of the
    size of the first value of the dict, which is the width of the
    returned tensor. *)
Definition debias (svd_V : tensor2 -> tensor2) (news2vector : gmap string (vec F))
    (news_category : list (string * Z)) : result (list tensor2 * gmap string (vec F)) :=
  let categories_unique := unique (map snd news_category) in
  let news_ids := map fst news_category in
  let categories := map snd news_category in
  vs ← mapM (getitem news2vector) news_ids;
  stacked ← stack vs;
  let '(h, embeddings_tensor) := alloc [] stacked in
  let category_means :=
    compute_category_means (load h embeddings_tensor) categories categories_unique in
  C ← construct_c (load h embeddings_tensor) categories category_means categories_unique;
  let bias_subspace := identify_bias_subspace svd_V C 2 in
  let '(h, r) := neutralize_embeddings h embeddings_tensor bias_subspace in
  neutralized_embeddings_tensor ← r;
  let neutralized := load h neutralized_embeddings_tensor in
  let news2vector :=
    foldl (fun d kv => <[kv.1 := kv.2]> d) ∅ (zip news_ids (rows neutralized)) in
  let news2vector := <["PADDED_NEWS" := zeros (shape1 neutralized)]> news2vector in
  Ok (h, news2vector).

(** The inputs read from [directory]. *)
Record inputs : Type := Inputs {
  news_dataloader : list (list news_item);
  news_category : list (string * Z);
  user_dataloader : list user_minibatch;
  behaviors_dataloader : list behavior
}.

(** Lines 207-327.  Returns what has been written to [prediction.txt] and
    the exception that ended the run, if any. *)
Definition evaluate (m : model) (svd_V : tensor2 -> tensor2) (directory : inputs)
    (max_count : Z) : list string * option error :=
  let news2vector := (news_loop m (∅, []) (news_dataloader directory)).1 in
  match debias svd_V news2vector (news_category directory) with
  | Err e => ([], Some e)
  | Ok (_, news2vector) =>
      match user_loop m news2vector (∅, []) (user_dataloader directory) with
      | Err e => ([], Some e)
      | Ok (user2vector, _) =>
          behaviors_loop m news2vector user2vector max_count 0 []
                         (behaviors_dataloader directory)
      end
  end.

End Tensors.

Arguments tensor2 F : clear implicits.
Arguments model F news_attrs : clear implicits.
Arguments news_item news_attrs : clear implicits.
Arguments inputs news_attrs : clear implicits.

Abbreviation heap F := (list (tensor2 F)) (only parsing).

(** ** Vocabulary of the statements *)

(** Index [i] sorts before index [j] in the stable ascending order of the
    keys: a smaller key, or an equal key at an earlier position. *)
Definition beforeb (a : list Q) (i j : nat) : bool :=
  negb (Qle_bool (key_at a j) (key_at a i))
  || (Qeq_bool (key_at a i) (key_at a j) && (i <? j)).

Definition count_if (p : nat -> bool) (l : list nat) : nat := length (List.filter p l).

(** Candidates with a strictly larger probability than candidate [i]. *)
Definition count_greater (a : list Q) (i : nat) : nat :=
  count_if (fun j => negb (Qle_bool (key_at a j) (key_at a i))) (seq 0 (length a)).

(** Candidates after [i] with the same probability. *)
Definition count_ties_after (a : list Q) (i : nat) : nat :=
  count_if (fun j => Qeq_bool (key_at a i) (key_at a j) && (i <? j)) (seq 0 (length a)).

(** The list is sorted for [beforeb]: every element sorts before all the
    elements after it. *)
Definition sorted_before (a : list Q) (s : list nat) : Prop :=
  StronglySorted (fun i j => beforeb a i j = true) s.

(** A tensor whose rows agree with its declared shape. *)
Definition wf_tensor {F} (t : tensor2 F) : Prop :=
  length (rows t) = shape0 t /\ Forall (fun r => length r = shape1 t) (rows t).

(** The caller's tensor after the whole loop of [neutralize_embeddings]:
    the projection on every column of the subspace removed in turn. *)
Definition remove_projections {F} `{Scalar F} (bias_subspace E : tensor2 F) : tensor2 F :=
  foldl (fun E i => remove_component (column bias_subspace i) E) E
        (seq 0 (shape1 bias_subspace)).

Definition orthonormal_columns (B : tensor2 R) : Prop :=
  forall i j, i < shape1 B -> j < shape1 B ->
    dot (column B i) (column B j) = if decide (i = j) then 1%R else 0%R.

(** *** The scatter matrix as the specification words it *)

Definition coord (e : vec R) (a : nat) : R := nth a e 0%R.

(** The mean [m_c] of the members of one category, coordinate [a]. *)
Definition category_mean (members : list (vec R)) (a : nat) : R :=
  (vsum (map (fun e => coord e a) members) / INR (length members))%R.

(** The sum over the members [e_i] of one category of the entries [(a, b)]
    of [(e_i - m_c)(e_i - m_c)^T / n]. *)
Definition scatter_term (members : list (vec R)) (a b : nat) : R :=
  vsum (map (fun e => ((coord e a - category_mean members a)
                       * (coord e b - category_mean members b)
                       / INR (length members))%R) members).

(** Entry [(a, b)] of the sum over all categories. *)
Definition scatter_spec (E : list (vec R)) (categories : list Z) (a b : nat) : R :=
  vsum (map (fun c => scatter_term (masked categories c E) a b) (unique categories)).

(** The bilinear form [y^T M x] and the quadratic form [x^T M x]. *)
Definition bilinear (y : vec R) (M : list (vec R)) (x : vec R) : R :=
  dot y (map (fun row => dot row x) M).

Definition quad (M : list (vec R)) (x : vec R) : R := bilinear x M x.

(** What one iteration of the outer loop of [construct_c] adds to [C] for the
    category [c], once [category_means[c]] has been found. *)
Definition add_category (E : list (vec R)) (categories : list Z) (d : nat)
    (C : list (vec R)) (c : Z) : list (vec R) :=
  let selected := masked categories c E in
  let diffs := map (fun e => vsub e (mean_dim0 d selected)) selected in
  foldl (fun C diff => madd C (mdiv (ger diff diff) (s_of_nat (length diffs)))) C diffs.

(** A [d] by [d] matrix. *)
Definition is_square (d : nat) (M : list (vec R)) : Prop :=
  length M = d /\ Forall (fun r => length r = d) M.

(** ** Sample data *)

(** The float [n]. *)
Definition fl (n : nat) : PrimFloat.float := s_of_nat n.

Definition ex_prob (row : vec PrimFloat.float) : Q :=
  match row with
  | [x] => if PrimFloat.eqb x (fl 1) then 1 # 10
           else if PrimFloat.eqb x (fl 2) then 8 # 10 else 3 # 10
  | _ => 0
  end.

(** A stub model: every news item and user is encoded as [[1.0]], and a
    candidate is scored from its vector alone. *)
Definition ex_model : model PrimFloat.float unit := {|
  get_news_vector := map (fun _ => [fl 1]);
  get_user_vector := map (fun _ => [fl 1]);
  get_prediction := fun cand _ => map ex_prob (rows cand)
|}.

Definition ex_news2vector : gmap string (vec PrimFloat.float) :=
  <["N1" := [fl 1]]> (<["N2" := [fl 2]]> (<["N3" := [fl 3]]> ∅)).

Definition ex_user2vector : gmap string (vec PrimFloat.float) :=
  <["N1 N2" := [fl 1]]> ∅.

Definition ex_behavior (impression_id : Z) (impressions : list string) : behavior :=
  Behavior impression_id "U1" "11/15/2019 8:55:22 AM" "N1 N2" impressions.

Definition ex_item (id : string) : news_item unit := NewsItem id tt.

(** A second stub model for whole runs: embeddings of dimension 3 chosen by
    news id, and a score read off the third coordinate. *)
Definition ex_news_vector (it : news_item unit) : vec PrimFloat.float :=
  if String.eqb (id it) "N1" then [fl 3; fl 4; fl 2]
  else if String.eqb (id it) "N2" then [fl 1; fl 2; PrimFloat.opp (fl 2)]
  else [fl 5; fl 1; fl 1].

Definition ex_score (row : vec PrimFloat.float) : Q :=
  if PrimFloat.eqb (nth 2 row (fl 0)) (fl 1) then 8 # 10 else 1 # 10.

Definition ex_model_run : model PrimFloat.float unit := {|
  get_news_vector := map ex_news_vector;
  get_user_vector := map (fun _ => [fl 1]);
  get_prediction := fun cand _ => map ex_score (rows cand)
|}.

(** A stand-in for [torch.svd]: the identity as the factor [V]. *)
Definition ex_svd_V (C : tensor2 PrimFloat.float) : tensor2 PrimFloat.float :=
  Tensor2 3 3 [[fl 1; fl 0; fl 0]; [fl 0; fl 1; fl 0]; [fl 0; fl 0; fl 1]].

Definition ex_directory : inputs unit := {|
  news_dataloader := [[ex_item "N1"; ex_item "N2"]; [ex_item "N3"]];
  news_category := [("N1", 0%Z); ("N2", 0%Z); ("N3", 1%Z)];
  user_dataloader := [UserMinibatch ["N1 N2"] [["PADDED_NEWS"]; ["N1"]; ["N2"]]];
  behaviors_dataloader :=
    [ex_behavior 1 ["N1-0"; "N2-1"]; ex_behavior 2 ["N2-1"]; ex_behavior 3 ["N3-0"; "N2-0"]]
|}.

(** Three embeddings of dimension 2 in the categories 0, 0, 1. *)
Definition ex_embeddings : tensor2 R :=
  Tensor2 3 2 [[1; 0]; [3; 0]; [0; 5]]%R.

Definition ex_categories : list Z := [0; 0; 1]%Z.

(** A subspace of rank 1 in dimension 2: the first axis. *)
Definition ex_bias : tensor2 R := Tensor2 2 1 [[1]; [0]]%R.

Definition ex_bias_float : tensor2 PrimFloat.float :=
  Tensor2 2 1 [[fl 1]; [fl 0]].

(** A subspace with no column. *)
Definition ex_bias_empty : tensor2 PrimFloat.float :=
  Tensor2 2 0 [[]; []].

(** ** Further parts of the program *)

(** *** [value2rank] (lines 44-47)

    A dict is the list of its items in insertion order. *)

(** [sorted(values, reverse=True)]: a stable descending sort. *)
Fixpoint insert_desc (x : Q) (s : list Q) : list Q :=
  match s with
  | [] => [x]
  | y :: s' => if Qle_bool y x then x :: y :: s' else y :: insert_desc x s'
  end.

Definition sorted_reverse (values : list Q) : list Q := foldr insert_desc [] values.

(** [l.index(x)]: the first position that holds a value equal to [x];
    [None] stands for [ValueError]. *)
Fixpoint list_index (x : Q) (l : list Q) : option nat :=
  match l with
  | [] => None
  | y :: l' => if Qeq_bool y x then Some 0 else S <$> list_index x l'
  end.

Definition value2rank {K} (d : list (K * Q)) : option (list (K * Z)) :=
  let values := map snd d in
  ranks ← mapM (fun x => list_index x (sorted_reverse values)) values;
  Some (zip_with (fun k r => (k, (Z.of_nat r + 1)%Z)) (map fst d) ranks).

(** *** [UserDataset.__getitem__] (lines 106-123) *)

(** The ASCII characters for which [str.isspace] holds.  Histories are
    ASCII text: news ids separated by blanks. *)
(* The white space of [str.split()] among the ASCII characters; the
   properties below that depend on the tokens assume an ASCII string. *)
Definition is_space (c : Ascii.ascii) : bool :=
  let n := Ascii.nat_of_ascii c in
  ((9 <=? n) && (n <=? 13)) || ((28 <=? n) && (n <=? 32)).

(** [s.split()]: the maximal runs of characters that are not white space. *)
Fixpoint py_split (s : string) : list string :=
  match s with
  | EmptyString => []
  | String c s' =>
      if is_space c then py_split s'
      else match s' with
           | EmptyString => [String c EmptyString]
           | String c' _ =>
               if is_space c' then String c EmptyString :: py_split s'
               else match py_split s' with
                    | t :: ts => String c t :: ts
                    | [] => [String c EmptyString]
                    end
           end
  end.

(** [l[:n]], also for a negative [n]. *)
Definition slice_to {A} (n : Z) (l : list A) : list A :=
  if (0 <=? n)%Z then take (Z.to_nat n) l
  else take (Z.to_nat (Z.of_nat (length l) + n)) l.

(** The outcome of a function that ends in or passes an [assert]. *)
Inductive asserted (A : Type) : Type :=
| Passed (a : A)
| AssertionError.
Arguments Passed {A} a.
Arguments AssertionError {A}.

Record user_item : Type := UserItem {
  item_user : Z;
  item_clicked_news_string : string;
  item_clicked_news : list string;
  item_clicked_news_length : nat
}.

(** [row] is the row [self.behaviors.iloc[idx]]: its user and its history. *)
Definition user_getitem (num_clicked_news_a_user : Z) (row_user : Z)
    (row_clicked_news : string) : asserted user_item :=
  let clicked_news := slice_to num_clicked_news_a_user (py_split row_clicked_news) in
  let clicked_news_length := length clicked_news in
  let repeated_times := (num_clicked_news_a_user - Z.of_nat (length clicked_news))%Z in
  if (0 <=? repeated_times)%Z then
    Passed {| item_user := row_user;
              item_clicked_news_string := row_clicked_news;
              item_clicked_news :=
                replicate (Z.to_nat repeated_times) "PADDED_NEWS" ++ clicked_news;
              item_clicked_news_length := clicked_news_length |}
  else AssertionError.

(** ** Further vocabulary *)

(** The values of [values] strictly greater than [x]. *)
Definition count_above (values : list Q) (x : Q) : nat :=
  length (List.filter (fun y => negb (Qle_bool y x)) values).

(** Whether the character [c] occurs in [s]. *)
Fixpoint has_char (c : Ascii.ascii) (s : string) : bool :=
  match s with
  | EmptyString => false
  | String c' s' => Ascii.eqb c' c || has_char c s'
  end.

(** Whether every character of [s] is white space. *)
Fixpoint all_space (s : string) : bool :=
  match s with
  | EmptyString => true
  | String c s' => is_space c && all_space s'
  end.

(** The ids of all the items of all the batches. *)
Definition batch_ids {news_attrs} (batches : list (list (news_item news_attrs)))
    : list string :=
  concat (map (map id) batches).

(** What [neutralize_embeddings] returns for one embedding [e]: its
    projections on the columns removed in turn, then divided by its norm. *)
Definition removed_row {F} `{Scalar F} (bias_subspace : tensor2 F) (e : vec F) : vec F :=
  foldl (fun e j => vsub e (vscale (dot e (column bias_subspace j))
                                   (column bias_subspace j)))
        e (seq 0 (shape1 bias_subspace)).

Definition neutralized_row {F} `{Scalar F} (bias_subspace : tensor2 F) (e : vec F) : vec F :=
  vdiv (removed_row bias_subspace e) (norm2 (removed_row bias_subspace e)).

(** Whether every character of [s] is ASCII.  On such a string the white
    space of [str.split()] is exactly [is_space]. *)
Fixpoint all_ascii (s : string) : bool :=
  match s with
  | EmptyString => true
  | String c s' => (Ascii.nat_of_ascii c <? 128) && all_ascii s'
  end.

(** Whether some character of [s] is white space. *)
Fixpoint has_space (s : string) : bool :=
  match s with
  | EmptyString => false
  | String c s' => is_space c || has_space s'
  end.

(** Every column has norm one. *)
Definition unit_columns (B : tensor2 R) : Prop :=
  forall i, i < shape1 B -> dot (column B i) (column B i) = 1%R.

(** A stand-in for [torch.svd] over the reals: the identity of size 2. *)
Definition ex_svd_V_real (C : tensor2 R) : tensor2 R :=
  Tensor2 2 2 [[1; 0]; [0; 1]]%R.

(* ================================================================== *)
(** * Part II: properties *)
(* ================================================================== *)

(** ** Ranking *)

Section RankFacts.
Variable a : list Q.

Lemma beforeb_spec i j :
  beforeb a i j = true <->
  (key_at a i < key_at a j)%Q \/ ((key_at a i == key_at a j)%Q /\ i < j).
Proof.
  unfold beforeb. rewrite orb_true_iff, andb_true_iff, negb_true_iff.
  rewrite Qeq_bool_iff, Nat.ltb_lt.
  rewrite <- not_true_iff_false, Qle_bool_iff.
  split; (intros [Hlt | Heq]; [left | right; exact Heq]); Lqa.lra.
Qed.

Lemma beforeb_irrefl i : beforeb a i i = false.
Proof.
  apply not_true_iff_false. rewrite beforeb_spec. intros [Hlt | [_ Hlt]]; [Lqa.lra | lia].
Qed.

Lemma beforeb_trans i j k :
  beforeb a i j = true -> beforeb a j k = true -> beforeb a i k = true.
Proof.
  rewrite !beforeb_spec.
  intros [Hij | [Hij Hlt1]] [Hjk | [Hjk Hlt2]].
  - left; Lqa.lra.
  - left; Lqa.lra.
  - left; Lqa.lra.
  - right; split; [Lqa.lra | lia].
Qed.

Lemma beforeb_asym i j : beforeb a i j = true -> beforeb a j i = false.
Proof.
  intros Hij. apply not_true_iff_false. intros Hji.
  pose proof (beforeb_trans _ _ _ Hij Hji) as Hii.
  rewrite beforeb_irrefl in Hii. discriminate.
Qed.

Lemma beforeb_total i j : i <> j -> beforeb a i j = true \/ beforeb a j i = true.
Proof.
  intros Hne. rewrite !beforeb_spec.
  destruct (Q_dec (key_at a i) (key_at a j)) as [[Hlt | Hgt] | Heq].
  - left; left; exact Hlt.
  - right; left; exact Hgt.
  - destruct (Nat.lt_total i j) as [Hl | [He | Hg]]; [| contradiction |].
    + left; right; split; [exact Heq | exact Hl].
    + right; right; split; [symmetry; exact Heq | exact Hg].
Qed.

Lemma insert_stable_perm i s : insert_stable a i s ≡ₚ i :: s.
Proof.
  induction s as [| j s IH]; simpl; [reflexivity |].
  destruct (Qle_bool (key_at a i) (key_at a j)); [reflexivity |].
  rewrite IH. apply perm_swap.
Qed.

Lemma argsort_stable_perm_of l : foldr (insert_stable a) [] l ≡ₚ l.
Proof.
  induction l as [| i l IH]; simpl; [reflexivity |].
  rewrite insert_stable_perm, IH. reflexivity.
Qed.

Lemma argsort_stable_perm : argsort_stable a ≡ₚ seq 0 (length a).
Proof. apply argsort_stable_perm_of. Qed.

Lemma argsort_stable_length : length (argsort_stable a) = length a.
Proof. rewrite argsort_stable_perm. apply length_seq. Qed.

Lemma insert_stable_sorted i s :
  Forall (fun j => i < j) s -> sorted_before a s -> sorted_before a (insert_stable a i s).
Proof.
  unfold sorted_before.
  induction s as [| j s IH]; intros Hlt Hs; simpl.
  - repeat constructor.
  - inversion Hlt as [| ? ? Hij Hlt']; subst.
    inversion Hs as [| ? ? Hs' Hj]; subst.
    destruct (Qle_bool (key_at a i) (key_at a j)) eqn:Hle.
    + assert (Hb : beforeb a i j = true).
      { apply beforeb_spec. apply Qle_bool_iff in Hle.
        destruct (Qeq_dec (key_at a i) (key_at a j)) as [He | Hn].
        - right; split; [exact He | exact Hij].
        - left. Lqa.lra. }
      constructor; [exact Hs |].
      constructor; [exact Hb |].
      eapply Forall_impl; [exact Hj |].
      intros k Hk. simpl in Hk. eapply beforeb_trans; eassumption.
    + assert (Hb : beforeb a j i = true).
      { apply beforeb_spec. left.
        apply not_true_iff_false in Hle. rewrite Qle_bool_iff in Hle. Lqa.lra. }
      constructor; [apply IH; assumption |].
      rewrite insert_stable_perm. constructor; assumption.
Qed.

Lemma argsort_stable_sorted_from k m :
  sorted_before a (foldr (insert_stable a) [] (seq k m)).
Proof.
  revert k. induction m as [| m IH]; intros k; simpl.
  - constructor.
  - apply insert_stable_sorted; [| apply IH].
    rewrite argsort_stable_perm_of.
    apply Forall_forall. intros j Hj. apply elem_of_seq in Hj. lia.
Qed.

Lemma argsort_stable_sorted : sorted_before a (argsort_stable a).
Proof. apply argsort_stable_sorted_from. Qed.

(** *** Counting *)

Lemma count_if_perm (f : nat -> bool) (l l' : list nat) :
  l ≡ₚ l' -> count_if f l = count_if f l'.
Proof.
  unfold count_if. induction 1 as [| x l l' _ IH | x y l | l l' l'' _ IH1 _ IH2]; simpl.
  - reflexivity.
  - destruct (f x); simpl; congruence.
  - destruct (f x), (f y); reflexivity.
  - congruence.
Qed.

Lemma count_if_none (f : nat -> bool) (l : list nat) :
  Forall (fun x => f x = false) l -> count_if f l = 0.
Proof.
  unfold count_if. induction 1 as [| x l Hx _ IH]; simpl; [reflexivity |].
  rewrite Hx. exact IH.
Qed.

Lemma count_if_le (f g : nat -> bool) (l : list nat) :
  (forall x, x ∈ l -> f x = true -> g x = true) -> count_if f l <= count_if g l.
Proof.
  unfold count_if. induction l as [| x l IH]; intros Himp; simpl; [lia |].
  assert (IH' : length (List.filter f l) <= length (List.filter g l)).
  { apply IH. intros y Hy. apply Himp. right. exact Hy. }
  destruct (f x) eqn:Hf.
  - rewrite (Himp x); [simpl; lia | left | exact Hf].
  - destruct (g x); simpl; lia.
Qed.

Lemma count_if_lt (f g : nat -> bool) (l : list nat) (w : nat) :
  (forall x, x ∈ l -> f x = true -> g x = true) ->
  w ∈ l -> f w = false -> g w = true -> count_if f l < count_if g l.
Proof.
  unfold count_if. induction l as [| x l IH]; intros Himp Hw Hf Hg; simpl.
  - inversion Hw.
  - assert (Hle : length (List.filter f l) <= length (List.filter g l)).
    { apply (count_if_le f g l). intros y Hy. apply Himp. right. exact Hy. }
    apply elem_of_cons in Hw. destruct Hw as [-> | Hw].
    + rewrite Hf, Hg. simpl. lia.
    + assert (IH' : length (List.filter f l) < length (List.filter g l)).
      { apply IH; try assumption. intros y Hy. apply Himp. right. exact Hy. }
      destruct (f x) eqn:Hfx.
      * rewrite (Himp x); [simpl; lia | left | exact Hfx].
      * destruct (g x); simpl; lia.
Qed.

Lemma count_if_or (f g h : nat -> bool) (l : list nat) :
  (forall x, x ∈ l -> h x = f x || g x) ->
  (forall x, x ∈ l -> f x && g x = false) ->
  count_if h l = count_if f l + count_if g l.
Proof.
  unfold count_if. induction l as [| x l IH]; intros Hor Hdis; simpl; [reflexivity |].
  assert (IH' : length (List.filter h l) =
                length (List.filter f l) + length (List.filter g l)).
  { apply IH; intros y Hy; [apply Hor | apply Hdis]; right; exact Hy. }
  rewrite (Hor x) by left. specialize (Hdis x (list_elem_of_here _ _)).
  destruct (f x), (g x); simpl in *; try discriminate; lia.
Qed.

Lemma count_if_eqb (i : nat) (l : list nat) :
  NoDup l -> i ∈ l -> count_if (Nat.eqb i) l = 1.
Proof.
  unfold count_if. induction 1 as [| x l Hx Hnd IH]; intros Hi; simpl.
  - inversion Hi.
  - destruct (Nat.eqb_spec i x) as [-> | Hne]; simpl.
    + f_equal. apply (count_if_none (Nat.eqb x)).
      apply Forall_forall. intros y Hy. apply Nat.eqb_neq. intros ->. contradiction.
    + apply IH. apply elem_of_cons in Hi. destruct Hi; [contradiction | assumption].
Qed.

(** In a list sorted for [beforeb] the position of an element is the
    number of elements that sort before it. *)
Lemma sorted_position s p x :
  sorted_before a s -> s !! p = Some x -> count_if (fun y => beforeb a y x) s = p.
Proof.
  unfold sorted_before. intros Hs. revert p.
  induction Hs as [| y s Hs IH Hy]; intros p Hp; [discriminate |].
  destruct p as [| p]; simpl in Hp.
  - injection Hp as ->. unfold count_if. simpl. rewrite beforeb_irrefl.
    apply (count_if_none (fun z => beforeb a z x)).
    eapply Forall_impl; [exact Hy |]. intros z Hz. simpl in Hz.
    apply beforeb_asym. exact Hz.
  - assert (Hb : beforeb a y x = true).
    { rewrite Forall_forall in Hy. apply Hy. eapply list_elem_of_lookup_2. exact Hp. }
    unfold count_if. simpl. rewrite Hb. simpl. f_equal. apply IH. exact Hp.
Qed.

(** *** The inverse permutation *)

Lemma inverse_fold_length (kvs : list (nat * nat)) (inv0 : list nat) :
  length (foldl (fun inv js => <[js.2 := js.1]> inv) inv0 kvs) = length inv0.
Proof.
  revert inv0. induction kvs as [| kv kvs IH]; intros inv0; simpl; [reflexivity |].
  rewrite IH. apply length_insert.
Qed.

Lemma inverse_fold_other (kvs : list (nat * nat)) (inv0 : list nat) (x : nat) :
  x ∉ kvs.*2 ->
  foldl (fun inv js => <[js.2 := js.1]> inv) inv0 kvs !! x = inv0 !! x.
Proof.
  revert inv0. induction kvs as [| kv kvs IH]; intros inv0 Hx; simpl; [reflexivity |].
  simpl in Hx. apply not_elem_of_cons in Hx. destruct Hx as [Hne Hx].
  rewrite IH by exact Hx. apply list_lookup_insert_ne. congruence.
Qed.

Lemma inverse_fold_lookup (s : list nat) (k : nat) (inv0 : list nat) (p x : nat) :
  NoDup s -> Forall (fun y => y < length inv0) s -> s !! p = Some x ->
  foldl (fun inv js => <[js.2 := js.1]> inv) inv0 (zip (seq k (length s)) s) !! x
  = Some (k + p).
Proof.
  intros Hnd. revert k inv0 p.
  induction Hnd as [| y s Hy Hnd IH]; intros k inv0 p Hlt Hp; [discriminate |].
  inversion Hlt as [| ? ? Hylt Hlt']; subst. simpl.
  destruct p as [| p]; simpl in Hp.
  - injection Hp as ->. rewrite inverse_fold_other.
    + simpl. rewrite list_lookup_insert_eq by exact Hylt. f_equal. lia.
    + rewrite snd_zip; [exact Hy |]. rewrite length_seq. lia.
  - rewrite (IH (S k) _ p); [f_equal; lia | | exact Hp].
    simpl. rewrite length_insert. exact Hlt'.
Qed.

Lemma inverse_perm_length (s : list nat) : length (inverse_perm s) = length s.
Proof. unfold inverse_perm. rewrite inverse_fold_length. apply length_replicate. Qed.

Lemma inverse_perm_lookup (s : list nat) (p x : nat) :
  NoDup s -> Forall (fun y => y < length s) s -> s !! p = Some x ->
  inverse_perm s !! x = Some p.
Proof.
  intros Hnd Hlt Hp. unfold inverse_perm.
  rewrite (inverse_fold_lookup s 0 _ p x); [reflexivity | exact Hnd | | exact Hp].
  rewrite length_replicate. exact Hlt.
Qed.

Lemma argsort_stable_NoDup : NoDup (argsort_stable a).
Proof. rewrite argsort_stable_perm. apply NoDup_seq. Qed.

Lemma argsort_stable_bound : Forall (fun y => y < length (argsort_stable a)) (argsort_stable a).
Proof.
  rewrite argsort_stable_length. apply Forall_forall. intros y Hy.
  rewrite argsort_stable_perm in Hy. apply elem_of_seq in Hy. lia.
Qed.

(** The zero-based ascending ordinal rank of index [i]. *)
Lemma rank0_lookup i :
  i < length a ->
  inverse_perm (argsort_stable a) !! i
  = Some (count_if (fun j => beforeb a j i) (seq 0 (length a))).
Proof.
  intros Hi.
  assert (Hin : i ∈ argsort_stable a).
  { rewrite argsort_stable_perm. apply elem_of_seq. lia. }
  apply list_elem_of_lookup in Hin. destruct Hin as [p Hp].
  rewrite (inverse_perm_lookup _ p i argsort_stable_NoDup argsort_stable_bound Hp).
  f_equal. rewrite <- (count_if_perm _ _ _ argsort_stable_perm).
  symmetry. apply sorted_position; [apply argsort_stable_sorted | exact Hp].
Qed.

End RankFacts.

Section RankResults.
Variable a : list Q.

Lemma inverse_argsort_perm : inverse_perm (argsort_stable a) ≡ₚ seq 0 (length a).
Proof.
  set (s := argsort_stable a). set (inv := inverse_perm s).
  set (g := fun i : nat => default 0 (inv !! i)).
  assert (Hlen : length inv = length a).
  { unfold inv. rewrite inverse_perm_length. apply argsort_stable_length. }
  assert (Hs : g <$> s = seq 0 (length a)).
  { apply (list_eq_same_length _ _ (length a)).
    - apply length_seq.
    - rewrite length_fmap. apply argsort_stable_length.
    - intros p x y Hp Hx Hy. rewrite list_lookup_fmap in Hx.
      destruct (s !! p) as [z |] eqn:Hz; [| discriminate].
      simpl in Hx. injection Hx as <-.
      rewrite lookup_seq in Hy. destruct Hy as [-> _]. unfold g, inv.
      rewrite (inverse_perm_lookup s p z); [reflexivity | | | exact Hz].
      + apply argsort_stable_NoDup.
      + apply argsort_stable_bound. }
  assert (Hinv : inv = g <$> seq 0 (length a)).
  { apply (list_eq_same_length _ _ (length a)).
    - rewrite length_fmap. apply length_seq.
    - exact Hlen.
    - intros p x y Hp Hx Hy. rewrite list_lookup_fmap in Hy.
      rewrite lookup_seq_lt in Hy by exact Hp. simpl in Hy. injection Hy as <-.
      unfold g. rewrite Hx. reflexivity. }
  change (inv ≡ₚ seq 0 (length a)). rewrite Hinv. transitivity (g <$> s).
  - apply fmap_Permutation. symmetry. apply argsort_stable_perm.
  - rewrite Hs. reflexivity.
Qed.

Lemma count_if_true (l : list nat) : count_if (fun _ => true) l = length l.
Proof. unfold count_if. induction l as [| x l IH]; simpl; congruence. Qed.

Lemma countdown_perm (n : nat) :
  (fun r : nat => (Z.of_nat n - (Z.of_nat r + 1) + 1)%Z) <$> seq 0 n
  ≡ₚ Z.of_nat <$> seq 1 n.
Proof.
  apply NoDup_Permutation.
  - apply NoDup_fmap_2; [| apply NoDup_seq]. intros x y Hxy. lia.
  - apply NoDup_fmap_2; [| apply NoDup_seq]. intros x y Hxy. lia.
  - intros z. rewrite !list_elem_of_fmap. split.
    + intros [r [-> Hr]]. apply elem_of_seq in Hr. exists (n - r).
      split; [lia |]. apply elem_of_seq. lia.
    + intros [k [-> Hk]]. apply elem_of_seq in Hk. exists (n - k).
      split; [lia |]. apply elem_of_seq. lia.
Qed.

Lemma y_pred_of_fmap :
  y_pred_of a
  = (fun r : nat => (Z.of_nat (length a) - (Z.of_nat r + 1) + 1)%Z)
      <$> inverse_perm (argsort_stable a).
Proof.
  unfold y_pred_of, rankdata_ordinal. rewrite map_map. reflexivity.
Qed.

Lemma y_pred_of_perm : y_pred_of a ≡ₚ Z.of_nat <$> seq 1 (length a).
Proof.
  rewrite y_pred_of_fmap, inverse_argsort_perm. apply countdown_perm.
Qed.

Lemma y_pred_of_length : length (y_pred_of a) = length a.
Proof. rewrite y_pred_of_perm, length_fmap. apply length_seq. Qed.

Lemma y_pred_of_NoDup : NoDup (y_pred_of a).
Proof.
  rewrite y_pred_of_perm. apply NoDup_fmap_2; [| apply NoDup_seq].
  intros x y Hxy. lia.
Qed.

Lemma y_pred_of_lookup_before i :
  i < length a ->
  y_pred_of a !! i
  = Some (Z.of_nat (length a)
          - Z.of_nat (count_if (fun j => beforeb a j i) (seq 0 (length a))))%Z.
Proof.
  intros Hi. rewrite y_pred_of_fmap, list_lookup_fmap, rank0_lookup by exact Hi.
  simpl. f_equal. lia.
Qed.

(** Every index other than [i] sorts either before or after [i]. *)
Lemma count_before_after i :
  i < length a ->
  count_if (fun j => beforeb a j i) (seq 0 (length a))
  + count_if (fun j => beforeb a i j) (seq 0 (length a)) + 1 = length a.
Proof.
  intros Hi.
  assert (Hor : count_if (fun j => negb (Nat.eqb i j)) (seq 0 (length a))
                = count_if (fun j => beforeb a j i) (seq 0 (length a))
                  + count_if (fun j => beforeb a i j) (seq 0 (length a))).
  { apply count_if_or.
    - intros j _. destruct (Nat.eqb_spec i j) as [-> | Hne]; simpl.
      + rewrite beforeb_irrefl. reflexivity.
      + destruct (beforeb_total a i j Hne) as [Hb | Hb].
        * rewrite Hb, (beforeb_asym a i j Hb). reflexivity.
        * rewrite Hb. reflexivity.
    - intros j _. destruct (beforeb a j i) eqn:Hb; [| reflexivity].
      rewrite (beforeb_asym a j i Hb). reflexivity. }
  assert (Heq : count_if (Nat.eqb i) (seq 0 (length a)) = 1).
  { apply count_if_eqb; [apply NoDup_seq | apply elem_of_seq; lia]. }
  assert (Hall : count_if (fun _ => true) (seq 0 (length a))
                 = count_if (Nat.eqb i) (seq 0 (length a))
                   + count_if (fun j => negb (Nat.eqb i j)) (seq 0 (length a))).
  { apply count_if_or; intros j _; destruct (Nat.eqb i j); reflexivity. }
  assert (Hlen : count_if (fun _ => true) (seq 0 (length a)) = length a).
  { rewrite count_if_true. apply length_seq. }
  lia.
Qed.

Lemma count_after_split i :
  count_if (fun j => beforeb a i j) (seq 0 (length a))
  = count_greater a i + count_ties_after a i.
Proof.
  unfold count_greater, count_ties_after. apply count_if_or.
  - intros j _. reflexivity.
  - intros j _.
    destruct (Qle_bool (key_at a j) (key_at a i)) eqn:Hle; [reflexivity |]. simpl.
    destruct (Qeq_bool (key_at a i) (key_at a j)) eqn:Heq; [| reflexivity].
    exfalso. apply Qeq_bool_iff in Heq.
    apply not_true_iff_false in Hle. apply Hle. apply Qle_bool_iff. Lqa.lra.
Qed.

(** The rank written at position [i] is one more than the number of
    candidates with a strictly larger probability plus the number of later
    candidates with the same probability. *)
Lemma y_pred_of_lookup i :
  i < length a ->
  y_pred_of a !! i
  = Some (1 + Z.of_nat (count_greater a i) + Z.of_nat (count_ties_after a i))%Z.
Proof.
  intros Hi. rewrite y_pred_of_lookup_before by exact Hi. f_equal.
  pose proof (count_before_after i Hi). pose proof (count_after_split i). lia.
Qed.

(** An index that sorts earlier in the ascending order gets the larger
    rank number. *)
Lemma y_pred_of_antitone i j ri rj :
  i < length a -> j < length a -> beforeb a i j = true ->
  y_pred_of a !! i = Some ri -> y_pred_of a !! j = Some rj -> (rj < ri)%Z.
Proof.
  intros Hi Hj Hb Hri Hrj.
  rewrite y_pred_of_lookup_before in Hri, Hrj by assumption.
  injection Hri as <-. injection Hrj as <-.
  assert (count_if (fun k => beforeb a k i) (seq 0 (length a))
          < count_if (fun k => beforeb a k j) (seq 0 (length a))); [| lia].
  apply (count_if_lt _ _ _ i).
  - intros k _ Hk. eapply beforeb_trans; eassumption.
  - apply elem_of_seq. lia.
  - apply beforeb_irrefl.
  - exact Hb.
Qed.

End RankResults.

(** ** The embedding dictionaries *)

Section StoreFacts.
Context {F : Type} `{Scalar F} {news_attrs : Type}.
Implicit Types (m : model F news_attrs) (d : gmap string (vec F)).

Lemma insert_missing_keeps {V} (kvs : list (string * V)) (d : gmap string V) k v :
  d !! k = Some v -> insert_missing kvs d !! k = Some v.
Proof.
  unfold insert_missing. revert d.
  induction kvs as [| kv kvs IH]; intros d Hk; simpl; [exact Hk |].
  apply IH. destruct (d !! kv.1) eqn:Hkv; [exact Hk |].
  rewrite lookup_insert_ne; [exact Hk |]. intros Heq. rewrite Heq in Hkv. congruence.
Qed.

Lemma news_step_keeps m st minibatch k v :
  st.1 !! k = Some v -> (news_step m st minibatch).1 !! k = Some v.
Proof.
  intros Hk. unfold news_step.
  destruct (any_missing st.1 (map id minibatch)); [| exact Hk].
  simpl. apply insert_missing_keeps. exact Hk.
Qed.

Lemma news_loop_keeps m st batches k v :
  st.1 !! k = Some v -> (news_loop m st batches).1 !! k = Some v.
Proof.
  unfold news_loop. revert st.
  induction batches as [| b batches IH]; intros st Hk; simpl; [exact Hk |].
  apply IH. apply news_step_keeps. exact Hk.
Qed.

Lemma news_step_cached m st minibatch :
  any_missing st.1 (map id minibatch) = false -> news_step m st minibatch = st.
Proof. intros Hc. unfold news_step. rewrite Hc. reflexivity. Qed.

Lemma news_step_encodes_whole_batch m st minibatch :
  any_missing st.1 (map id minibatch) = true ->
  (news_step m st minibatch).2 = st.2 ++ [minibatch].
Proof. intros Hc. unfold news_step. rewrite Hc. reflexivity. Qed.

Lemma user_step_keeps m d st st' minibatch k v :
  user_step m d st minibatch = Ok st' -> st.1 !! k = Some v -> st'.1 !! k = Some v.
Proof.
  unfold user_step. intros Hstep Hk.
  destruct (any_missing st.1 (mb_clicked_news_string minibatch)).
  - destruct (mapM _ (mb_clicked_news minibatch)) as [stacks | e]; [| discriminate].
    simpl in Hstep. destruct (stack_list stacks) as [stacked | e]; [| discriminate].
    simpl in Hstep. injection Hstep as <-. simpl.
    apply insert_missing_keeps. exact Hk.
  - injection Hstep as <-. exact Hk.
Qed.

Lemma user_loop_keeps m d st st' batches k v :
  user_loop m d st batches = Ok st' -> st.1 !! k = Some v -> st'.1 !! k = Some v.
Proof.
  unfold user_loop. revert st.
  induction batches as [| b batches IH]; intros st Hloop Hk; simpl in Hloop.
  - injection Hloop as <-. exact Hk.
  - destruct (user_step m d st b) as [st1 |] eqn:Hstep; [| discriminate].
    simpl in Hloop. eapply IH; [exact Hloop |].
    eapply user_step_keeps; eassumption.
Qed.

Lemma user_step_cached m d st minibatch :
  any_missing st.1 (mb_clicked_news_string minibatch) = false ->
  user_step m d st minibatch = Ok st.
Proof. intros Hc. unfold user_step. rewrite Hc. reflexivity. Qed.

Lemma user_step_encodes_whole_batch m d st st' minibatch :
  any_missing st.1 (mb_clicked_news_string minibatch) = true ->
  user_step m d st minibatch = Ok st' ->
  st'.2 = st.2 ++ [mb_clicked_news_string minibatch].
Proof.
  unfold user_step. intros Hc Hstep. rewrite Hc in Hstep.
  destruct (mapM _ (mb_clicked_news minibatch)) as [stacks | e]; [| discriminate].
  simpl in Hstep. destruct (stack_list stacks) as [stacked | e]; [| discriminate].
  simpl in Hstep. injection Hstep as <-. reflexivity.
Qed.

End StoreFacts.

(** ** The impression loop *)

Section LoopFacts.
Context {F : Type} `{Scalar F} {news_attrs : Type}.
Implicit Types (m : model F news_attrs) (d : gmap string (vec F)).

Lemma mapM_cons {A B} (f : A -> result B) (x : A) (l : list A) :
  mapM f (x :: l) = (y ← f x; k ← mapM f l; Ok (y :: k)).
Proof. reflexivity. Qed.

Lemma mapM_ok_Forall2 {A B} (f : A -> result B) (l : list A) (vs : list B) :
  mapM f l = Ok vs -> Forall2 (fun x v => f x = Ok v) l vs.
Proof.
  revert vs. induction l as [| x l IH]; intros vs Hm; simpl in Hm.
  - injection Hm as <-. constructor.
  - destruct (f x) as [y | e] eqn:Hx; [| discriminate]. simpl in Hm.
    destruct (mapM f l) as [k | e]; [| discriminate]. simpl in Hm.
    injection Hm as <-. constructor; [exact Hx | apply IH; reflexivity].
Qed.

Lemma mapM_getitem_missing d (g : string -> string) (l : list string) (x : string) :
  x ∈ l -> d !! g x = None ->
  exists key, d !! key = None /\ mapM (fun news => getitem d (g news)) l = Err (KeyError key).
Proof.
  induction l as [| y l IH]; intros Hx Hnone; [inversion Hx |].
  rewrite mapM_cons. destruct (d !! g y) as [v |] eqn:Hy.
  - apply elem_of_cons in Hx. destruct Hx as [-> | Hx]; [congruence |].
    destruct (IH Hx Hnone) as [key [Hkey Herr]].
    exists key. split; [exact Hkey |].
    assert (Hg : getitem d (g y) = Ok v) by (unfold getitem; rewrite Hy; reflexivity).
    rewrite Hg, Herr. reflexivity.
  - exists (g y). split; [exact Hy |].
    assert (Hg : getitem d (g y) = Err (KeyError (g y)))
      by (unfold getitem; rewrite Hy; reflexivity).
    rewrite Hg. reflexivity.
Qed.

Lemma rank_impression_missing m d u (b : behavior) (news : string) :
  news ∈ impressions b -> d !! split_head dash news = None ->
  exists key, d !! key = None /\ rank_impression m d u b = Err (KeyError key).
Proof.
  intros Hin Hnone.
  destruct (mapM_getitem_missing d (split_head dash) _ _ Hin Hnone) as [key [Hkey Herr]].
  exists key. split; [exact Hkey |].
  unfold rank_impression. rewrite Herr. reflexivity.
Qed.

Lemma rank_impression_ok m d u (b : behavior) (line : string) :
  rank_impression m d u b = Ok line ->
  exists (vs : list (vec F)) (cand : tensor2 F) (uv : vec F),
    Forall2 (fun news v => d !! split_head dash news = Some v) (impressions b) vs
    /\ rows cand = vs /\ shape0 cand = length vs
    /\ u !! clicked_news_string b = Some uv
    /\ line = format_line (impression_id b) (y_pred_of (get_prediction m cand uv)).
Proof.
  unfold rank_impression. intros Hr.
  destruct (mapM _ (impressions b)) as [vs | e] eqn:Hvs; [| discriminate].
  simpl in Hr. destruct (stack vs) as [cand | e] eqn:Hst; [| discriminate].
  simpl in Hr. unfold getitem at 1 in Hr.
  destruct (u !! clicked_news_string b) as [uv |] eqn:Hu; [| discriminate].
  simpl in Hr. injection Hr as <-.
  exists vs, cand, uv. repeat split; try reflexivity.
  - apply mapM_ok_Forall2 in Hvs. eapply Forall2_impl; [exact Hvs |].
    intros news v Hg. simpl in Hg. unfold getitem in Hg.
    destruct (d !! split_head dash news); [injection Hg as ->; reflexivity | discriminate].
  - unfold stack in Hst. destruct vs; [discriminate |]. injection Hst as <-. reflexivity.
  - unfold stack in Hst. destruct vs; [discriminate |]. injection Hst as <-. reflexivity.
Qed.

(** The loop leaves through [break] when the counter reaches [max_count]:
    the impressions before that one have been written, that one has not. *)
Lemma behaviors_loop_break m d u (max_count count : Z) (out ls : list string)
    (pre : list behavior) (b : behavior) (rest : list behavior) :
  Forall2 (fun x l => rank_impression m d u x = Ok l) pre ls ->
  (count + Z.of_nat (length pre) + 1 = max_count)%Z ->
  behaviors_loop m d u max_count count out (pre ++ b :: rest) = (out ++ ls, None).
Proof.
  intros Hpre. revert count out.
  induction Hpre as [| x l pre ls Hx Hpre IH]; intros count out Hcount; simpl.
  - rewrite (proj2 (Z.eqb_eq _ _)) by (simpl in Hcount; lia).
    rewrite app_nil_r. reflexivity.
  - rewrite (proj2 (Z.eqb_neq _ _)) by (simpl in Hcount; lia).
    rewrite Hx, IH by (simpl in Hcount; lia).
    rewrite <- app_assoc. reflexivity.
Qed.

Lemma behaviors_loop_error m d u (max_count count : Z) (out : list string)
    (b : behavior) (rest : list behavior) (e : error) :
  (count + 1 <> max_count)%Z -> rank_impression m d u b = Err e ->
  behaviors_loop m d u max_count count out (b :: rest) = (out, Some e).
Proof.
  intros Hcount Hb. simpl.
  rewrite (proj2 (Z.eqb_neq _ _)) by exact Hcount. rewrite Hb. reflexivity.
Qed.

(** Impressions that are ranked without reaching [max_count] are written
    in order and the loop goes on with the rest. *)
Lemma behaviors_loop_prefix m d u (max_count count : Z) (out ls : list string)
    (pre rest : list behavior) :
  Forall2 (fun x l => rank_impression m d u x = Ok l) pre ls ->
  (max_count <= count \/ count + Z.of_nat (length pre) < max_count)%Z ->
  behaviors_loop m d u max_count count out (pre ++ rest)
  = behaviors_loop m d u max_count (count + Z.of_nat (length pre)) (out ++ ls) rest.
Proof.
  intros Hpre. revert count out.
  induction Hpre as [| x l pre ls Hx Hpre IH]; intros count out Hcount.
  - simpl. rewrite Z.add_0_r, app_nil_r. reflexivity.
  - cbn [app behaviors_loop].
    rewrite (proj2 (Z.eqb_neq _ _)) by (simpl in Hcount; lia).
    rewrite Hx, IH by (simpl in Hcount; lia).
    rewrite <- app_assoc. f_equal. simpl length. lia.
Qed.

Lemma evaluate_loop m (svd_V : tensor2 F -> tensor2 F) (directory : inputs news_attrs)
    (max_count : Z) (h : heap F) d u (calls : list (list string)) :
  debias svd_V (news_loop m (∅, []) (news_dataloader directory)).1
         (news_category directory) = Ok (h, d) ->
  user_loop m d (∅, []) (user_dataloader directory) = Ok (u, calls) ->
  evaluate m svd_V directory max_count
  = behaviors_loop m d u max_count 0 [] (behaviors_dataloader directory).
Proof. intros Hd Hu. unfold evaluate. rewrite Hd, Hu. reflexivity. Qed.

End LoopFacts.

(** ** Vectors and matrices over the reals *)

Section RealVectors.
Local Open Scope R_scope.
Implicit Types (u v w x : vec R) (M N : list (vec R)) (c : R).

Lemma vsum_cons (r : R) (l : vec R) : vsum (r :: l) = r + vsum l.
Proof. reflexivity. Qed.

Lemma vsum_app (l l' : vec R) : vsum (l ++ l') = vsum l + vsum l'.
Proof.
  induction l as [| r l IH].
  - change (vsum l' = 0 + vsum l'). ring.
  - rewrite <- app_comm_cons, !vsum_cons, IH. ring.
Qed.

Lemma dot_nil_l v : dot [] v = 0.
Proof. reflexivity. Qed.

Lemma dot_nil_r u : dot u [] = 0.
Proof. destruct u; reflexivity. Qed.

Lemma dot_cons (a b : R) u v : dot (a :: u) (b :: v) = a * b + dot u v.
Proof. reflexivity. Qed.

Lemma dot_comm u v : dot u v = dot v u.
Proof.
  revert v. induction u as [| a u IH]; intros [| b v].
  - reflexivity.
  - reflexivity.
  - reflexivity.
  - rewrite !dot_cons, IH. ring.
Qed.

Lemma dot_vadd_l u v w :
  length u = length v -> dot (vadd u v) w = dot u w + dot v w.
Proof.
  revert v w. induction u as [| a u IH]; intros [| b v] w Hlen; try discriminate.
  - rewrite !dot_nil_l. ring.
  - destruct w as [| c w].
    + rewrite !dot_nil_r. ring.
    + change (vadd (a :: u) (b :: v)) with ((a + b) :: vadd u v).
      rewrite !dot_cons, IH by (simpl in Hlen; lia). ring.
Qed.

Lemma dot_vsub_l u v w :
  length u = length v -> dot (vsub u v) w = dot u w - dot v w.
Proof.
  revert v w. induction u as [| a u IH]; intros [| b v] w Hlen; try discriminate.
  - rewrite !dot_nil_l. ring.
  - destruct w as [| c w].
    + rewrite !dot_nil_r. ring.
    + change (vsub (a :: u) (b :: v)) with ((a - b) :: vsub u v).
      rewrite !dot_cons, IH by (simpl in Hlen; lia). ring.
Qed.

Lemma dot_vscale_l c u w : dot (vscale c u) w = c * dot u w.
Proof.
  revert w. induction u as [| a u IH]; intros w.
  - rewrite !dot_nil_l. ring.
  - destruct w as [| b w].
    + rewrite !dot_nil_r. ring.
    + change (vscale c (a :: u)) with ((c * a) :: vscale c u).
      rewrite !dot_cons, IH. ring.
Qed.

Lemma dot_vdiv_l c u w : dot (vdiv u c) w = dot u w / c.
Proof.
  revert w. induction u as [| a u IH]; intros w.
  - rewrite !dot_nil_l. unfold Rdiv. ring.
  - destruct w as [| b w].
    + rewrite !dot_nil_r. unfold Rdiv. ring.
    + change (vdiv (a :: u) c) with ((a / c) :: vdiv u c).
      rewrite !dot_cons, IH. unfold Rdiv. ring.
Qed.

Lemma length_vadd u v : length (vadd u v) = Nat.min (length u) (length v).
Proof. apply length_zip_with. Qed.

Lemma length_vsub u v : length (vsub u v) = Nat.min (length u) (length v).
Proof. apply length_zip_with. Qed.

Lemma length_vscale c u : length (vscale c u) = length u.
Proof. apply length_map. Qed.

Lemma length_vdiv u c : length (vdiv u c) = length u.
Proof. apply length_map. Qed.

Lemma coord_vadd u v (a : nat) :
  length u = length v -> coord (vadd u v) a = coord u a + coord v a.
Proof.
  unfold coord. revert v a.
  induction u as [| r u IH]; intros [| s v] a Hlen; try discriminate.
  - destruct a; simpl; ring.
  - destruct a as [| a]; simpl; [reflexivity |]. apply IH. simpl in Hlen. lia.
Qed.

Lemma coord_vsub u v (a : nat) :
  length u = length v -> coord (vsub u v) a = coord u a - coord v a.
Proof.
  unfold coord. revert v a.
  induction u as [| r u IH]; intros [| s v] a Hlen; try discriminate.
  - destruct a; simpl; ring.
  - destruct a as [| a]; simpl; [reflexivity |]. apply IH. simpl in Hlen. lia.
Qed.

Lemma coord_vdiv u c (a : nat) : coord (vdiv u c) a = coord u a / c.
Proof.
  unfold coord. revert a.
  induction u as [| r u IH]; intros [| a]; simpl; try (unfold Rdiv; ring).
  apply IH.
Qed.

Lemma coord_zeros (d a : nat) : coord (zeros d) a = 0.
Proof.
  unfold coord, zeros. revert a.
  induction d as [| d IH]; intros [| a]; simpl; try reflexivity. apply IH.
Qed.

End RealVectors.

(** ** Neutralisation and the heap *)

Section NeutralizeFacts.
Context {F : Type} `{Scalar F}.
Implicit Types (h : heap F) (t E B : tensor2 F).

Lemma load_insert h (e : nat) t : e < length h -> load (<[e := t]> h) e = t.
Proof. intros He. unfold load. rewrite list_lookup_insert_eq by exact He. reflexivity. Qed.

Lemma load_app_l h t (e : nat) : e < length h -> load (h ++ [t]) e = load h e.
Proof. intros He. unfold load. rewrite lookup_app_l by exact He. reflexivity. Qed.

Lemma load_alloc h t : load (h ++ [t]) (length h) = t.
Proof.
  unfold load. rewrite lookup_app_r by lia. rewrite Nat.sub_diag. reflexivity.
Qed.

Lemma neutralize_body_eq B (e : nat) h (o : option nat) (i : nat) :
  e < length h ->
  neutralize_body B e (h, o) i
  = (<[e := remove_component (column B i) (load h e)]> h
       ++ [normalize (remove_component (column B i) (load h e))],
     Some (length h)).
Proof.
  intros He. unfold neutralize_body, alloc. simpl.
  rewrite load_insert by exact He. rewrite length_insert. reflexivity.
Qed.

Lemma neutralize_fold B (e : nat) (js : list nat) :
  forall h (o : option nat), e < length h ->
    let st := foldl (neutralize_body B e) (h, o) js in
    load st.1 e = foldl (fun E j => remove_component (column B j) E) (load h e) js
    /\ length st.1 = length h + length js
    /\ (forall l, l < length h -> l <> e -> st.1 !! l = h !! l)
    /\ match js with
       | [] => st = (h, o)
       | _ :: _ => st.2 = Some (length h + length js - 1)
                   /\ load st.1 (length h + length js - 1) = normalize (load st.1 e)
       end.
Proof.
  induction js as [| j js IH]; intros h o He; simpl.
  - repeat split; try reflexivity. lia.
  - rewrite neutralize_body_eq by exact He.
    set (X := remove_component (column B j) (load h e)).
    set (h1 := <[e := X]> h ++ [normalize X]).
    assert (Hlen1 : length h1 = S (length h)).
    { unfold h1. rewrite length_app, length_insert. simpl. lia. }
    assert (He1 : e < length h1) by lia.
    assert (Hload1 : load h1 e = X).
    { unfold h1. rewrite load_app_l by (rewrite length_insert; exact He).
      apply load_insert. exact He. }
    destruct (IH h1 (Some (length h)) He1) as [Hcell [Hlen [Hframe Hlast]]].
    rewrite Hload1 in Hcell.
    split; [exact Hcell |]. split; [rewrite Hlen, Hlen1; lia |]. split.
    + intros l Hl Hne. rewrite Hframe by lia. unfold h1.
      rewrite lookup_app_l by (rewrite length_insert; exact Hl).
      apply list_lookup_insert_ne. congruence.
    + destruct js as [| j' js].
      * rewrite Hlast. simpl. replace (length h + 1 - 1) with (length h) by lia.
        split; [reflexivity |]. rewrite Hload1. unfold h1.
        replace (length h) with (length (<[e := X]> h)) at 1 by apply length_insert.
        apply load_alloc.
      * destruct Hlast as [Hloc Hnorm]. rewrite Hlen1 in Hloc, Hnorm.
        assert (Heq : length h + S (length (j' :: js)) - 1
                      = S (length h) + length (j' :: js) - 1) by lia.
        rewrite Heq. split; [exact Hloc | exact Hnorm].
Qed.

(** With at least one column the call returns normally: the caller's
    tensor has been overwritten with the projection-removed embeddings and
    the result is a fresh tensor, their row-wise normalisation. *)
Lemma neutralize_embeddings_ok h (e : nat) B :
  e < length h -> 1 <= shape1 B ->
  exists (h' : heap F) (r : nat),
    neutralize_embeddings h e B = (h', Ok r)
    /\ length h <= r /\ r < length h'
    /\ load h' e = remove_projections B (load h e)
    /\ load h' r = normalize (remove_projections B (load h e))
    /\ (forall l, l < length h -> l <> e -> h' !! l = h !! l).
Proof.
  intros He Hk. unfold neutralize_embeddings, remove_projections.
  destruct (neutralize_fold B e (seq 0 (shape1 B)) h None He)
    as [Hcell [Hlen [Hframe Hlast]]].
  set (st := foldl (neutralize_body B e) (h, None) (seq 0 (shape1 B))) in *.
  rewrite length_seq in Hlen.
  destruct (seq 0 (shape1 B)) as [| j js] eqn:Hseq.
  - apply (f_equal length) in Hseq. rewrite length_seq in Hseq. simpl in Hseq. lia.
  - destruct Hlast as [Hloc Hnorm].
    assert (Hjs : length (j :: js) = shape1 B).
    { rewrite <- Hseq. apply length_seq. }
    rewrite Hjs in Hloc, Hnorm.
    exists st.1, (length h + shape1 B - 1). rewrite Hloc.
    split; [reflexivity |]. split; [lia |]. split; [lia |].
    split; [exact Hcell |]. split; [| exact Hframe].
    rewrite Hnorm, Hcell. reflexivity.
Qed.

Lemma neutralize_embeddings_unbound h (e : nat) B :
  shape1 B = 0 ->
  neutralize_embeddings h e B = (h, Err (UnboundLocalError "normalized_embeddings")).
Proof. intros Hk. unfold neutralize_embeddings. rewrite Hk. reflexivity. Qed.

Lemma normalize_rows E :
  rows (normalize E) = map (fun e => vdiv e (norm2 e)) (rows E).
Proof.
  unfold normalize. simpl. induction (rows E) as [| e l IH]; simpl; [reflexivity |].
  f_equal. exact IH.
Qed.

Lemma foldl_remove_rows B (js : list nat) E :
  rows (foldl (fun E j => remove_component (column B j) E) E js)
  = map (fun e => foldl (fun e j => vsub e (vscale (dot e (column B j)) (column B j))) e js)
        (rows E).
Proof.
  revert E. induction js as [| j js IH]; intros E; simpl.
  - rewrite map_id. reflexivity.
  - rewrite IH. unfold remove_component. simpl.
    induction (rows E) as [| e l IHl]; simpl; [reflexivity |].
    f_equal. exact IHl.
Qed.

End NeutralizeFacts.

Section RealNeutralize.
Local Open Scope R_scope.
Implicit Types (e u v : vec R) (B E : tensor2 R).

Lemma norm2_eq e : norm2 e = sqrt (vsum (map (fun x => x * x) e)).
Proof. reflexivity. Qed.

Lemma sumsq_nonneg e : 0 <= vsum (map (fun x => x * x) e).
Proof.
  induction e as [| x e IH].
  - change (0 <= 0). lra.
  - change (0 <= x * x + vsum (map (fun x => x * x) e)).
    pose proof (Rle_0_sqr x) as Hx. unfold Rsqr in Hx. lra.
Qed.

Lemma sumsq_vdiv e (c : R) :
  c <> 0 ->
  vsum (map (fun x => x * x) (vdiv e c)) = vsum (map (fun x => x * x) e) / (c * c).
Proof.
  intros Hc. induction e as [| x e IH].
  - change (0 = 0 / (c * c)). field. exact Hc.
  - change (x / c * (x / c) + vsum (map (fun x => x * x) (vdiv e c))
            = (x * x + vsum (map (fun x => x * x) e)) / (c * c)).
    rewrite IH. field. exact Hc.
Qed.

(** A row divided by its own norm has norm one, unless that norm is zero. *)
Lemma norm2_normalized e : norm2 e <> 0 -> norm2 (vdiv e (norm2 e)) = 1.
Proof.
  intros Hn. rewrite (norm2_eq (vdiv e (norm2 e))), sumsq_vdiv by exact Hn.
  rewrite norm2_eq in *. rewrite sqrt_sqrt by apply sumsq_nonneg.
  unfold Rdiv. rewrite Rinv_r.
  - apply sqrt_1.
  - intros Hz. apply Hn. rewrite Hz. apply sqrt_0.
Qed.

Lemma length_column B (i : nat) : length (column B i) = length (rows B).
Proof. apply length_map. Qed.

(** Removing the projections on the first [i] columns, one after the
    other, leaves a row orthogonal to each of them. *)
Lemma row_removed_orthogonal B e (i : nat) :
  orthonormal_columns B -> length e = length (rows B) -> (i <= shape1 B)%nat ->
  let e' := foldl (fun e j => vsub e (vscale (dot e (column B j)) (column B j))) e (seq 0 i) in
  length e' = length e /\ forall j, (j < i)%nat -> dot e' (column B j) = 0.
Proof.
  intros Horth Hlen. cbv zeta. induction i as [| i IH]; intros Hi.
  - simpl. split; [reflexivity |]. intros j Hj. lia.
  - rewrite seq_S, foldl_app. simpl.
    destruct (IH ltac:(lia)) as [Hlen' Hdot].
    set (e' := foldl (fun e j => vsub e (vscale (dot e (column B j)) (column B j)))
                     e (seq 0 i)) in *.
    assert (Hl : length e' = length (vscale (dot e' (column B i)) (column B i))).
    { rewrite length_vscale, length_column. lia. }
    split.
    + rewrite length_vsub, <- Hl. lia.
    + intros j Hj. rewrite dot_vsub_l by exact Hl. rewrite dot_vscale_l.
      destruct (decide (j = i)) as [-> | Hne].
      * rewrite (Horth i i) by lia. rewrite decide_True by reflexivity. ring.
      * rewrite (Horth i j) by lia. rewrite decide_False by congruence.
        rewrite Hdot by lia. ring.
Qed.

End RealNeutralize.

(** ** The scatter matrix *)

Section UniqueFacts.

Lemma unique_fold_spec (l acc : list Z) :
  NoDup acc ->
  let r := foldl (fun acc x => if decide (x ∈ acc) then acc else acc ++ [x]) acc l in
  NoDup r /\ forall x, x ∈ r <-> x ∈ acc \/ x ∈ l.
Proof.
  revert acc. induction l as [| y l IH]; intros acc Hnd; simpl.
  - split; [exact Hnd |]. intros x. rewrite elem_of_nil. tauto.
  - destruct (decide (y ∈ acc)) as [Hin | Hnin].
    + destruct (IH acc Hnd) as [Hnd' Hel]. split; [exact Hnd' |].
      intros x. rewrite Hel, elem_of_cons. split; [tauto |].
      intros [Hx | [-> | Hx]]; tauto.
    + assert (Hnd1 : NoDup (acc ++ [y])).
      { apply NoDup_app. split; [exact Hnd |]. split; [| apply NoDup_singleton].
        intros x Hx Hy. apply list_elem_of_singleton in Hy. subst. contradiction. }
      destruct (IH (acc ++ [y]) Hnd1) as [Hnd' Hel]. split; [exact Hnd' |].
      intros x. rewrite Hel, elem_of_app, list_elem_of_singleton, elem_of_cons. tauto.
Qed.

Lemma unique_NoDup (l : list Z) : NoDup (unique l).
Proof. apply (unique_fold_spec l []). apply NoDup_nil_2. Qed.

Lemma elem_of_unique (l : list Z) (x : Z) : x ∈ unique l <-> x ∈ l.
Proof.
  destruct (unique_fold_spec l [] (NoDup_nil_2)) as [_ Hel].
  unfold unique. rewrite Hel, elem_of_nil. tauto.
Qed.

End UniqueFacts.

Section LoopLemmas.

Lemma foldl_insert_lookup {V} (g : Z -> V) (l : list Z) (m0 : gmap Z V) (c : Z) :
  foldl (fun means c => <[c := g c]> means) m0 l !! c
  = if decide (c ∈ l) then Some (g c) else m0 !! c.
Proof.
  revert m0. induction l as [| x l IH]; intros m0; cbn [foldl].
  - rewrite decide_False by apply not_elem_of_nil. reflexivity.
  - rewrite IH. destruct (decide (c ∈ l)) as [Hin | Hnin].
    + rewrite decide_True by (right; exact Hin). reflexivity.
    + destruct (decide (c = x)) as [-> | Hne].
      * rewrite decide_True by left. apply lookup_insert_eq.
      * rewrite decide_False.
        -- apply lookup_insert_ne. congruence.
        -- rewrite elem_of_cons. tauto.
Qed.

Lemma foldlM_ok {A B} (f : A -> B -> result A) (g : A -> B -> A) (l : list B) (a : A) :
  (forall a x, x ∈ l -> f a x = Ok (g a x)) -> foldlM f a l = Ok (foldl g a l).
Proof.
  revert a. induction l as [| x l IH]; intros a Hf; simpl; [reflexivity |].
  rewrite Hf by left. simpl. apply IH. intros a' y Hy. apply Hf. right. exact Hy.
Qed.

Lemma nth_zip_with_lt {A B C} (f : A -> B -> C) (l : list A) (k : list B)
    (a : nat) (da : A) (db : B) (dc : C) :
  a < length l -> a < length k ->
  nth a (zip_with f l k) dc = f (nth a l da) (nth a k db).
Proof.
  revert k a. induction l as [| x l IH]; intros [| y k] a Hl Hk; simpl in *; try lia.
  destruct a as [| a]; [reflexivity |]. apply IH; lia.
Qed.

Lemma nth_map_lt {A B} (f : A -> B) (l : list A) (a : nat) (da : A) (db : B) :
  a < length l -> nth a (map f l) db = f (nth a l da).
Proof.
  revert a. induction l as [| x l IH]; intros a Hl; simpl in *; [lia |].
  destruct a as [| a]; [reflexivity |]. apply IH. lia.
Qed.

Lemma masked_Forall {F} (P : vec F -> Prop) (categories : list Z) (c : Z)
    (E : list (vec F)) :
  Forall P E -> Forall P (masked categories c E).
Proof.
  intros HE. unfold masked. apply Forall_forall. intros e He.
  apply list_elem_of_fmap in He. destruct He as [[c' e'] [-> Hin]].
  apply list_elem_of_filter in Hin. destruct Hin as [_ Hin].
  apply elem_of_zip_r in Hin. rewrite Forall_forall in HE. apply HE. exact Hin.
Qed.

End LoopLemmas.

Section RealScatter.
Local Open Scope R_scope.
Implicit Types (u v w x y e : vec R) (M N C : list (vec R)) (c : R).

Lemma entry_coord M (a b : nat) : entry M a b = coord (nth a M []) b.
Proof. reflexivity. Qed.

Lemma is_square_madd (d : nat) M N : is_square d M -> is_square d N -> is_square d (madd M N).
Proof.
  unfold is_square, madd. intros [HM1 HM2] [HN1 HN2]. split.
  - rewrite length_zip_with. lia.
  - apply Forall_forall. intros r Hr.
    apply elem_of_lookup_zip_with in Hr. destruct Hr as [i [p [q [-> [Hp Hq]]]]].
    rewrite length_vadd.
    rewrite Forall_forall in HM2, HN2.
    rewrite (HM2 p), (HN2 q); [lia | |]; eapply list_elem_of_lookup_2; eassumption.
Qed.

Lemma entry_madd (d : nat) M N (a b : nat) :
  is_square d M -> is_square d N -> (a < d)%nat ->
  entry (madd M N) a b = entry M a b + entry N a b.
Proof.
  unfold is_square. intros [HM1 HM2] [HN1 HN2] Ha.
  rewrite !entry_coord. unfold madd.
  rewrite (nth_zip_with_lt vadd M N a [] [] []) by lia.
  apply coord_vadd.
  rewrite Forall_forall in HM2, HN2.
  rewrite (HM2 (nth a M [])), (HN2 (nth a N [])); [reflexivity | |];
    apply list_elem_of_In, nth_In; lia.
Qed.

Lemma is_square_mdiv_ger (d : nat) u c : length u = d -> is_square d (mdiv (ger u u) c).
Proof.
  intros Hu. unfold is_square, mdiv, ger. split.
  - rewrite !length_map. exact Hu.
  - apply Forall_forall. intros r Hr.
    apply list_elem_of_fmap in Hr. destruct Hr as [r' [-> Hr']].
    apply list_elem_of_fmap in Hr'. destruct Hr' as [z [-> _]].
    rewrite length_vdiv, length_map. exact Hu.
Qed.

Lemma entry_mdiv_ger u c (a b : nat) :
  (a < length u)%nat -> (b < length u)%nat ->
  entry (mdiv (ger u u) c) a b = coord u a * coord u b / c.
Proof.
  intros Ha Hb. rewrite entry_coord. unfold mdiv, ger.
  rewrite (nth_map_lt _ _ a [] []) by (rewrite length_map; exact Ha).
  rewrite (nth_map_lt _ _ a 0 []) by exact Ha.
  rewrite coord_vdiv. unfold coord at 1.
  rewrite (nth_map_lt _ _ b 0 0) by exact Hb. reflexivity.
Qed.

(** The inner loop of [construct_c]. *)
Lemma inner_loop_entry (d : nat) (diffs : list (vec R)) c :
  Forall (fun u => length u = d) diffs ->
  forall C, is_square d C ->
    let C' := foldl (fun C diff => madd C (mdiv (ger diff diff) c)) C diffs in
    is_square d C'
    /\ forall a b, (a < d)%nat -> (b < d)%nat ->
         entry C' a b
         = entry C a b + vsum (map (fun u => coord u a * coord u b / c) diffs).
Proof.
  induction 1 as [| u diffs Hu _ IH]; intros C HC; cbn [foldl].
  - split; [exact HC |]. intros a b _ _. change (entry C a b = entry C a b + 0). ring.
  - assert (HT : is_square d (mdiv (ger u u) c)) by (apply is_square_mdiv_ger; exact Hu).
    destruct (IH (madd C (mdiv (ger u u) c)) (is_square_madd d _ _ HC HT)) as [Hsq Hent].
    split; [exact Hsq |]. intros a b Ha Hb.
    rewrite Hent by assumption.
    rewrite (entry_madd d) by assumption.
    rewrite entry_mdiv_ger by lia.
    change (vsum (map (fun u0 => coord u0 a * coord u0 b / c) (u :: diffs)))
      with (coord u a * coord u b / c + vsum (map (fun u0 => coord u0 a * coord u0 b / c) diffs)).
    ring.
Qed.

(** *** Category means *)

Lemma sum_rows_coord (d : nat) (rs : list (vec R)) :
  Forall (fun u => length u = d) rs ->
  forall acc, length acc = d ->
    length (foldl vadd acc rs) = d
    /\ forall a, coord (foldl vadd acc rs) a
                 = coord acc a + vsum (map (fun e => coord e a) rs).
Proof.
  induction 1 as [| u rs Hu _ IH]; intros acc Hacc; cbn [foldl].
  - split; [exact Hacc |]. intros a. change (coord acc a = coord acc a + 0). ring.
  - assert (Hl : length (vadd acc u) = d) by (rewrite length_vadd; lia).
    destruct (IH (vadd acc u) Hl) as [Hlen Hc]. split; [exact Hlen |].
    intros a. rewrite Hc, coord_vadd by lia.
    change (vsum (map (fun e => coord e a) (u :: rs)))
      with (coord u a + vsum (map (fun e => coord e a) rs)).
    ring.
Qed.

Lemma mean_dim0_spec (d : nat) (rs : list (vec R)) :
  Forall (fun u => length u = d) rs ->
  length (mean_dim0 d rs) = d
  /\ forall a, coord (mean_dim0 d rs) a = category_mean rs a.
Proof.
  intros Hrs. unfold mean_dim0.
  assert (Hz : length (zeros d : vec R) = d) by apply length_replicate.
  destruct (sum_rows_coord d rs Hrs (zeros d) Hz) as [Hlen Hc].
  split; [rewrite length_vdiv; exact Hlen |].
  intros a. rewrite coord_vdiv, Hc, coord_zeros. unfold category_mean.
  change (s_of_nat (length rs)) with (INR (length rs)). f_equal. ring.
Qed.

(** *** Positive semi-definiteness *)

Lemma bilinear_nil_l M x : bilinear [] M x = 0.
Proof. reflexivity. Qed.

Lemma bilinear_cons (a : R) y (r : vec R) M x :
  bilinear (a :: y) (r :: M) x = a * dot r x + bilinear y M x.
Proof. reflexivity. Qed.

Lemma bilinear_madd M : forall N y x,
  Forall2 (fun r s => length r = length s) M N ->
  bilinear y (madd M N) x = bilinear y M x + bilinear y N x.
Proof.
  induction M as [| r M IH]; intros N y x HF; inversion HF as [| ? s ? N' Hrs HF']; subst.
  - unfold bilinear. simpl. rewrite dot_nil_r. ring.
  - destruct y as [| a y].
    + rewrite !bilinear_nil_l. ring.
    + change (madd (r :: M) (s :: N')) with (vadd r s :: madd M N').
      rewrite !bilinear_cons, IH by exact HF'.
      rewrite dot_vadd_l by exact Hrs. ring.
Qed.

Lemma bilinear_mdiv_ger u : forall v y x c,
  bilinear y (mdiv (ger u v) c) x = dot y u * dot v x / c.
Proof.
  induction u as [| a u IH]; intros v y x c.
  - unfold bilinear. simpl. rewrite !dot_nil_r. unfold Rdiv. ring.
  - destruct y as [| b y].
    + rewrite bilinear_nil_l, dot_nil_l. unfold Rdiv. ring.
    + change (mdiv (ger (a :: u) v) c) with (vdiv (vscale a v) c :: mdiv (ger u v) c).
      rewrite bilinear_cons, IH, dot_cons, dot_vdiv_l, dot_vscale_l.
      unfold Rdiv. ring.
Qed.

Lemma is_square_Forall2 (d : nat) M N :
  is_square d M -> is_square d N -> Forall2 (fun r s => length r = length s) M N.
Proof.
  unfold is_square. intros [HM1 HM2] [HN1 HN2].
  apply Forall2_same_length_lookup. split; [lia |].
  intros i r s Hr Hs. rewrite Forall_forall in HM2, HN2.
  rewrite (HM2 r), (HN2 s); [reflexivity | |]; eapply list_elem_of_lookup_2; eassumption.
Qed.

Lemma quad_zeros2 (n d : nat) x : quad (zeros2 n d) x = 0.
Proof.
  unfold quad, zeros2. revert x. induction n as [| n IH]; intros x.
  - unfold bilinear. simpl. apply dot_nil_r.
  - destruct x as [| a x]; [reflexivity |].
    change (replicate (S n) (zeros d : vec R)) with (zeros d :: replicate n (zeros d : vec R)).
    rewrite bilinear_cons.
    assert (Hz : forall w, dot (zeros d) w = 0).
    { clear. unfold zeros. induction d as [| d IHd]; intros [| b w]; try reflexivity.
      change (replicate (S d) (s0 : R)) with (0 :: replicate d (s0 : R)).
      rewrite dot_cons, IHd. ring. }
    rewrite Hz.
    assert (Hb : forall y, bilinear y (replicate n (zeros d : vec R)) (a :: x) = 0).
    { clear IH. induction n as [| n IHn]; intros [| b y]; try reflexivity.
      change (replicate (S n) (zeros d : vec R))
        with (zeros d :: replicate n (zeros d : vec R)).
      rewrite bilinear_cons, Hz, IHn. ring. }
    rewrite Hb. ring.
Qed.

Lemma inner_loop_psd (d : nat) (diffs : list (vec R)) c x :
  Forall (fun u => length u = d) diffs -> 0 < c ->
  forall C, is_square d C -> 0 <= quad C x ->
    0 <= quad (foldl (fun C diff => madd C (mdiv (ger diff diff) c)) C diffs) x.
Proof.
  intros Hd Hc. induction Hd as [| u diffs Hu _ IH]; intros C HC Hq; cbn [foldl].
  - exact Hq.
  - assert (HT : is_square d (mdiv (ger u u) c)) by (apply is_square_mdiv_ger; exact Hu).
    apply IH; [apply is_square_madd; assumption |].
    unfold quad. rewrite bilinear_madd by (eapply is_square_Forall2; eassumption).
    rewrite bilinear_mdiv_ger, (dot_comm x u).
    assert (0 <= dot u x * dot u x / c); [| unfold quad in Hq; lra].
    apply Rmult_le_pos; [| left; apply Rinv_0_lt_compat; exact Hc].
    pose proof (Rle_0_sqr (dot u x)) as Hs. unfold Rsqr in Hs. exact Hs.
Qed.

(** *** One category, then all of them *)

Lemma scatter_term_of_diffs (d : nat) (members : list (vec R)) (a b : nat) :
  Forall (fun u => length u = d) members ->
  vsum (map (fun u => coord u a * coord u b
                      / INR (length (map (fun e => vsub e (mean_dim0 d members)) members)))
            (map (fun e => vsub e (mean_dim0 d members)) members))
  = scatter_term members a b.
Proof.
  intros Hm. destruct (mean_dim0_spec d members Hm) as [Hlen Hmean].
  rewrite length_map, map_map. unfold scatter_term.
  f_equal. apply map_ext_in. intros e He.
  assert (Hl : length e = length (mean_dim0 d members)).
  { rewrite Forall_forall in Hm. rewrite Hlen. apply Hm. apply list_elem_of_In. exact He. }
  rewrite !coord_vsub, !Hmean by exact Hl. reflexivity.
Qed.

Lemma add_category_spec (d : nat) (E : list (vec R)) (categories : list Z) (c : Z) C :
  Forall (fun u => length u = d) E -> is_square d C ->
  is_square d (add_category E categories d C c)
  /\ (forall a b, (a < d)%nat -> (b < d)%nat ->
        entry (add_category E categories d C c) a b
        = entry C a b + scatter_term (masked categories c E) a b)
  /\ (forall x, 0 <= quad C x -> 0 <= quad (add_category E categories d C c) x).
Proof.
  intros HE HC. unfold add_category.
  set (members := masked categories c E).
  set (diffs := map (fun e => vsub e (mean_dim0 d members)) members).
  assert (Hm : Forall (fun u => length u = d) members) by (apply masked_Forall; exact HE).
  destruct (mean_dim0_spec d members Hm) as [Hlen _].
  assert (Hd : Forall (fun u => length u = d) diffs).
  { unfold diffs. apply Forall_forall. intros u Hu.
    apply list_elem_of_fmap in Hu. destruct Hu as [e [-> He]].
    rewrite length_vsub, Hlen. rewrite Forall_forall in Hm. rewrite (Hm e He). lia. }
  destruct (inner_loop_entry d diffs (s_of_nat (length diffs)) Hd C HC) as [Hsq Hent].
  split; [exact Hsq |]. split.
  - intros a b Ha Hb. rewrite Hent by assumption. f_equal.
    apply (scatter_term_of_diffs d members a b Hm).
  - intros x Hq. destruct diffs as [| u diffs'] eqn:Hdiffs; [exact Hq |].
    rewrite <- Hdiffs in *.
    apply (inner_loop_psd d); try assumption.
    change (s_of_nat (length diffs)) with (INR (length diffs)).
    apply lt_0_INR. rewrite Hdiffs. simpl. lia.
Qed.

Lemma outer_loop_spec (d : nat) (E : list (vec R)) (categories cs : list Z) :
  Forall (fun u => length u = d) E ->
  forall C, is_square d C ->
    let C' := foldl (add_category E categories d) C cs in
    is_square d C'
    /\ (forall a b, (a < d)%nat -> (b < d)%nat ->
          entry C' a b
          = entry C a b + vsum (map (fun c : Z => scatter_term (masked categories c E) a b) cs))
    /\ (forall x, 0 <= quad C x -> 0 <= quad C' x).
Proof.
  intros HE. induction cs as [| k cs IH]; intros C HC; cbn [foldl].
  - split; [exact HC |]. split; [| tauto].
    intros a b _ _. change (entry C a b = entry C a b + 0). ring.
  - destruct (add_category_spec d E categories k C HE HC) as [Hsq1 [Hent1 Hq1]].
    destruct (IH _ Hsq1) as [Hsq [Hent Hq]].
    split; [exact Hsq |]. split.
    + intros a b Ha Hb. rewrite Hent, Hent1 by assumption.
      change (vsum (map (fun c0 : Z => scatter_term (masked categories c0 E) a b) (k :: cs)))
        with (scatter_term (masked categories k E) a b
              + vsum (map (fun c0 : Z => scatter_term (masked categories c0 E) a b) cs)).
      ring.
    + intros x Hx. apply Hq, Hq1, Hx.
Qed.

End RealScatter.

(* ================================================================== *)
(** * Part III: the claims *)
(* ================================================================== *)

(** ** Ranking of one impression *)

(** C1, as the code has it.  When two candidates of an impression have
    equal click probability, the later-indexed one receives the smaller
    (better) rank: the ranks are [n + 1] minus the stable ascending ordinal
    ranks, so the rank at position [i] is one plus the number of candidates
    with a larger probability plus the number of later candidates with the
    same probability.  For the probabilities [0.5, 0.5, 0.9] the ranks are
    [3, 2, 1]. *)
Theorem ordinal_ties_favor_later_index (y_pred_prob : list Q) (i j : nat) :
  i < j -> j < length y_pred_prob ->
  (key_at y_pred_prob i == key_at y_pred_prob j)%Q ->
  exists ri rj : Z,
    y_pred_of y_pred_prob !! i = Some ri
    /\ y_pred_of y_pred_prob !! j = Some rj
    /\ (rj < ri)%Z
    /\ ri = (1 + Z.of_nat (count_greater y_pred_prob i)
             + Z.of_nat (count_ties_after y_pred_prob i))%Z
    /\ y_pred_of [1 # 2; 1 # 2; 9 # 10] = [3; 2; 1]%Z.
Proof.
  intros Hij Hj Heq.
  assert (Hi : i < length y_pred_prob) by lia.
  pose proof (y_pred_of_lookup y_pred_prob i Hi) as Hri.
  pose proof (y_pred_of_lookup y_pred_prob j Hj) as Hrj.
  eexists _, _. split; [exact Hri |]. split; [exact Hrj |]. split.
  - eapply (y_pred_of_antitone y_pred_prob i j); try eassumption.
    apply beforeb_spec. right. split; [exact Heq | exact Hij].
  - split; reflexivity.
Qed.

Lemma ordinal_ties_favor_later_index_witness :
  exists ri rj : Z,
    y_pred_of [1 # 2; 1 # 2; 9 # 10] !! 0 = Some ri
    /\ y_pred_of [1 # 2; 1 # 2; 9 # 10] !! 1 = Some rj
    /\ (rj < ri)%Z
    /\ ri = (1 + Z.of_nat (count_greater [1 # 2; 1 # 2; 9 # 10] 0)
             + Z.of_nat (count_ties_after [1 # 2; 1 # 2; 9 # 10] 0))%Z
    /\ y_pred_of [1 # 2; 1 # 2; 9 # 10] = [3; 2; 1]%Z.
Proof.
  apply (ordinal_ties_favor_later_index [1 # 2; 1 # 2; 9 # 10] 0 1).
  - lia.
  - simpl. lia.
  - reflexivity.
Defined.

(** C1, as the specification words it, fails on the code: the two tied
    candidates of [0.5, 0.5, 0.9] get the ranks 3 and 2, in that order, and
    the output is not [2, 3, 1]. *)
Lemma earlier_index_loses_ties :
  (key_at [1 # 2; 1 # 2; 9 # 10] 0 == key_at [1 # 2; 1 # 2; 9 # 10] 1)%Q
  /\ y_pred_of [1 # 2; 1 # 2; 9 # 10] !! 0 = Some 3%Z
  /\ y_pred_of [1 # 2; 1 # 2; 9 # 10] !! 1 = Some 2%Z
  /\ y_pred_of [1 # 2; 1 # 2; 9 # 10] <> [2; 3; 1]%Z.
Proof.
  split; [reflexivity |]. split; [reflexivity |]. split; [reflexivity |].
  vm_compute. discriminate.
Qed.

Section ImpressionClaims.
Context {F : Type} `{Scalar F} {news_attrs : Type}.
Implicit Types (m : model F news_attrs) (d u : gmap string (vec F)).

(** C2.  When the scoring operation returns one probability per candidate,
    the line written for an impression with [n] candidates is
    ["{impression_id} [{ranks}]"] followed by a newline, where the ranks,
    separated by commas, are a duplicate-free permutation of [1..n] listed
    in the order of the candidates: the rank at position [i] belongs to the
    [i]-th candidate.  Impression 42 with probabilities [0.1, 0.8, 0.3]
    gives ["42 [3,1,2]"]. *)
Theorem rank_line_is_permutation m d u (minibatch : behavior) (line : string) :
  (forall cand uv, length (rows cand) = shape0 cand ->
                   length (get_prediction m cand uv) = shape0 cand) ->
  rank_impression m d u minibatch = Ok line ->
  exists (y_pred : list Z) (cand : tensor2 F) (uv : vec F),
    let n := length (impressions minibatch) in
    let y_pred_prob := get_prediction m cand uv in
    line = pretty (impression_id minibatch) +:+ " ["
           +:+ join "," (map pretty y_pred) +:+ "]" +:+ newline
    /\ y_pred ≡ₚ Z.of_nat <$> seq 1 n
    /\ NoDup y_pred
    /\ length y_pred = n
    /\ Forall2 (fun news v => d !! split_head dash news = Some v)
               (impressions minibatch) (rows cand)
    /\ length y_pred_prob = n
    /\ (forall i, i < n ->
          y_pred !! i = Some (1 + Z.of_nat (count_greater y_pred_prob i)
                              + Z.of_nat (count_ties_after y_pred_prob i))%Z)
    /\ format_line 42 (y_pred_of [1 # 10; 8 # 10; 3 # 10]) = "42 [3,1,2]" +:+ newline.
Proof.
  intros Hcontract Hline.
  destruct (rank_impression_ok m d u minibatch line Hline)
    as [vs [cand [uv [Hvs [Hrows [Hshape [Hu ->]]]]]]].
  assert (Hn : length vs = length (impressions minibatch)).
  { symmetry. eapply Forall2_length. exact Hvs. }
  assert (Hlen : length (get_prediction m cand uv) = length (impressions minibatch)).
  { rewrite Hcontract by (rewrite Hrows; symmetry; exact Hshape). rewrite Hshape. exact Hn. }
  exists (y_pred_of (get_prediction m cand uv)), cand, uv. cbv zeta.
  split; [reflexivity |].
  split; [rewrite y_pred_of_perm, Hlen; reflexivity |].
  split; [apply y_pred_of_NoDup |].
  split; [rewrite y_pred_of_length; exact Hlen |].
  split; [rewrite Hrows; exact Hvs |].
  split; [exact Hlen |].
  split; [| vm_compute; reflexivity].
  intros i Hi. apply y_pred_of_lookup. rewrite Hlen. exact Hi.
Qed.

(** C8.  When an impression of the stream has a candidate id with no
    entry in [news2vector], and the loop gets to it (the impressions before
    it are ranked and [max_count] is not reached), the lookup raises
    [KeyError]: the lines of the earlier impressions have been written,
    nothing is written for that impression nor for any later one, and the
    run ends with that exception. *)
Theorem missing_candidate_aborts_run m d u (max_count : Z) (pre : list behavior)
    (ls : list string) (minibatch : behavior) (rest : list behavior) (news : string) :
  Forall2 (fun x l => rank_impression m d u x = Ok l) pre ls ->
  (max_count <= 0 \/ Z.of_nat (length pre) + 1 < max_count)%Z ->
  news ∈ impressions minibatch ->
  d !! split_head dash news = None ->
  exists key,
    d !! key = None
    /\ rank_impression m d u minibatch = Err (KeyError key)
    /\ behaviors_loop m d u max_count 0 [] (pre ++ minibatch :: rest)
       = (ls, Some (KeyError key))
    /\ (forall svd_V directory h calls,
          debias svd_V (news_loop m (∅, []) (news_dataloader directory)).1
                 (news_category directory) = Ok (h, d) ->
          user_loop m d (∅, []) (user_dataloader directory) = Ok (u, calls) ->
          behaviors_dataloader directory = pre ++ minibatch :: rest ->
          evaluate m svd_V directory max_count = (ls, Some (KeyError key))).
Proof.
  intros Hpre Hcount Hin Hnone.
  destruct (rank_impression_missing m d u minibatch news Hin Hnone) as [key [Hkey Herr]].
  assert (Hloop : behaviors_loop m d u max_count 0 [] (pre ++ minibatch :: rest)
                  = (ls, Some (KeyError key))).
  { rewrite (behaviors_loop_prefix m d u max_count 0 [] ls pre) by (assumption || lia).
    apply behaviors_loop_error; [lia | exact Herr]. }
  exists key. split; [exact Hkey |]. split; [exact Herr |]. split; [exact Hloop |].
  intros svd_V directory h calls Hd Hu Hstream.
  rewrite (evaluate_loop m svd_V directory max_count h d u calls Hd Hu), Hstream.
  exact Hloop.
Qed.

(** C3, as the code has it.  A value cached under a key is never
    overwritten by later batches, in [news2vector] and in [user2vector]
    alike.  The encoder is skipped only for a batch all of whose keys are
    cached; a batch with at least one absent key is handed to the encoder
    whole, the keys already cached included. *)
Theorem cached_value_never_overwritten m d
    (nst : gmap string (vec F) * list (list (news_item news_attrs)))
    (ust : gmap string (vec F) * list (list string))
    (k k' : string) (v v' : vec F) :
  nst.1 !! k = Some v ->
  ust.1 !! k' = Some v' ->
  (forall batches, (news_loop m nst batches).1 !! k = Some v)
  /\ (forall batches ust', user_loop m d ust batches = Ok ust' -> ust'.1 !! k' = Some v')
  /\ (forall minibatch, any_missing nst.1 (map id minibatch) = false ->
        news_step m nst minibatch = nst)
  /\ (forall minibatch, any_missing ust.1 (mb_clicked_news_string minibatch) = false ->
        user_step m d ust minibatch = Ok ust)
  /\ (forall minibatch, any_missing nst.1 (map id minibatch) = true ->
        (news_step m nst minibatch).2 = nst.2 ++ [minibatch])
  /\ (forall minibatch ust', any_missing ust.1 (mb_clicked_news_string minibatch) = true ->
        user_step m d ust minibatch = Ok ust' ->
        ust'.2 = ust.2 ++ [mb_clicked_news_string minibatch]).
Proof.
  intros Hk Hk'.
  split; [intros batches; apply news_loop_keeps; exact Hk |].
  split; [intros batches ust' Hloop; eapply user_loop_keeps; eassumption |].
  split; [apply news_step_cached |].
  split; [apply user_step_cached |].
  split; [apply news_step_encodes_whole_batch |].
  intros minibatch ust'. apply user_step_encodes_whole_batch.
Qed.

End ImpressionClaims.

Lemma rank_line_is_permutation_witness :
  exists (y_pred : list Z) (cand : tensor2 PrimFloat.float) (uv : vec PrimFloat.float),
    let minibatch := ex_behavior 42 ["N1-0"; "N2-1"; "N3-0"] in
    let n := length (impressions minibatch) in
    let y_pred_prob := get_prediction ex_model cand uv in
    "42 [3,1,2]" +:+ newline
    = pretty (impression_id minibatch) +:+ " ["
      +:+ join "," (map pretty y_pred) +:+ "]" +:+ newline
    /\ y_pred ≡ₚ Z.of_nat <$> seq 1 n
    /\ NoDup y_pred
    /\ length y_pred = n
    /\ Forall2 (fun news v => ex_news2vector !! split_head dash news = Some v)
               (impressions minibatch) (rows cand)
    /\ length y_pred_prob = n
    /\ (forall i, i < n ->
          y_pred !! i = Some (1 + Z.of_nat (count_greater y_pred_prob i)
                              + Z.of_nat (count_ties_after y_pred_prob i))%Z)
    /\ format_line 42 (y_pred_of [1 # 10; 8 # 10; 3 # 10]) = "42 [3,1,2]" +:+ newline.
Proof.
  apply (rank_line_is_permutation ex_model ex_news2vector ex_user2vector
           (ex_behavior 42 ["N1-0"; "N2-1"; "N3-0"])).
  - intros cand uv Hwf. simpl. rewrite length_map. exact Hwf.
  - vm_compute. reflexivity.
Defined.

Lemma missing_candidate_aborts_run_witness :
  exists key,
    ex_news2vector !! key = None
    /\ rank_impression ex_model ex_news2vector ex_user2vector
         (ex_behavior 7 ["N1-0"; "N9-1"]) = Err (KeyError key)
    /\ behaviors_loop ex_model ex_news2vector ex_user2vector sys_maxsize 0 []
         ([ex_behavior 6 ["N3-0"]] ++ ex_behavior 7 ["N1-0"; "N9-1"]
            :: [ex_behavior 8 ["N2-0"]])
       = (["6 [1]" +:+ newline], Some (KeyError key))
    /\ (forall svd_V directory h calls,
          debias svd_V (news_loop ex_model (∅, []) (news_dataloader directory)).1
                 (news_category directory) = Ok (h, ex_news2vector) ->
          user_loop ex_model ex_news2vector (∅, []) (user_dataloader directory)
          = Ok (ex_user2vector, calls) ->
          behaviors_dataloader directory
          = [ex_behavior 6 ["N3-0"]] ++ ex_behavior 7 ["N1-0"; "N9-1"]
              :: [ex_behavior 8 ["N2-0"]] ->
          evaluate ex_model svd_V directory sys_maxsize
          = (["6 [1]" +:+ newline], Some (KeyError key))).
Proof.
  apply (missing_candidate_aborts_run ex_model ex_news2vector ex_user2vector
           sys_maxsize [ex_behavior 6 ["N3-0"]] ["6 [1]" +:+ newline]
           (ex_behavior 7 ["N1-0"; "N9-1"]) [ex_behavior 8 ["N2-0"]] "N9-1").
  - repeat constructor.
  - right. vm_compute. reflexivity.
  - simpl. right. left.
  - vm_compute. reflexivity.
Defined.

Lemma cached_value_never_overwritten_witness :
  let nst : gmap string (vec PrimFloat.float) * list (list (news_item unit)) :=
    (ex_news2vector, []) in
  let ust : gmap string (vec PrimFloat.float) * list (list string) :=
    (ex_user2vector, []) in
  (forall batches, (news_loop ex_model nst batches).1 !! "N1" = Some [fl 1])
  /\ (forall batches ust',
        user_loop ex_model ex_news2vector ust batches = Ok ust' ->
        ust'.1 !! "N1 N2" = Some [fl 1])
  /\ (forall minibatch, any_missing nst.1 (map id minibatch) = false ->
        news_step ex_model nst minibatch = nst)
  /\ (forall minibatch, any_missing ust.1 (mb_clicked_news_string minibatch) = false ->
        user_step ex_model ex_news2vector ust minibatch = Ok ust)
  /\ (forall minibatch, any_missing nst.1 (map id minibatch) = true ->
        (news_step ex_model nst minibatch).2 = nst.2 ++ [minibatch])
  /\ (forall minibatch ust',
        any_missing ust.1 (mb_clicked_news_string minibatch) = true ->
        user_step ex_model ex_news2vector ust minibatch = Ok ust' ->
        ust'.2 = ust.2 ++ [mb_clicked_news_string minibatch]).
Proof.
  apply (cached_value_never_overwritten ex_model ex_news2vector
           (ex_news2vector, []) (ex_user2vector, []) "N1" "N1 N2" [fl 1] [fl 1]).
  - vm_compute. reflexivity.
  - vm_compute. reflexivity.
Defined.

(** C3, as the specification words it, fails on the code: after a first
    batch has cached the key ["N1"], a further batch that contains ["N1"]
    next to the new key ["N2"] is handed to the encoder as a whole, so the
    encoder is invoked for ["N1"] a second time. *)
Lemma cached_key_is_encoded_again :
  let st1 := news_loop ex_model (∅, []) [[ex_item "N1"]] in
  st1.1 !! "N1" = Some [fl 1]
  /\ st1.2 = [[ex_item "N1"]]
  /\ (news_step ex_model st1 [ex_item "N1"; ex_item "N2"]).2
     = [[ex_item "N1"]; [ex_item "N1"; ex_item "N2"]]
  /\ (news_step ex_model st1 [ex_item "N1"; ex_item "N2"]).1 !! "N1" = Some [fl 1].
Proof. vm_compute. repeat split; reflexivity. Qed.

(** C7 fails on the code: with [max_count = 2] and three rankable
    impressions in the stream, [evaluate] writes one line, not two, and so
    does its loop from any dictionaries.  The counter is incremented and
    compared before the impression is ranked, so the impression that brings
    it to [max_count] is never written. *)
Lemma max_count_two_writes_one_line :
  evaluate ex_model_run ex_svd_V ex_directory 2 = (["1 [1,2]" +:+ newline], None)
  /\ evaluate ex_model_run ex_svd_V ex_directory sys_maxsize
     = (["1 [1,2]" +:+ newline; "2 [1]" +:+ newline; "3 [1,2]" +:+ newline], None)
  /\ behaviors_loop ex_model ex_news2vector ex_user2vector 2 0 []
       [ex_behavior 1 ["N1-0"; "N2-1"]; ex_behavior 2 ["N2-1"]; ex_behavior 3 ["N3-0"]]
     = (["1 [2,1]" +:+ newline], None).
Proof. vm_compute. repeat split; reflexivity. Qed.

(** ** Debiasing *)

Section ScatterClaim.
Local Open Scope R_scope.

Lemma construct_c_eq (embeddings : tensor2 R) (categories cs : list Z) :
  construct_c embeddings categories (compute_category_means embeddings categories cs) cs
  = Ok (Tensor2 (shape1 embeddings) (shape1 embeddings)
          (foldl (add_category (rows embeddings) categories (shape1 embeddings))
                 (zeros2 (shape1 embeddings) (shape1 embeddings)) cs)).
Proof.
  unfold construct_c.
  rewrite (foldlM_ok _ (add_category (rows embeddings) categories (shape1 embeddings))).
  - reflexivity.
  - intros C k Hk. unfold getitemZ, compute_category_means.
    rewrite foldl_insert_lookup, decide_True by exact Hk. reflexivity.
Qed.

Lemma is_square_zeros2 (d : nat) : is_square d (zeros2 d d).
Proof.
  unfold is_square, zeros2. split; [apply length_replicate |].
  apply Forall_forall. intros r Hr. apply elem_of_replicate in Hr.
  destruct Hr as [-> _]. apply length_replicate.
Qed.

Lemma entry_zeros2 (d a b : nat) : entry (zeros2 d d : list (vec R)) a b = 0.
Proof.
  rewrite entry_coord. unfold zeros2.
  destruct (decide (a < d)%nat) as [Ha | Ha].
  - rewrite (nth_lookup_Some _ a [] (zeros d)); [apply coord_zeros |].
    apply lookup_replicate_2. exact Ha.
  - rewrite nth_overflow by (rewrite length_replicate; lia).
    unfold coord. destruct b; reflexivity.
Qed.

Lemma scatter_term_symmetric (members : list (vec R)) (a b : nat) :
  scatter_term members a b = scatter_term members b a.
Proof.
  unfold scatter_term. f_equal. apply map_ext. intros e. unfold Rdiv. ring.
Qed.

Lemma scatter_term_single (e : vec R) (a b : nat) : scatter_term [e] a b = 0.
Proof.
  unfold scatter_term, category_mean.
  change (vsum (map (fun e0 => coord e0 a) [e])) with (coord e a + 0).
  change (vsum (map (fun e0 => coord e0 b) [e])) with (coord e b + 0).
  change (INR (length [e])) with 1.
  match goal with |- vsum (map ?f [e]) = 0 => change (f e + 0 = 0) end.
  cbv beta. unfold Rdiv. rewrite Rinv_1. ring.
Qed.

(** C4.  In exact arithmetic, for an embedding tensor with one category
    label per row, [construct_c], called with the means of
    [compute_category_means] over the distinct labels, returns the square
    matrix whose entry [(a, b)] is the sum over the categories [c] and over
    the members [e_i] of [c] of
    [(e_i - m_c)[a] * (e_i - m_c)[b] / n_c], with [m_c] the mean and [n_c]
    the number of the members of [c].  That matrix is symmetric and positive
    semi-definite, and a category with a single member contributes zero. *)
Theorem construct_c_is_scatter_matrix (embeddings : tensor2 R) (categories : list Z) :
  wf_tensor embeddings ->
  length categories = shape0 embeddings ->
  let categories_unique := unique categories in
  let d := shape1 embeddings in
  exists C : tensor2 R,
    construct_c embeddings categories
      (compute_category_means embeddings categories categories_unique) categories_unique
    = Ok C
    /\ shape0 C = d /\ shape1 C = d /\ wf_tensor C
    /\ (forall a b, (a < d)%nat -> (b < d)%nat ->
          entry (rows C) a b = scatter_spec (rows embeddings) categories a b)
    /\ (forall a b, (a < d)%nat -> (b < d)%nat -> entry (rows C) a b = entry (rows C) b a)
    /\ (forall x, 0 <= quad (rows C) x)
    /\ (forall c e a b, masked categories c (rows embeddings) = [e] ->
          scatter_term (masked categories c (rows embeddings)) a b = 0).
Proof.
  intros [Hrows Hwidth] Hcats. cbv zeta.
  rewrite construct_c_eq. eexists. split; [reflexivity |]. cbn [shape0 shape1 rows].
  destruct (outer_loop_spec (shape1 embeddings) (rows embeddings) categories
              (unique categories) Hwidth _ (is_square_zeros2 (shape1 embeddings)))
    as [Hsq [Hent Hq]].
  assert (Hspec : forall a b, (a < shape1 embeddings)%nat -> (b < shape1 embeddings)%nat ->
            entry (foldl (add_category (rows embeddings) categories (shape1 embeddings))
                         (zeros2 (shape1 embeddings) (shape1 embeddings))
                         (unique categories)) a b
            = scatter_spec (rows embeddings) categories a b).
  { intros a b Ha Hb. rewrite Hent by assumption. rewrite entry_zeros2.
    unfold scatter_spec. ring. }
  split; [reflexivity |]. split; [reflexivity |].
  split; [exact Hsq |]. split; [exact Hspec |]. split.
  - intros a b Ha Hb. rewrite !Hspec by assumption. unfold scatter_spec.
    f_equal. apply map_ext. intros k. apply scatter_term_symmetric.
  - split.
    + intros x. apply Hq. rewrite quad_zeros2. lra.
    + intros c e a b ->. apply scatter_term_single.
Qed.

Lemma construct_c_is_scatter_matrix_witness :
  exists C : tensor2 R,
    construct_c ex_embeddings ex_categories
      (compute_category_means ex_embeddings ex_categories (unique ex_categories))
      (unique ex_categories)
    = Ok C
    /\ shape0 C = 2%nat /\ shape1 C = 2%nat /\ wf_tensor C
    /\ (forall a b, (a < 2)%nat -> (b < 2)%nat ->
          entry (rows C) a b = scatter_spec (rows ex_embeddings) ex_categories a b)
    /\ (forall a b, (a < 2)%nat -> (b < 2)%nat -> entry (rows C) a b = entry (rows C) b a)
    /\ (forall x, 0 <= quad (rows C) x)
    /\ (forall c e a b, masked ex_categories c (rows ex_embeddings) = [e] ->
          scatter_term (masked ex_categories c (rows ex_embeddings)) a b = 0).
Proof.
  apply (construct_c_is_scatter_matrix ex_embeddings ex_categories).
  - split; [reflexivity | repeat constructor].
  - reflexivity.
Defined.

End ScatterClaim.

Section NeutralizeClaims.
Local Open Scope R_scope.

(** C5.  In exact arithmetic, for a subspace with at least one column and
    orthonormal columns, [neutralize_embeddings] returns normally; the
    projection-removed embeddings, which it leaves in the caller's tensor,
    are orthogonal to every column of the subspace, and every returned
    embedding has norm one, provided no projection-removed embedding has
    norm zero. *)
Theorem neutralize_orthogonal_unit_norm (h : heap R) (embeddings : nat)
    (bias_subspace : tensor2 R) :
  (embeddings < length h)%nat ->
  (1 <= shape1 bias_subspace)%nat ->
  Forall (fun row => length row = length (rows bias_subspace)) (rows (load h embeddings)) ->
  orthonormal_columns bias_subspace ->
  Forall (fun row => norm2 row <> 0)
         (rows (remove_projections bias_subspace (load h embeddings))) ->
  exists (h' : heap R) (normalized_embeddings : nat),
    neutralize_embeddings h embeddings bias_subspace = (h', Ok normalized_embeddings)
    /\ load h' embeddings = remove_projections bias_subspace (load h embeddings)
    /\ (forall row i, row ∈ rows (load h' embeddings) -> (i < shape1 bias_subspace)%nat ->
          dot row (column bias_subspace i) = 0)
    /\ (forall row, row ∈ rows (load h' normalized_embeddings) -> norm2 row = 1).
Proof.
  intros He Hk Hwidth Horth Hnz.
  destruct (neutralize_embeddings_ok h embeddings bias_subspace He Hk)
    as [h' [r [Hcall [_ [_ [Hcell [Hret _]]]]]]].
  exists h', r. split; [exact Hcall |]. split; [exact Hcell |]. split.
  - intros row i Hrow Hi. rewrite Hcell in Hrow.
    unfold remove_projections in Hrow. rewrite foldl_remove_rows in Hrow.
    apply list_elem_of_fmap in Hrow. destruct Hrow as [e [-> Hin]].
    rewrite Forall_forall in Hwidth.
    destruct (row_removed_orthogonal bias_subspace e (shape1 bias_subspace) Horth
                (Hwidth e Hin) (Nat.le_refl _)) as [_ Hdot].
    apply Hdot. exact Hi.
  - intros row Hrow. rewrite Hret, normalize_rows in Hrow.
    apply list_elem_of_fmap in Hrow. destruct Hrow as [e [-> Hin]].
    apply norm2_normalized. rewrite Forall_forall in Hnz. apply Hnz. exact Hin.
Qed.

Lemma neutralize_orthogonal_unit_norm_witness :
  exists (h' : heap R) (normalized_embeddings : nat),
    neutralize_embeddings [Tensor2 1 2 [[3; 4]]] 0 ex_bias = (h', Ok normalized_embeddings)
    /\ load h' 0 = remove_projections ex_bias (load [Tensor2 1 2 [[3; 4]]] 0)
    /\ (forall row i, row ∈ rows (load h' 0) -> (i < shape1 ex_bias)%nat ->
          dot row (column ex_bias i) = 0)
    /\ (forall row, row ∈ rows (load h' normalized_embeddings) -> norm2 row = 1).
Proof.
  apply (neutralize_orthogonal_unit_norm [Tensor2 1 2 [[3; 4]]] 0 ex_bias).
  - simpl. lia.
  - simpl. lia.
  - repeat constructor.
  - intros i j Hi Hj. simpl in Hi, Hj.
    assert (i = 0%nat) as -> by lia. assert (j = 0%nat) as -> by lia.
    rewrite decide_True by reflexivity.
    unfold dot, column, vsum. simpl. ring.
  - repeat constructor. rewrite norm2_eq. unfold dot, vsum. simpl.
    intros Hz. apply sqrt_eq_0 in Hz; lra.
Defined.

End NeutralizeClaims.

Section HeapClaims.
Context {F : Type} `{Scalar F}.

(** C6, as the code has it.  [neutralize_embeddings] never checks the norms:
    for well-formed embeddings as wide as the subspace is high (the shapes
    [torch.matmul] accepts) and a subspace with at least one column, it
    returns normally whatever the values of the embeddings are, and every
    returned row is the projection-removed row divided by its norm, also
    when that norm is zero. *)
Theorem neutralize_divides_without_check (h : heap F) (embeddings : nat)
    (bias_subspace : tensor2 F) :
  embeddings < length h ->
  1 <= shape1 bias_subspace ->
  wf_tensor (load h embeddings) ->
  wf_tensor bias_subspace ->
  shape1 (load h embeddings) = shape0 bias_subspace ->
  exists (h' : heap F) (normalized_embeddings : nat),
    neutralize_embeddings h embeddings bias_subspace = (h', Ok normalized_embeddings)
    /\ rows (load h' embeddings)
       = map (removed_row bias_subspace) (rows (load h embeddings))
    /\ rows (load h' normalized_embeddings)
       = map (fun row => vdiv row (norm2 row)) (rows (load h' embeddings)).
Proof.
  intros He Hk _ _ _.
  destruct (neutralize_embeddings_ok h embeddings bias_subspace He Hk)
    as [h' [r [Hcall [_ [_ [Hcell [Hret _]]]]]]].
  exists h', r. split; [exact Hcall |]. split.
  - rewrite Hcell. unfold remove_projections. apply foldl_remove_rows.
  - rewrite Hret, Hcell. apply normalize_rows.
Qed.

(** C9.  With a subspace that has no column the loop body never runs, the
    local [normalized_embeddings] is unbound at the [return], and the call
    raises instead of returning the embeddings; the heap is untouched. *)
Theorem neutralize_zero_columns_unbound (h : heap F) (embeddings : nat)
    (bias_subspace : tensor2 F) :
  shape1 bias_subspace = 0 ->
  neutralize_embeddings h embeddings bias_subspace
  = (h, Err (UnboundLocalError "normalized_embeddings")).
Proof. apply neutralize_embeddings_unbound. Qed.

Lemma debias_inv (svd_V : tensor2 F -> tensor2 F) (news2vector : gmap string (vec F))
    (news_category : list (string * Z)) (h' : heap F) (rebuilt : gmap string (vec F)) :
  debias svd_V news2vector news_category = Ok (h', rebuilt) ->
  exists (stacked bias_subspace : tensor2 F) (r : nat),
    neutralize_embeddings [stacked] 0 bias_subspace = (h', Ok r)
    /\ 1 <= shape1 bias_subspace
    /\ rebuilt = <["PADDED_NEWS" := zeros (shape1 (load h' r))]>
                   (foldl (fun d kv => <[kv.1 := kv.2]> d) ∅
                          (zip (map fst news_category) (rows (load h' r)))).
Proof.
  unfold debias, mbind, result_bind, alloc. cbn [app length]. intros Hd.
  destruct (mapM (getitem news2vector) (map fst news_category)) as [vs | e];
    [| discriminate].
  destruct (stack vs) as [stacked | e]; [| discriminate].
  destruct (construct_c _ _ _ _) as [C | e]; [| discriminate].
  destruct (neutralize_embeddings _ _ _) as [h2 res] eqn:Hcall.
  destruct res as [r | e]; [| discriminate].
  injection Hd as <- <-.
  eexists _, _, r. split; [exact Hcall |]. split; [| reflexivity].
  destruct (shape1 (identify_bias_subspace svd_V C 2)) as [| k] eqn:Hk; [| lia].
  rewrite neutralize_embeddings_unbound in Hcall by exact Hk. discriminate.
Qed.

(** C10.  [neutralize_embeddings] overwrites the tensor it is given.  For
    well-formed embeddings as wide as the subspace is high (the shapes
    [torch.matmul] accepts; on others the call raises before any write)
    and a subspace with at least one column: after the call the caller's
    tensor holds the projection-removed embeddings, not renormalised, row
    by row; the normalised embeddings are in a tensor of their own,
    allocated by the call, while every other tensor is left as it was.  It
    is from that returned tensor that the driver rebuilds [news2vector],
    when the encoder's vectors have one width and [torch.svd] returns a
    square factor of the size of its argument. *)
Theorem neutralize_mutates_caller_tensor (h : heap F) (embeddings : nat)
    (bias_subspace : tensor2 F) :
  embeddings < length h ->
  1 <= shape1 bias_subspace ->
  wf_tensor (load h embeddings) ->
  wf_tensor bias_subspace ->
  shape1 (load h embeddings) = shape0 bias_subspace ->
  exists (h' : heap F) (normalized_embeddings : nat),
    neutralize_embeddings h embeddings bias_subspace = (h', Ok normalized_embeddings)
    /\ normalized_embeddings <> embeddings
    /\ length h <= normalized_embeddings < length h'
    /\ load h' embeddings = remove_projections bias_subspace (load h embeddings)
    /\ rows (load h' embeddings)
       = map (removed_row bias_subspace) (rows (load h embeddings))
    /\ load h' normalized_embeddings = normalize (load h' embeddings)
    /\ rows (load h' normalized_embeddings)
       = map (neutralized_row bias_subspace) (rows (load h embeddings))
    /\ (forall l, l < length h -> l <> embeddings -> h' !! l = h !! l)
    /\ (forall svd_V news2vector news_category hd rebuilt (d : nat),
          (forall key v, news2vector !! key = Some v -> length v = d) ->
          (forall C, shape0 C = d -> shape1 C = d ->
             wf_tensor (svd_V C) /\ shape0 (svd_V C) = d /\ shape1 (svd_V C) = d) ->
          debias svd_V news2vector news_category = Ok (hd, rebuilt) ->
          exists r, r <> 0
            /\ load hd r = normalize (load hd 0)
            /\ rebuilt = <["PADDED_NEWS" := zeros (shape1 (load hd r))]>
                           (foldl (fun d kv => <[kv.1 := kv.2]> d) ∅
                                  (zip (map fst news_category) (rows (load hd r))))).
Proof.
  intros He Hk _ _ _.
  destruct (neutralize_embeddings_ok h embeddings bias_subspace He Hk)
    as [h' [r [Hcall [Hfresh [Hr [Hcell [Hret Hframe]]]]]]].
  exists h', r. split; [exact Hcall |]. split; [lia |]. split; [lia |].
  split; [exact Hcell |].
  split; [rewrite Hcell; unfold remove_projections; apply foldl_remove_rows |].
  split; [rewrite Hret, Hcell; reflexivity |].
  split.
  { rewrite Hret, normalize_rows. unfold remove_projections.
    rewrite foldl_remove_rows, map_map. reflexivity. }
  split; [exact Hframe |].
  intros svd_V news2vector news_category hd rebuilt d _ _ Hd.
  destruct (debias_inv svd_V news2vector news_category hd rebuilt Hd)
    as [stacked [bias [r' [Hcall' [Hk' Hrebuilt]]]]].
  destruct (neutralize_embeddings_ok [stacked] 0 bias ltac:(simpl; lia) Hk')
    as [h2 [r2 [Hcall2 [Hfresh2 [_ [Hcell2 [Hret2 _]]]]]]].
  rewrite Hcall' in Hcall2. injection Hcall2 as <- <-.
  exists r'. split; [simpl in Hfresh2; lia |].
  split; [rewrite Hret2, Hcell2; reflexivity | exact Hrebuilt].
Qed.

End HeapClaims.

Lemma neutralize_divides_without_check_witness :
  exists (h' : heap PrimFloat.float) (normalized_embeddings : nat),
    neutralize_embeddings [Tensor2 1 2 [[fl 1; fl 0]]] 0 ex_bias_float
    = (h', Ok normalized_embeddings)
    /\ rows (load h' 0)
       = map (removed_row ex_bias_float) (rows (load [Tensor2 1 2 [[fl 1; fl 0]]] 0))
    /\ rows (load h' normalized_embeddings)
       = map (fun row => vdiv row (norm2 row)) (rows (load h' 0)).
Proof.
  apply (neutralize_divides_without_check [Tensor2 1 2 [[fl 1; fl 0]]] 0 ex_bias_float).
  - simpl. lia.
  - simpl. lia.
  - split; [reflexivity | repeat constructor].
  - split; [reflexivity | repeat constructor].
  - reflexivity.
Defined.

(** C6, as the specification words it, fails on the code.  The embedding
    [[1.0, 0.0]] lies in the subspace spanned by the first axis: projection
    removal leaves the zero row, whose norm is zero, and the call still
    returns normally, with the row [0/0 = NaN] in the returned tensor. *)
Lemma zero_norm_row_yields_nan :
  let res := neutralize_embeddings [Tensor2 1 2 [[fl 1; fl 0]]] 0 ex_bias_float in
  rows (load res.1 0) = [[fl 0; fl 0]]
  /\ map norm2 (rows (load res.1 0)) = [fl 0]
  /\ res.2 = Ok 1
  /\ rows (load res.1 1) = [[PrimFloat.nan; PrimFloat.nan]]
  /\ PrimFloat.is_nan (hd (fl 0) (hd [] (rows (load res.1 1)))) = true.
Proof. vm_compute. repeat split; reflexivity. Qed.

Lemma neutralize_zero_columns_unbound_witness :
  shape1 ex_bias_empty = 0
  /\ neutralize_embeddings [Tensor2 1 2 [[fl 1; fl 0]]] 0 ex_bias_empty
     = ([Tensor2 1 2 [[fl 1; fl 0]]], Err (UnboundLocalError "normalized_embeddings")).
Proof.
  split; [reflexivity |].
  apply (neutralize_zero_columns_unbound [Tensor2 1 2 [[fl 1; fl 0]]] 0 ex_bias_empty).
  reflexivity.
Defined.

Lemma neutralize_mutates_caller_tensor_witness :
  exists (h' : heap PrimFloat.float) (normalized_embeddings : nat),
    neutralize_embeddings [Tensor2 1 2 [[fl 3; fl 4]]] 0 ex_bias_float
    = (h', Ok normalized_embeddings)
    /\ normalized_embeddings <> 0
    /\ length [Tensor2 1 2 [[fl 3; fl 4]]] <= normalized_embeddings < length h'
    /\ load h' 0 = Tensor2 1 2 [[fl 0; fl 4]]
    /\ rows (load h' 0) = [[fl 0; fl 4]]
    /\ load h' normalized_embeddings = normalize (load h' 0)
    /\ rows (load h' normalized_embeddings) = [[fl 0; fl 1]]
    /\ (forall l, l < length [Tensor2 1 2 [[fl 3; fl 4]] : tensor2 PrimFloat.float] ->
          l <> 0 -> h' !! l = [Tensor2 1 2 [[fl 3; fl 4]]] !! l)
    /\ (forall svd_V news2vector news_category hd rebuilt (d : nat),
          (forall key v, news2vector !! key = Some v -> length v = d) ->
          (forall C, shape0 C = d -> shape1 C = d ->
             wf_tensor (svd_V C) /\ shape0 (svd_V C) = d /\ shape1 (svd_V C) = d) ->
          debias svd_V news2vector news_category = Ok (hd, rebuilt) ->
          exists r, r <> 0
            /\ load hd r = normalize (load hd 0)
            /\ rebuilt = <["PADDED_NEWS" := zeros (shape1 (load hd r))]>
                           (foldl (fun d kv => <[kv.1 := kv.2]> d) ∅
                                  (zip (map fst news_category) (rows (load hd r))))).
Proof.
  destruct (neutralize_mutates_caller_tensor [Tensor2 1 2 [[fl 3; fl 4]]] 0 ex_bias_float)
    as [h' [r [Hcall [Hne [Hr [Hcell [Hrows [Hret [Hnrows [Hframe Hdebias]]]]]]]]]].
  - simpl. lia.
  - simpl. lia.
  - split; [reflexivity | repeat constructor].
  - split; [reflexivity | repeat constructor].
  - reflexivity.
  - exists h', r. split; [exact Hcall |]. split; [exact Hne |]. split; [exact Hr |].
    split; [rewrite Hcell; vm_compute; reflexivity |].
    split; [rewrite Hrows; vm_compute; reflexivity |].
    split; [exact Hret |].
    split; [rewrite Hnrows; vm_compute; reflexivity |].
    split; [exact Hframe | exact Hdebias].
Defined.

(** ** The code on the sample data *)

(** After the call on [[3.0, 4.0]] the caller's tensor holds [[0.0, 4.0]],
    whose norm is 4, and the returned tensor holds [[0.0, 1.0]]. *)
Example neutralize_sample :
  neutralize_embeddings [Tensor2 1 2 [[fl 3; fl 4]]] 0 ex_bias_float
  = ([Tensor2 1 2 [[fl 0; fl 4]]; Tensor2 1 2 [[fl 0; fl 1]]], Ok 1).
Proof. vm_compute. reflexivity. Qed.

(** The debiasing step on the sample run: the encoder's vectors have width
    3 and the stand-in for [torch.svd] returns a 3 x 3 factor.  The stacked
    tensor of the driver, at location 0, is left with the projection-removed
    rows, of norm 2, 2 and 1, and the store is rebuilt from the tensor at
    location 2, whose rows have norm 1. *)
Example debias_sample :
  let news2vector := (news_loop ex_model_run (∅, []) (news_dataloader ex_directory)).1 in
  (forall key v, news2vector !! key = Some v -> length v = 3)
  /\ (forall C, shape0 C = 3 -> shape1 C = 3 ->
        wf_tensor (ex_svd_V C) /\ shape0 (ex_svd_V C) = 3 /\ shape1 (ex_svd_V C) = 3)
  /\ exists hd rebuilt,
       debias ex_svd_V news2vector (news_category ex_directory) = Ok (hd, rebuilt)
       /\ rows (load hd 0) = [[fl 0; fl 0; fl 2]; [fl 0; fl 0; PrimFloat.opp (fl 2)];
                              [fl 0; fl 0; fl 1]]
       /\ rows (load hd 2) = [[fl 0; fl 0; fl 1]; [fl 0; fl 0; PrimFloat.opp (fl 1)];
                              [fl 0; fl 0; fl 1]]
       /\ rebuilt !! "N2" = Some [fl 0; fl 0; PrimFloat.opp (fl 1)].
Proof.
  cbv zeta. split; [| split].
  - assert (Heq : (news_loop ex_model_run (∅, []) (news_dataloader ex_directory)).1
                  = <["N1" := [fl 3; fl 4; fl 2]]>
                      (<["N2" := [fl 1; fl 2; PrimFloat.opp (fl 2)]]>
                         (<["N3" := [fl 5; fl 1; fl 1]]> ∅)))
      by (vm_compute; reflexivity).
    rewrite Heq. intros key v Hk.
    repeat (apply lookup_insert_Some in Hk; destruct Hk as [[_ <-] | [_ Hk]];
            [reflexivity |]).
    rewrite lookup_empty in Hk. discriminate.
  - intros C _ _. split; [split; [reflexivity | repeat constructor] |].
    split; reflexivity.
  - destruct (debias ex_svd_V
                (news_loop ex_model_run (∅, []) (news_dataloader ex_directory)).1
                (news_category ex_directory)) as [[hd rebuilt] | e] eqn:Hd.
    + exists hd, rebuilt. split; [reflexivity |].
      vm_compute in Hd. injection Hd as <- <-. vm_compute. repeat split; reflexivity.
    + vm_compute in Hd. discriminate.
Qed.

(** In floating point a category with one member contributes exactly zero:
    the second category of the sample does not change the matrix. *)
Example construct_c_sample :
  let E : tensor2 PrimFloat.float :=
    Tensor2 3 2 [[fl 1; fl 0]; [fl 3; fl 0]; [fl 0; fl 5]] in
  construct_c E ex_categories
    (compute_category_means E ex_categories (unique ex_categories)) (unique ex_categories)
  = Ok (Tensor2 2 2 [[fl 1; fl 0]; [fl 0; fl 0]])
  /\ construct_c E ex_categories
       (compute_category_means E ex_categories [0%Z]) [0%Z]
     = Ok (Tensor2 2 2 [[fl 1; fl 0]; [fl 0; fl 0]]).
Proof. vm_compute. split; reflexivity. Qed.

(** The whole driver on a stream of three impressions. *)
Example behaviors_loop_sample :
  behaviors_loop ex_model ex_news2vector ex_user2vector sys_maxsize 0 []
    [ex_behavior 1 ["N1-0"; "N2-1"]; ex_behavior 2 ["N2-1"]; ex_behavior 3 ["N3-0"; "N1-1"]]
  = (["1 [2,1]" +:+ newline; "2 [1]" +:+ newline; "3 [1,2]" +:+ newline], None).
Proof. vm_compute. reflexivity. Qed.

(* ================================================================== *)
(** * Part IV: further properties of the code *)
(* ================================================================== *)

(** ** Ranks and scores *)

Section RankOrder.
Variable a : list Q.

Lemma count_if_zero (f : nat -> bool) (l : list nat) (x : nat) :
  count_if f l = 0 -> x ∈ l -> f x = false.
Proof.
  unfold count_if. induction l as [| y l IH]; intros Hc Hx; [inversion Hx |].
  simpl in Hc. destruct (f y) eqn:Hy; [discriminate |].
  apply elem_of_cons in Hx. destruct Hx as [-> | Hx]; [exact Hy | apply IH; assumption].
Qed.

(** X1.  A strictly larger click probability always gets a strictly smaller
    (better) rank. *)
Theorem higher_probability_better_rank (i j : nat) (ri rj : Z) :
  i < length a -> j < length a ->
  (key_at a i < key_at a j)%Q ->
  y_pred_of a !! i = Some ri -> y_pred_of a !! j = Some rj ->
  (rj < ri)%Z.
Proof.
  intros Hi Hj Hlt Hri Hrj.
  eapply (y_pred_of_antitone a i j); try eassumption.
  apply beforeb_spec. left. exact Hlt.
Qed.

(** X2.  Whenever there is a candidate, rank 1 is given, and the candidate
    that gets it has a probability no other candidate exceeds. *)
Theorem rank_one_is_a_maximum :
  0 < length a ->
  exists i, i < length a
    /\ y_pred_of a !! i = Some 1%Z
    /\ forall j, j < length a -> (key_at a j <= key_at a i)%Q.
Proof.
  intros Hn.
  assert (Hin : 1%Z ∈ y_pred_of a).
  { rewrite y_pred_of_perm. apply list_elem_of_fmap. exists 1. split; [reflexivity |].
    apply elem_of_seq. lia. }
  apply list_elem_of_lookup in Hin. destruct Hin as [i Hi].
  assert (Hlt : i < length a).
  { rewrite <- y_pred_of_length. eapply lookup_lt_Some. exact Hi. }
  exists i. split; [exact Hlt |]. split; [exact Hi |].
  intros j Hj. rewrite y_pred_of_lookup in Hi by exact Hlt. injection Hi as Hi.
  assert (Hz : count_greater a i = 0) by lia.
  unfold count_greater in Hz.
  pose proof (count_if_zero _ _ j Hz) as Hf.
  rewrite negb_false_iff in Hf. apply Qle_bool_iff. apply Hf.
  apply elem_of_seq. lia.
Qed.

End RankOrder.

Lemma higher_probability_better_rank_witness :
  (key_at [1 # 10; 8 # 10; 3 # 10] 2 < key_at [1 # 10; 8 # 10; 3 # 10] 1)%Q
  /\ (1 < 2)%Z.
Proof.
  split; [reflexivity |].
  apply (higher_probability_better_rank [1 # 10; 8 # 10; 3 # 10] 2 1 2 1).
  - simpl. lia.
  - simpl. lia.
  - reflexivity.
  - reflexivity.
  - reflexivity.
Defined.

Lemma rank_one_is_a_maximum_witness :
  exists i, i < length [1 # 2; 1 # 2; 9 # 10]
    /\ y_pred_of [1 # 2; 1 # 2; 9 # 10] !! i = Some 1%Z
    /\ forall j, j < length [1 # 2; 1 # 2; 9 # 10] ->
         (key_at [1 # 2; 1 # 2; 9 # 10] j <= key_at [1 # 2; 1 # 2; 9 # 10] i)%Q.
Proof.
  apply (rank_one_is_a_maximum [1 # 2; 1 # 2; 9 # 10]). simpl. lia.
Defined.

(** ** [value2rank] *)

Section Value2Rank.

Lemma insert_desc_perm (x : Q) (s : list Q) : insert_desc x s ≡ₚ x :: s.
Proof.
  induction s as [| y s IH]; simpl; [reflexivity |].
  destruct (Qle_bool y x); [reflexivity |]. rewrite IH. apply perm_swap.
Qed.

Lemma sorted_reverse_perm (values : list Q) : sorted_reverse values ≡ₚ values.
Proof.
  unfold sorted_reverse. induction values as [| x l IH]; simpl; [reflexivity |].
  rewrite insert_desc_perm, IH. reflexivity.
Qed.

Lemma insert_desc_sorted (x : Q) (s : list Q) :
  StronglySorted (fun u v => (v <= u)%Q) s ->
  StronglySorted (fun u v => (v <= u)%Q) (insert_desc x s).
Proof.
  induction 1 as [| y s Hs IH Hy]; simpl.
  - repeat constructor.
  - destruct (Qle_bool y x) eqn:Hle.
    + apply Qle_bool_iff in Hle. constructor; [constructor; assumption |].
      constructor; [exact Hle |].
      eapply Forall_impl; [exact Hy |]. intros z Hz. simpl in Hz. Lqa.lra.
    + apply not_true_iff_false in Hle. rewrite Qle_bool_iff in Hle.
      constructor; [exact IH |]. rewrite insert_desc_perm.
      constructor; [Lqa.lra | exact Hy].
Qed.

Lemma sorted_reverse_sorted (values : list Q) :
  StronglySorted (fun u v => (v <= u)%Q) (sorted_reverse values).
Proof.
  unfold sorted_reverse. induction values as [| x l IH]; simpl.
  - constructor.
  - apply insert_desc_sorted. exact IH.
Qed.

Lemma count_above_perm (l l' : list Q) (x : Q) :
  l ≡ₚ l' -> count_above l x = count_above l' x.
Proof.
  unfold count_above. induction 1 as [| y l l' _ IH | y z l | l l' l'' _ IH1 _ IH2]; simpl.
  - reflexivity.
  - destruct (negb (Qle_bool y x)); simpl; congruence.
  - destruct (negb (Qle_bool y x)), (negb (Qle_bool z x)); reflexivity.
  - congruence.
Qed.

Lemma count_above_none (l : list Q) (x : Q) :
  Forall (fun z => (z <= x)%Q) l -> count_above l x = 0.
Proof.
  unfold count_above. induction 1 as [| z l Hz _ IH]; simpl; [reflexivity |].
  rewrite (proj2 (Qle_bool_iff z x) Hz). simpl. exact IH.
Qed.

(** In a descending list the first position of a value is the number of
    the values above it. *)
Lemma list_index_sorted (l : list Q) (x : Q) :
  StronglySorted (fun u v => (v <= u)%Q) l ->
  Exists (fun w => (w == x)%Q) l ->
  list_index x l = Some (count_above l x).
Proof.
  induction 1 as [| y l Hs IH Hy]; intros Hex; [inversion Hex |].
  simpl. destruct (Qeq_bool y x) eqn:Heq.
  - apply Qeq_bool_iff in Heq. f_equal. symmetry.
    apply (count_above_none (y :: l)). constructor; [Lqa.lra |].
    eapply Forall_impl; [exact Hy |]. intros z Hz. simpl in Hz. Lqa.lra.
  - assert (Hne : ~ (y == x)%Q).
    { intros Hyx. apply Qeq_bool_iff in Hyx. congruence. }
    apply Exists_cons in Hex. destruct Hex as [Hyx | Hex]; [contradiction |].
    rewrite IH by exact Hex. simpl. f_equal.
    assert (Hgt : (x < y)%Q).
    { apply Exists_exists in Hex. destruct Hex as [w [Hw Hwx]].
      rewrite Forall_forall in Hy. specialize (Hy w Hw). simpl in Hy.
      destruct (Q_dec x y) as [[Hlt | Hgt] | He]; [exact Hlt | Lqa.lra |].
      exfalso. apply Hne. symmetry. exact He. }
    unfold count_above. simpl.
    assert (Hb : Qle_bool y x = false).
    { apply not_true_iff_false. rewrite Qle_bool_iff. Lqa.lra. }
    rewrite Hb. reflexivity.
Qed.

Lemma zip_with_items {K} (f : Q -> nat) (d : list (K * Q)) :
  zip_with (fun k r => (k, (Z.of_nat r + 1)%Z)) (map fst d) (map f (map snd d))
  = map (fun kx => (kx.1, (Z.of_nat (f kx.2) + 1)%Z)) d.
Proof.
  induction d as [| [k x] d IH]; [reflexivity |]. simpl. f_equal. exact IH.
Qed.

Lemma value2rank_closed_form {K} (d : list (K * Q)) :
  value2rank d
  = Some (map (fun kx => (kx.1, (Z.of_nat (count_above (map snd d) kx.2) + 1)%Z)) d).
Proof.
  unfold value2rank.
  assert (Hm : mapM (fun x => list_index x (sorted_reverse (map snd d))) (map snd d)
               = Some (map (count_above (map snd d)) (map snd d))).
  { apply mapM_Some. apply Forall2_fmap_r. apply Forall_Forall2_diag.
    apply Forall_forall. intros x Hx. unfold compose.
    rewrite (count_above_perm _ _ x (symmetry (sorted_reverse_perm (map snd d)))).
    apply list_index_sorted; [apply sorted_reverse_sorted |].
    apply Exists_exists. exists x. split; [| reflexivity].
    rewrite sorted_reverse_perm. exact Hx. }
  rewrite Hm. simpl. f_equal. apply zip_with_items.
Qed.

Lemma count_above_Qeq (l : list Q) (x x' : Q) :
  (x == x')%Q -> count_above l x = count_above l x'.
Proof.
  intros Heq. unfold count_above. induction l as [| y l IH]; simpl; [reflexivity |].
  assert (Hb : Qle_bool y x = Qle_bool y x').
  { destruct (Qle_bool y x) eqn:H1, (Qle_bool y x') eqn:H2; try reflexivity.
    - apply Qle_bool_iff in H1. apply not_true_iff_false in H2.
      exfalso. apply H2. apply Qle_bool_iff. Lqa.lra.
    - apply Qle_bool_iff in H2. apply not_true_iff_false in H1.
      exfalso. apply H1. apply Qle_bool_iff. Lqa.lra. }
  rewrite Hb. destruct (negb (Qle_bool y x')); simpl; congruence.
Qed.

Lemma count_above_le (l : list Q) (x x' : Q) :
  (x <= x')%Q -> count_above l x' <= count_above l x.
Proof.
  intros Hle. unfold count_above. induction l as [| y l IH]; simpl; [lia |].
  destruct (Qle_bool y x') eqn:H2; simpl.
  - destruct (negb (Qle_bool y x)); simpl; lia.
  - assert (Hb : Qle_bool y x = false).
    { apply not_true_iff_false. rewrite Qle_bool_iff.
      apply not_true_iff_false in H2. rewrite Qle_bool_iff in H2. Lqa.lra. }
    rewrite Hb. simpl. lia.
Qed.

Lemma count_above_lt (l : list Q) (x x' : Q) :
  (x < x')%Q -> x' ∈ l -> count_above l x' < count_above l x.
Proof.
  intros Hlt. induction l as [| y l IH]; intros Hin; [inversion Hin |].
  pose proof (count_above_le l x x' ltac:(Lqa.lra)) as Hle.
  unfold count_above in *. simpl.
  apply elem_of_cons in Hin. destruct Hin as [<- | Hin].
  - assert (H1 : Qle_bool x' x' = true) by (apply Qle_bool_iff; Lqa.lra).
    assert (H2 : Qle_bool x' x = false).
    { apply not_true_iff_false. rewrite Qle_bool_iff. Lqa.lra. }
    rewrite H1, H2. simpl. lia.
  - specialize (IH Hin).
    destruct (Qle_bool y x') eqn:H2; simpl.
    + destruct (negb (Qle_bool y x)); simpl; lia.
    + assert (Hb : Qle_bool y x = false).
      { apply not_true_iff_false. rewrite Qle_bool_iff.
        apply not_true_iff_false in H2. rewrite Qle_bool_iff in H2. Lqa.lra. }
      rewrite Hb. simpl. lia.
Qed.

Lemma count_above_bound (l : list Q) (x : Q) : x ∈ l -> count_above l x < length l.
Proof.
  unfold count_above. induction l as [| y l IH]; intros Hin; [inversion Hin |].
  simpl. pose proof (filter_length_le (fun y => negb (Qle_bool y x)) l) as Hle.
  apply elem_of_cons in Hin. destruct Hin as [<- | Hin].
  - assert (H1 : Qle_bool x x = true) by (apply Qle_bool_iff; Lqa.lra).
    rewrite H1. simpl. lia.
  - specialize (IH Hin). destruct (negb (Qle_bool y x)); simpl; lia.
Qed.

(** X3.  [value2rank] never raises; it keeps the keys in their order and
    gives every key one plus the number of values of the dict that are
    strictly greater than its own. *)
Theorem value2rank_counts_greater_values {K} (d : list (K * Q)) (i : nat) (k : K) (x : Q) :
  d !! i = Some (k, x) ->
  exists r : list (K * Z),
    value2rank d = Some r
    /\ map fst r = map fst d
    /\ r !! i = Some (k, (Z.of_nat (count_above (map snd d) x) + 1)%Z).
Proof.
  intros Hi. eexists. split; [apply value2rank_closed_form |]. split.
  - rewrite map_map. reflexivity.
  - rewrite list_lookup_fmap, Hi. reflexivity.
Qed.

(** X4.  The ranks of [value2rank] lie between 1 and the size of the dict;
    equal values share a rank, and a strictly greater value has a strictly
    smaller rank. *)
Theorem value2rank_orders_values {K} (d : list (K * Q)) (r : list (K * Z))
    (i j : nat) (k k' : K) (x x' : Q) (ri rj : Z) :
  value2rank d = Some r ->
  d !! i = Some (k, x) -> d !! j = Some (k', x') ->
  r !! i = Some (k, ri) -> r !! j = Some (k', rj) ->
  (1 <= ri <= Z.of_nat (length d))%Z
  /\ ((x == x')%Q -> ri = rj)
  /\ ((x < x')%Q -> (rj < ri)%Z).
Proof.
  rewrite value2rank_closed_form. intros Hr Hi Hj Hri Hrj. injection Hr as <-.
  rewrite list_lookup_fmap, Hi in Hri. rewrite list_lookup_fmap, Hj in Hrj.
  simpl in Hri, Hrj. injection Hri as <-. injection Hrj as <-.
  assert (Hx : x ∈ map snd d).
  { apply list_elem_of_fmap. exists (k, x). split; [reflexivity |].
    eapply list_elem_of_lookup_2. exact Hi. }
  assert (Hx' : x' ∈ map snd d).
  { apply list_elem_of_fmap. exists (k', x'). split; [reflexivity |].
    eapply list_elem_of_lookup_2. exact Hj. }
  split; [| split].
  - pose proof (count_above_bound _ _ Hx) as Hb. rewrite length_map in Hb. lia.
  - intros Heq. rewrite (count_above_Qeq _ x x' Heq). reflexivity.
  - intros Hlt. pose proof (count_above_lt _ x x' Hlt Hx'). lia.
Qed.

End Value2Rank.

Lemma value2rank_counts_greater_values_witness :
  exists r : list (string * Z),
    value2rank [("a", 1 # 2); ("b", 9 # 10); ("c", 1 # 2)] = Some r
    /\ map fst r = map fst [("a", 1 # 2); ("b", 9 # 10); ("c", 1 # 2)]
    /\ r !! 2 = Some ("c", (Z.of_nat (count_above
                              (map snd [("a", 1 # 2); ("b", 9 # 10); ("c", 1 # 2)])
                              (1 # 2)) + 1)%Z).
Proof.
  apply (value2rank_counts_greater_values
           [("a", 1 # 2); ("b", 9 # 10); ("c", 1 # 2)] 2 "c" (1 # 2)).
  reflexivity.
Defined.

Lemma value2rank_orders_values_witness :
  (1 <= 2 <= Z.of_nat (length [("a", 1 # 2); ("b", 9 # 10); ("c", 1 # 2)]))%Z
  /\ ((1 # 2 == 9 # 10)%Q -> 2%Z = 1%Z)
  /\ ((1 # 2 < 9 # 10)%Q -> (1 < 2)%Z).
Proof.
  apply (value2rank_orders_values [("a", 1 # 2); ("b", 9 # 10); ("c", 1 # 2)]
           [("a", 2%Z); ("b", 1%Z); ("c", 2%Z)] 0 1 "a" "b" (1 # 2) (9 # 10) 2 1);
    reflexivity.
Defined.

(** ** Impression tokens *)

Section Tokens.

Lemma split_head_no_sep (sep : Ascii.ascii) (s : string) :
  has_char sep (split_head sep s) = false.
Proof.
  induction s as [| c s IH]; simpl; [reflexivity |].
  destruct (Ascii.eqb c sep) eqn:Hc; simpl; [reflexivity |].
  rewrite Hc. exact IH.
Qed.

Lemma split_head_id (sep : Ascii.ascii) (s : string) :
  has_char sep s = false -> split_head sep s = s.
Proof.
  induction s as [| c s IH]; simpl; [reflexivity |].
  intros Hc. apply orb_false_iff in Hc. destruct Hc as [Hc Hs].
  rewrite Hc. f_equal. apply IH. exact Hs.
Qed.

Lemma split_head_append (sep : Ascii.ascii) (s rest : string) :
  has_char sep s = false -> split_head sep (s +:+ String sep rest) = s.
Proof.
  induction s as [| c s IH]; simpl.
  - intros _. rewrite Ascii.eqb_refl. reflexivity.
  - intros Hc. apply orb_false_iff in Hc. destruct Hc as [Hc Hs].
    rewrite Hc. f_equal. apply IH. exact Hs.
Qed.

(** X5.  An impression token [id-label] is read as [id] when the id has no
    dash, whatever the label; a token without a dash is read whole; and
    what is read never contains a dash (an id with a dash is cut at it). *)
Theorem split_head_reads_the_id (news_id label token : string) :
  has_char dash news_id = false ->
  split_head dash (news_id +:+ String dash label) = news_id
  /\ split_head dash news_id = news_id
  /\ has_char dash (split_head dash token) = false.
Proof.
  intros Hid. split; [apply split_head_append; exact Hid |].
  split; [apply split_head_id; exact Hid | apply split_head_no_sep].
Qed.

End Tokens.

Lemma split_head_reads_the_id_witness :
  split_head dash ("N12345" +:+ String dash "1") = "N12345"
  /\ split_head dash "N12345" = "N12345"
  /\ has_char dash (split_head dash "N1-2-3") = false.
Proof.
  apply (split_head_reads_the_id "N12345" "1" "N1-2-3"). reflexivity.
Defined.

Section Labels.
Context {F : Type} `{Scalar F} {news_attrs : Type}.
Implicit Types (m : model F news_attrs) (d u : gmap string (vec F)).

Lemma mapM_fmap_result {A B C} (f : B -> result C) (g : A -> B) (l : list A) :
  mapM (fun x => f (g x)) l = mapM f (map g l).
Proof.
  induction l as [| x l IH]; [reflexivity |].
  cbn [map]. rewrite !mapM_cons, IH. reflexivity.
Qed.

(** X6.  The line written for an impression depends on its tokens only
    through their news ids: the click labels after the dash are never
    read. *)
Theorem rank_impression_ignores_labels m d u (b1 b2 : behavior) :
  map (split_head dash) (impressions b1) = map (split_head dash) (impressions b2) ->
  impression_id b1 = impression_id b2 ->
  clicked_news_string b1 = clicked_news_string b2 ->
  rank_impression m d u b1 = rank_impression m d u b2.
Proof.
  intros Hids Hid Hs. unfold rank_impression.
  rewrite (mapM_fmap_result (getitem d) (split_head dash) (impressions b1)).
  rewrite (mapM_fmap_result (getitem d) (split_head dash) (impressions b2)).
  rewrite Hids, Hid, Hs. reflexivity.
Qed.

End Labels.

Lemma rank_impression_ignores_labels_witness :
  rank_impression ex_model ex_news2vector ex_user2vector
    (ex_behavior 5 ["N1-0"; "N2-1"; "N3-0"])
  = rank_impression ex_model ex_news2vector ex_user2vector
      (ex_behavior 5 ["N1-1"; "N2-0"; "N3-1"]).
Proof.
  apply (rank_impression_ignores_labels ex_model ex_news2vector ex_user2vector
           (ex_behavior 5 ["N1-0"; "N2-1"; "N3-0"])
           (ex_behavior 5 ["N1-1"; "N2-0"; "N3-1"])); reflexivity.
Defined.

(** ** [UserDataset.__getitem__] *)

Section UserItems.

Lemma py_split_all_space (s : string) : all_space s = true -> py_split s = [].
Proof.
  induction s as [| c s IH]; [reflexivity |].
  cbn [all_space py_split]. intros Hs. apply andb_true_iff in Hs.
  destruct Hs as [Hc Hs]. rewrite Hc. apply IH. exact Hs.
Qed.

Lemma py_split_tokens (s : string) :
  Forall (fun t => t <> EmptyString /\ has_space t = false) (py_split s).
Proof.
  induction s as [| c s IH]; [constructor |].
  cbn [py_split]. destruct (is_space c) eqn:Hc; [exact IH |].
  assert (Hone : Forall (fun t => t <> EmptyString /\ has_space t = false)
                        [String c EmptyString]).
  { constructor; [| constructor]. split; [discriminate |]. simpl. rewrite Hc. reflexivity. }
  destruct s as [| c' s']; [exact Hone |].
  destruct (is_space c') eqn:Hc'.
  - inversion Hone; subst. constructor; assumption.
  - destruct (py_split (String c' s')) as [| t ts]; [exact Hone |].
    inversion IH as [| ? ? [Ht1 Ht2] Hts]; subst.
    constructor; [| exact Hts]. split; [discriminate |].
    simpl. rewrite Hc. exact Ht2.
Qed.

Lemma length_slice_to {A} (n : Z) (l : list A) :
  (0 <= n)%Z -> length (slice_to n l) = Nat.min (Z.to_nat n) (length l).
Proof.
  intros Hn. unfold slice_to. rewrite (proj2 (Z.leb_le 0 n) Hn). apply length_take.
Qed.

(** X7.  For a history length [num_clicked_news_a_user] that is not negative
    and a history string of ASCII characters the assertion of
    [__getitem__] always passes: the history is cut to its first
    [num_clicked_news_a_user] ids and padded on the left with
    ['PADDED_NEWS'] to exactly that length, and [clicked_news_length] is the
    number of ids kept. *)
Theorem user_getitem_pads_to_length (num_clicked_news_a_user row_user : Z)
    (row_clicked_news : string) :
  (0 <= num_clicked_news_a_user)%Z ->
  all_ascii row_clicked_news = true ->
  exists item,
    user_getitem num_clicked_news_a_user row_user row_clicked_news = Passed item
    /\ length (item_clicked_news item) = Z.to_nat num_clicked_news_a_user
    /\ item_clicked_news_length item
       = Nat.min (Z.to_nat num_clicked_news_a_user) (length (py_split row_clicked_news))
    /\ item_clicked_news item
       = replicate (Z.to_nat num_clicked_news_a_user - item_clicked_news_length item)
                   "PADDED_NEWS"
         ++ take (Z.to_nat num_clicked_news_a_user) (py_split row_clicked_news)
    /\ Forall (fun t => t = "PADDED_NEWS" \/ (t <> EmptyString /\ has_space t = false))
              (item_clicked_news item).
Proof.
  intros Hn _. unfold user_getitem.
  pose proof (length_slice_to num_clicked_news_a_user (py_split row_clicked_news) Hn) as Hlen.
  rewrite (proj2 (Z.leb_le 0 _)) by lia.
  eexists. split; [reflexivity |]. cbn [item_clicked_news item_clicked_news_length].
  split; [rewrite length_app, length_replicate; lia |].
  split; [exact Hlen |]. split.
  - f_equal; [f_equal; lia |]. unfold slice_to.
    rewrite (proj2 (Z.leb_le 0 _) Hn). reflexivity.
  - apply Forall_app. split.
    + apply Forall_forall. intros t Ht. apply elem_of_replicate in Ht. left. tauto.
    + unfold slice_to. rewrite (proj2 (Z.leb_le 0 _) Hn).
      apply Forall_take. eapply Forall_impl; [apply py_split_tokens |].
      intros t Ht. right. exact Ht.
Qed.

(** X8.  The assertion [repeated_times >= 0] of [__getitem__] passes for
    every row when [num_clicked_news_a_user] is not negative and fails for
    every row when it is negative. *)
Theorem user_getitem_asserts_iff_negative (num_clicked_news_a_user row_user : Z)
    (row_clicked_news : string) :
  user_getitem num_clicked_news_a_user row_user row_clicked_news = AssertionError
  <-> (num_clicked_news_a_user < 0)%Z.
Proof.
  unfold user_getitem. split.
  - intros Hres.
    destruct (0 <=? num_clicked_news_a_user
                    - Z.of_nat (length (slice_to num_clicked_news_a_user
                                          (py_split row_clicked_news))))%Z eqn:Hle;
      [discriminate |].
    apply Z.leb_gt in Hle.
    destruct (Z.lt_ge_cases num_clicked_news_a_user 0) as [Hneg | Hpos]; [exact Hneg |].
    pose proof (length_slice_to num_clicked_news_a_user (py_split row_clicked_news) Hpos).
    lia.
  - intros Hn. rewrite (proj2 (Z.leb_gt 0 _)) by lia. reflexivity.
Qed.

(** X9.  A history made of white space only, such as the [' '] that replaces
    a missing history, gives an item whose history is all padding and
    whose [clicked_news_length] is 0. *)
Theorem user_getitem_blank_history (num_clicked_news_a_user row_user : Z)
    (row_clicked_news : string) :
  (0 <= num_clicked_news_a_user)%Z ->
  all_space row_clicked_news = true ->
  user_getitem num_clicked_news_a_user row_user row_clicked_news
  = Passed {| item_user := row_user;
              item_clicked_news_string := row_clicked_news;
              item_clicked_news :=
                replicate (Z.to_nat num_clicked_news_a_user) "PADDED_NEWS";
              item_clicked_news_length := 0 |}.
Proof.
  intros Hn Hs. unfold user_getitem. rewrite (py_split_all_space _ Hs).
  assert (Hnil : slice_to num_clicked_news_a_user ([] : list string) = []).
  { unfold slice_to. destruct (0 <=? num_clicked_news_a_user)%Z; apply take_nil. }
  rewrite Hnil. cbn [length]. rewrite (proj2 (Z.leb_le 0 _)) by lia.
  rewrite app_nil_r. do 3 f_equal. lia.
Qed.

End UserItems.

Lemma user_getitem_pads_to_length_witness :
  exists item,
    user_getitem 3 7 "N1 N2" = Passed item
    /\ length (item_clicked_news item) = Z.to_nat 3
    /\ item_clicked_news_length item = Nat.min (Z.to_nat 3) (length (py_split "N1 N2"))
    /\ item_clicked_news item
       = replicate (Z.to_nat 3 - item_clicked_news_length item) "PADDED_NEWS"
         ++ take (Z.to_nat 3) (py_split "N1 N2")
    /\ Forall (fun t => t = "PADDED_NEWS" \/ (t <> EmptyString /\ has_space t = false))
              (item_clicked_news item).
Proof. apply (user_getitem_pads_to_length 3 7 "N1 N2"); [lia | reflexivity]. Defined.

Lemma user_getitem_blank_history_witness :
  user_getitem 2 7 " "
  = Passed {| item_user := 7;
              item_clicked_news_string := " ";
              item_clicked_news := replicate (Z.to_nat 2) "PADDED_NEWS";
              item_clicked_news_length := 0 |}.
Proof. apply (user_getitem_blank_history 2 7 " "); [lia | reflexivity]. Defined.

Example user_getitem_sample :
  user_getitem 3 7 "N1 N2"
  = Passed (UserItem 7 "N1 N2" ["PADDED_NEWS"; "N1"; "N2"] 2)
  /\ user_getitem 2 7 "  N1  N2 N3 "
     = Passed (UserItem 7 "  N1  N2 N3 " ["N1"; "N2"] 2).
Proof. split; vm_compute; reflexivity. Qed.

(** ** The news dictionary *)

Section NewsStore.
Context {F : Type} `{Scalar F} {news_attrs : Type}.
Implicit Types (m : model F news_attrs) (d : gmap string (vec F)).

Lemma insert_missing_dom {V} (kvs : list (string * V)) (d : gmap string V) (k : string) :
  is_Some (insert_missing kvs d !! k) <-> is_Some (d !! k) \/ k ∈ kvs.*1.
Proof.
  unfold insert_missing. revert d.
  induction kvs as [| kv kvs IH]; intros d; cbn [foldl fmap list_fmap].
  - rewrite elem_of_nil. tauto.
  - rewrite IH, elem_of_cons. destruct (d !! kv.1) eqn:Hkv.
    + split; [tauto |]. intros [Hd | [-> | Hin]]; [tauto | | tauto].
      left. rewrite Hkv. eauto.
    + destruct (decide (k = kv.1)) as [-> | Hne].
      * rewrite lookup_insert_eq. split; [tauto |]. intros _. left. eauto.
      * rewrite lookup_insert_ne by congruence. tauto.
Qed.

Lemma insert_missing_first {V} (ids : list string) (vs : list V) (d : gmap string V)
    (k : string) (p : nat) (v : V) :
  d !! k = None ->
  ids !! p = Some k -> (forall q, q < p -> ids !! q <> Some k) ->
  vs !! p = Some v ->
  insert_missing (zip ids vs) d !! k = Some v.
Proof.
  revert ids vs d. induction p as [| p IH]; intros ids vs d Hd Hp Hfirst Hv.
  - destruct ids as [| k0 ids]; [discriminate |]. destruct vs as [| v0 vs]; [discriminate |].
    simpl in Hp, Hv. injection Hp as ->. injection Hv as ->.
    unfold insert_missing. cbn [zip zip_with foldl fst snd]. rewrite Hd.
    apply (insert_missing_keeps (zip ids vs)). apply lookup_insert_eq.
  - destruct ids as [| k0 ids]; [discriminate |]. destruct vs as [| v0 vs]; [discriminate |].
    simpl in Hp, Hv.
    assert (Hne : k0 <> k).
    { intros ->. apply (Hfirst 0); [lia | reflexivity]. }
    unfold insert_missing. cbn [zip zip_with foldl fst snd].
    apply (IH ids vs); [| exact Hp | | exact Hv].
    + destruct (d !! k0); [exact Hd |]. rewrite lookup_insert_ne by exact Hne. exact Hd.
    + intros q Hq. apply (Hfirst (S q)). lia.
Qed.

Lemma any_missing_false {V} (d : gmap string V) (ks : list string) (k : string) :
  any_missing d ks = false -> k ∈ ks -> is_Some (d !! k).
Proof.
  unfold any_missing. intros Hany Hk.
  destruct (d !! k) eqn:Hd; [eauto |]. exfalso.
  apply not_true_iff_false in Hany. apply Hany. apply existsb_exists.
  exists k. split; [apply list_elem_of_In; exact Hk |].
  apply bool_decide_eq_true. exact Hd.
Qed.

Lemma any_missing_true {V} (d : gmap string V) (ks : list string) (k : string) :
  k ∈ ks -> d !! k = None -> any_missing d ks = true.
Proof.
  intros Hk Hd. unfold any_missing. apply existsb_exists.
  exists k. split; [apply list_elem_of_In; exact Hk |].
  apply bool_decide_eq_true. exact Hd.
Qed.

Lemma news_step_dom_sound m st (b : list (news_item news_attrs)) (k : string) :
  is_Some ((news_step m st b).1 !! k) -> is_Some (st.1 !! k) \/ k ∈ map id b.
Proof.
  unfold news_step. destruct (any_missing st.1 (map id b)); [| tauto].
  cbn [fst]. rewrite insert_missing_dom. intros [Hd | Hin]; [tauto |].
  right. apply list_elem_of_fmap in Hin. destruct Hin as [[k' v] [-> Hin]].
  apply elem_of_zip_l in Hin. exact Hin.
Qed.

Lemma news_step_dom_complete m st (b : list (news_item news_attrs)) (k : string) :
  length (get_news_vector m b) = length b ->
  k ∈ map id b -> is_Some ((news_step m st b).1 !! k).
Proof.
  intros Hlen Hk. unfold news_step.
  destruct (any_missing st.1 (map id b)) eqn:Hany.
  - cbn [fst]. apply insert_missing_dom. right.
    rewrite fst_zip; [exact Hk |]. rewrite length_map. lia.
  - eapply any_missing_false; eassumption.
Qed.

Lemma news_step_is_Some m st (b : list (news_item news_attrs)) (k : string) :
  is_Some (st.1 !! k) -> is_Some ((news_step m st b).1 !! k).
Proof. intros [v Hv]. exists v. apply news_step_keeps. exact Hv. Qed.

Lemma news_loop_dom_sound m (batches : list (list (news_item news_attrs))) :
  forall st k, is_Some ((news_loop m st batches).1 !! k) ->
               is_Some (st.1 !! k) \/ k ∈ batch_ids batches.
Proof.
  unfold news_loop, batch_ids.
  induction batches as [| b batches IH]; intros st k Hk; cbn [foldl] in *; [tauto |].
  cbn [map concat]. rewrite elem_of_app.
  destruct (IH _ _ Hk) as [Hs | Hin]; [| tauto].
  destruct (news_step_dom_sound m st b k Hs); tauto.
Qed.

(** X10.  When the encoder returns one vector per item, the keys of
    [news2vector] after the loop are exactly the keys it had before
    together with the ids of all the items of all the minibatches. *)
Theorem news_loop_keys m (batches : list (list (news_item news_attrs)))
    (st : gmap string (vec F) * list (list (news_item news_attrs))) (k : string) :
  (forall b, length (get_news_vector m b) = length b) ->
  is_Some ((news_loop m st batches).1 !! k)
  <-> is_Some (st.1 !! k) \/ k ∈ batch_ids batches.
Proof.
  intros Hcontract. split; [apply news_loop_dom_sound |].
  unfold news_loop, batch_ids. revert st.
  induction batches as [| b batches IH]; intros st; cbn [foldl map concat].
  - rewrite elem_of_nil. tauto.
  - rewrite elem_of_app. intros [Hs | [Hb | Hrest]].
    + apply IH. left. apply news_step_is_Some. exact Hs.
    + apply IH. left. apply news_step_dom_complete; [apply Hcontract | exact Hb].
    + apply IH. right. exact Hrest.
Qed.

(** X11.  The vector kept for a news id is the one the encoder returned for
    the first item with that id in the first minibatch that contains it;
    later items and minibatches with the same id do not change it. *)
Theorem news_loop_first_encoding_wins m
    (st : gmap string (vec F) * list (list (news_item news_attrs)))
    (pre : list (list (news_item news_attrs))) (b : list (news_item news_attrs))
    (post : list (list (news_item news_attrs))) (k : string) (p : nat) (v : vec F) :
  st.1 !! k = None ->
  k ∉ batch_ids pre ->
  map id b !! p = Some k ->
  (forall q, q < p -> map id b !! q <> Some k) ->
  get_news_vector m b !! p = Some v ->
  (news_loop m st (pre ++ b :: post)).1 !! k = Some v.
Proof.
  intros Hst Hpre Hp Hfirst Hv. unfold news_loop.
  rewrite foldl_app. cbn [foldl].
  apply (news_loop_keeps m _ post).
  fold (news_loop m st pre).
  assert (Hnone : (news_loop m st pre).1 !! k = None).
  { destruct ((news_loop m st pre).1 !! k) eqn:Hk; [| reflexivity]. exfalso.
    destruct (news_loop_dom_sound m pre st k ltac:(rewrite Hk; eauto)) as [[w Hw] | Hin].
    - congruence.
    - contradiction. }
  unfold news_step.
  rewrite (any_missing_true _ (map id b) k); [| | exact Hnone].
  - cbn [fst]. apply (insert_missing_first (map id b) _ _ k p v); assumption.
  - eapply list_elem_of_lookup_2. exact Hp.
Qed.

End NewsStore.

Lemma news_loop_keys_witness :
  is_Some ((news_loop ex_model (∅, []) [[ex_item "N1"; ex_item "N2"]; [ex_item "N3"]]).1
             !! "N3")
  <-> is_Some ((∅ : gmap string (vec PrimFloat.float)) !! "N3")
      \/ "N3" ∈ batch_ids [[ex_item "N1"; ex_item "N2"]; [ex_item "N3"]].
Proof.
  apply (news_loop_keys ex_model [[ex_item "N1"; ex_item "N2"]; [ex_item "N3"]]
           (∅, []) "N3").
  intros b. simpl. apply length_map.
Defined.

Lemma news_loop_first_encoding_wins_witness :
  (news_loop ex_model_run (∅, [])
     ([[ex_item "N3"]] ++ [ex_item "N1"; ex_item "N2"; ex_item "N1"] :: [[ex_item "N2"]])).1
    !! "N2"
  = Some [fl 1; fl 2; PrimFloat.opp (fl 2)].
Proof.
  apply (news_loop_first_encoding_wins ex_model_run (∅, []) [[ex_item "N3"]]
           [ex_item "N1"; ex_item "N2"; ex_item "N1"] [[ex_item "N2"]] "N2" 1).
  - reflexivity.
  - vm_compute. intros Hin. apply list_elem_of_singleton in Hin. discriminate.
  - reflexivity.
  - intros q Hq. assert (q = 0) as -> by lia. simpl. discriminate.
  - reflexivity.
Defined.

(** ** The user dictionary and the debiased store *)

Section Phases.
Context {F : Type} `{Scalar F} {news_attrs : Type}.
Implicit Types (m : model F news_attrs) (d u : gmap string (vec F)).

Lemma foldlM_app {A B} (f : A -> B -> result A) (l l' : list B) (a : A) :
  foldlM f a (l ++ l') = (a' ← foldlM f a l; foldlM f a' l').
Proof.
  revert a. induction l as [| x l IH]; intros a; [reflexivity |].
  cbn [app foldlM]. destruct (f a x) as [a1 | e]; [| reflexivity].
  apply IH.
Qed.

Lemma stacks_missing d (lists : list (list string)) (news_list : list string) (x : string) :
  Forall (fun l => l <> []) lists ->
  news_list ∈ lists -> x ∈ news_list -> d !! x = None ->
  exists key, d !! key = None
    /\ mapM (fun news_list => vs ← mapM (getitem d) news_list; stack_list vs) lists
       = Err (KeyError key).
Proof.
  induction 1 as [| l lists Hl _ IH]; intros Hin Hx Hnone; [inversion Hin |].
  rewrite mapM_cons.
  destruct (mapM (getitem d) l) as [vs | e] eqn:Hvs.
  - assert (Hne : vs <> []).
    { apply mapM_ok_Forall2 in Hvs. apply Forall2_length in Hvs.
      destruct vs; [| discriminate]. destruct l; [contradiction | discriminate]. }
    assert (Hst : stack_list vs = Ok vs) by (destruct vs; [contradiction | reflexivity]).
    apply elem_of_cons in Hin. destruct Hin as [-> | Hin].
    + exfalso.
      destruct (mapM_getitem_missing d (fun s => s) l x Hx Hnone) as [key [_ Herr]].
      change (mapM (getitem d) l = Err (KeyError key)) in Herr. congruence.
    + destruct (IH Hin Hx Hnone) as [key [Hkey Herr]].
      exists key. split; [exact Hkey |].
      rewrite Herr. unfold mbind, result_bind. rewrite Hst. reflexivity.
  - assert (Hex : exists y, y ∈ l /\ d !! y = None /\ e = KeyError y).
    { clear -Hvs. revert e Hvs. induction l as [| y l IHl]; intros e Hvs; [discriminate |].
      rewrite mapM_cons in Hvs. unfold mbind, result_bind in Hvs.
      destruct (getitem d y) as [v | e0] eqn:Hg.
      - destruct (mapM (getitem d) l) as [k | e'] eqn:Hl; [discriminate |].
        injection Hvs as <-. destruct (IHl e' eq_refl) as [z [Hz [Hn He]]].
        exists z. split; [right; exact Hz | split; assumption].
      - injection Hvs as <-. unfold getitem in Hg.
        destruct (d !! y) eqn:Hy; [discriminate |]. injection Hg as <-.
        exists y. split; [left | split; [exact Hy | reflexivity]]. }
    destruct Hex as [y [_ [Hy ->]]]. exists y. split; [exact Hy | reflexivity].
Qed.

(** X12.  When a minibatch of users needs encoding and one of its history
    entries has no vector in [news2vector], the lookup raises [KeyError]
    and the run ends before [prediction.txt] is written to. *)
Theorem missing_history_id_aborts_run m d
    (st0 st : gmap string (vec F) * list (list string))
    (pre : list user_minibatch) (minibatch : user_minibatch) (rest : list user_minibatch)
    (news_list : list string) (x : string) :
  user_loop m d st0 pre = Ok st ->
  any_missing st.1 (mb_clicked_news_string minibatch) = true ->
  Forall (fun l => l <> []) (mb_clicked_news minibatch) ->
  news_list ∈ mb_clicked_news minibatch -> x ∈ news_list -> d !! x = None ->
  exists key,
    d !! key = None
    /\ user_loop m d st0 (pre ++ minibatch :: rest) = Err (KeyError key)
    /\ (forall svd_V directory h max_count,
          st0 = (∅, []) ->
          debias svd_V (news_loop m (∅, []) (news_dataloader directory)).1
                 (news_category directory) = Ok (h, d) ->
          user_dataloader directory = pre ++ minibatch :: rest ->
          evaluate m svd_V directory max_count = ([], Some (KeyError key))).
Proof.
  intros Hpre Hany Hne Hin Hx Hnone.
  destruct (stacks_missing d _ news_list x Hne Hin Hx Hnone) as [key [Hkey Herr]].
  assert (Hloop : user_loop m d st0 (pre ++ minibatch :: rest) = Err (KeyError key)).
  { assert (Hstep : user_step m d st minibatch = Err (KeyError key)).
    { unfold user_step. rewrite Hany, Herr. reflexivity. }
    unfold user_loop in *. rewrite foldlM_app, Hpre.
    unfold mbind at 1, result_bind at 1. cbn [foldlM].
    rewrite Hstep. reflexivity. }
  exists key. split; [exact Hkey |]. split; [exact Hloop |].
  intros svd_V directory h max_count -> Hd Hu.
  unfold evaluate. rewrite Hd, Hu, Hloop. reflexivity.
Qed.


Lemma remove_component_shape (v : vec F) (E : tensor2 F) :
  shape0 (remove_component v E) = shape0 E /\ shape1 (remove_component v E) = shape1 E
  /\ length (rows (remove_component v E)) = length (rows E).
Proof.
  unfold remove_component. cbn [shape0 shape1 rows].
  split; [reflexivity |]. split; [reflexivity |].
  rewrite length_zip_with, length_map. lia.
Qed.

Lemma remove_projections_shape (B E : tensor2 F) :
  shape0 (remove_projections B E) = shape0 E /\ shape1 (remove_projections B E) = shape1 E
  /\ length (rows (remove_projections B E)) = length (rows E).
Proof.
  unfold remove_projections. generalize (seq 0 (shape1 B)) as js. intros js. revert E.
  induction js as [| j js IH]; intros E; cbn [foldl]; [tauto |].
  destruct (IH (remove_component (column B j) E)) as [H0 [H1 H2]].
  destruct (remove_component_shape (column B j) E) as [G0 [G1 G2]].
  rewrite H0, H1, H2. tauto.
Qed.




(** X14.  A news id of the category table without a vector in [news2vector]
    makes [debias] raise [KeyError], and [evaluate] then ends with that
    exception and nothing written. *)
Theorem debias_rejects_unknown_id (svd_V : tensor2 F -> tensor2 F)
    (news2vector : gmap string (vec F)) (table : list (string * Z)) (k : string) :
  k ∈ map fst table -> news2vector !! k = None ->
  exists key,
    news2vector !! key = None
    /\ debias svd_V news2vector table = Err (KeyError key)
    /\ (forall m (directory : inputs news_attrs) max_count,
          (news_loop m (∅, []) (news_dataloader directory)).1 = news2vector ->
          news_category directory = table ->
          evaluate m svd_V directory max_count = ([], Some (KeyError key))).
Proof.
  intros Hin Hnone.
  destruct (mapM_getitem_missing news2vector (fun s => s) _ k Hin Hnone) as [key [Hkey Herr]].
  change (mapM (getitem news2vector) (map fst table) = Err (KeyError key)) in Herr.
  assert (Hd : debias svd_V news2vector table = Err (KeyError key)).
  { unfold debias. rewrite Herr. reflexivity. }
  exists key. split; [exact Hkey |]. split; [exact Hd |].
  intros m directory max_count Hstore Htable.
  unfold evaluate. rewrite Hstore, Htable, Hd. reflexivity.
Qed.

(** X15.  With an empty news table there is nothing to stack: [evaluate]
    ends with the [RuntimeError] of [torch.stack] and writes nothing,
    whatever the other inputs are. *)
Theorem evaluate_empty_news_table m (svd_V : tensor2 F -> tensor2 F)
    (directory : inputs news_attrs) (max_count : Z) :
  news_category directory = [] ->
  evaluate m svd_V directory max_count
  = ([], Some (RuntimeError "stack expects a non-empty TensorList")).
Proof. intros Htable. unfold evaluate. rewrite Htable. reflexivity. Qed.

End Phases.

Lemma missing_history_id_aborts_run_witness :
  exists key,
    ex_news2vector !! key = None
    /\ user_loop ex_model ex_news2vector (∅, [])
         ([] ++ UserMinibatch ["N1 N9"] [["N1"]; ["N9"]] :: [])
       = Err (KeyError key)
    /\ (forall svd_V directory h max_count,
          ((∅, []) : gmap string (vec PrimFloat.float) * list (list string)) = (∅, []) ->
          debias svd_V (news_loop ex_model (∅, []) (news_dataloader directory)).1
                 (news_category directory) = Ok (h, ex_news2vector) ->
          user_dataloader directory
          = [] ++ UserMinibatch ["N1 N9"] [["N1"]; ["N9"]] :: [] ->
          evaluate ex_model svd_V directory max_count = ([], Some (KeyError key))).
Proof.
  apply (missing_history_id_aborts_run ex_model ex_news2vector (∅, []) (∅, []) []
           (UserMinibatch ["N1 N9"] [["N1"]; ["N9"]]) [] ["N9"] "N9").
  - reflexivity.
  - reflexivity.
  - repeat constructor; discriminate.
  - right. left.
  - left.
  - reflexivity.
Defined.


Lemma debias_rejects_unknown_id_witness :
  exists key,
    ex_news2vector !! key = None
    /\ debias ex_svd_V ex_news2vector [("N1", 0%Z); ("N7", 0%Z)] = Err (KeyError key)
    /\ (forall (m : model PrimFloat.float unit) (directory : inputs unit) max_count,
          (news_loop m (∅, []) (news_dataloader directory)).1 = ex_news2vector ->
          news_category directory = [("N1", 0%Z); ("N7", 0%Z)] ->
          evaluate m ex_svd_V directory max_count = ([], Some (KeyError key))).
Proof.
  apply (debias_rejects_unknown_id ex_svd_V ex_news2vector
           [("N1", 0%Z); ("N7", 0%Z)] "N7").
  - right. left.
  - reflexivity.
Defined.

Lemma evaluate_empty_news_table_witness :
  evaluate ex_model ex_svd_V
    {| news_dataloader := []; news_category := [];
       user_dataloader := []; behaviors_dataloader := [ex_behavior 1 ["N1-0"]] |}
    sys_maxsize
  = ([], Some (RuntimeError "stack expects a non-empty TensorList")).
Proof.
  apply (evaluate_empty_news_table ex_model ex_svd_V
           {| news_dataloader := []; news_category := [];
              user_dataloader := []; behaviors_dataloader := [ex_behavior 1 ["N1-0"]] |}
           sys_maxsize).
  reflexivity.
Defined.

(** ** Whole runs *)

Section Runs.
Context {F : Type} `{Scalar F} {news_attrs : Type}.
Implicit Types (m : model F news_attrs) (d u : gmap string (vec F)).

Lemma behaviors_loop_complete m d u (max_count : Z) (bs : list behavior) :
  forall (count : Z) (out0 out : list string),
    behaviors_loop m d u max_count count out0 bs = (out, None) ->
    (max_count <= count \/ count + Z.of_nat (length bs) < max_count)%Z ->
    exists ls, out = out0 ++ ls
               /\ Forall2 (fun b l => rank_impression m d u b = Ok l) bs ls.
Proof.
  induction bs as [| b bs IH]; intros count out0 out Hloop Hcount.
  - simpl in Hloop. injection Hloop as <-. exists []. rewrite app_nil_r.
    split; [reflexivity | constructor].
  - cbn [behaviors_loop] in Hloop.
    rewrite (proj2 (Z.eqb_neq _ _)) in Hloop by (simpl in Hcount; lia).
    destruct (rank_impression m d u b) as [line | e] eqn:Hb; [| discriminate].
    destruct (IH _ _ _ Hloop ltac:(simpl in Hcount; lia)) as [ls [-> Hls]].
    exists (line :: ls). rewrite <- app_assoc. split; [reflexivity |].
    constructor; assumption.
Qed.

(** X16.  When [evaluate] ends without an exception and [max_count] is not
    positive or exceeds the number of impressions, [prediction.txt] holds
    exactly one line per impression, in the order of the impressions, each
    the line of its own impression and beginning with its impression id. *)
Theorem evaluate_writes_one_line_per_impression m (svd_V : tensor2 F -> tensor2 F)
    (directory : inputs news_attrs) (max_count : Z) (out : list string) :
  evaluate m svd_V directory max_count = (out, None) ->
  (max_count <= 0 \/ Z.of_nat (length (behaviors_dataloader directory)) < max_count)%Z ->
  length out = length (behaviors_dataloader directory)
  /\ exists d u,
       Forall2 (fun b line =>
                  rank_impression m d u b = Ok line
                  /\ exists y_pred, line = format_line (impression_id b) y_pred)
               (behaviors_dataloader directory) out.
Proof.
  unfold evaluate. intros Hev Hcount.
  destruct (debias _ _ _) as [[h d] | e]; [| discriminate].
  destruct (user_loop _ _ _ _) as [[u calls] | e]; [| discriminate].
  destruct (behaviors_loop_complete m d u max_count _ 0 [] out Hev ltac:(lia))
    as [ls [-> Hls]].
  cbn [app]. split; [symmetry; eapply Forall2_length; exact Hls |].
  exists d, u. eapply Forall2_impl; [exact Hls |].
  intros b line Hb. cbv beta in Hb. split; [exact Hb |].
  destruct (rank_impression_ok m d u b line Hb) as [vs [cand [uv [_ [_ [_ [_ ->]]]]]]].
  eexists. reflexivity.
Qed.

(** X17.  With [1 <= max_count] and at least [max_count] impressions that can
    be ranked, the loop writes the lines of the first [max_count - 1]
    impressions and leaves through [break]: one line fewer than
    [max_count]. *)
Theorem max_count_writes_one_line_fewer m d u (max_count : Z) (pre : list behavior)
    (ls : list string) (b : behavior) (rest : list behavior) :
  Forall2 (fun x l => rank_impression m d u x = Ok l) pre ls ->
  (Z.of_nat (length pre) + 1 = max_count)%Z ->
  behaviors_loop m d u max_count 0 [] (pre ++ b :: rest) = (ls, None)
  /\ (Z.of_nat (length ls) = max_count - 1)%Z.
Proof.
  intros Hpre Hcount. split.
  - rewrite (behaviors_loop_break m d u max_count 0 [] ls pre b rest Hpre) by lia.
    reflexivity.
  - apply Forall2_length in Hpre. lia.
Qed.

End Runs.

Lemma evaluate_writes_one_line_per_impression_witness :
  length ["1 [1,2]" +:+ newline; "2 [1]" +:+ newline; "3 [1,2]" +:+ newline]
  = length (behaviors_dataloader ex_directory)
  /\ exists d u,
       Forall2 (fun b line =>
                  rank_impression ex_model_run d u b = Ok line
                  /\ exists y_pred, line = format_line (impression_id b) y_pred)
               (behaviors_dataloader ex_directory)
               ["1 [1,2]" +:+ newline; "2 [1]" +:+ newline; "3 [1,2]" +:+ newline].
Proof.
  apply (evaluate_writes_one_line_per_impression ex_model_run ex_svd_V ex_directory
           sys_maxsize).
  - vm_compute. reflexivity.
  - right. vm_compute. reflexivity.
Defined.

Lemma max_count_writes_one_line_fewer_witness :
  behaviors_loop ex_model ex_news2vector ex_user2vector 3 0 []
    ([ex_behavior 1 ["N1-0"; "N2-1"]; ex_behavior 2 ["N2-1"]]
       ++ ex_behavior 3 ["N3-0"] :: [ex_behavior 4 ["N1-0"]])
  = (["1 [2,1]" +:+ newline; "2 [1]" +:+ newline], None)
  /\ (Z.of_nat (length ["1 [2,1]" +:+ newline; "2 [1]" +:+ newline]) = 3 - 1)%Z.
Proof.
  apply (max_count_writes_one_line_fewer ex_model ex_news2vector ex_user2vector 3
           [ex_behavior 1 ["N1-0"; "N2-1"]; ex_behavior 2 ["N2-1"]]
           ["1 [2,1]" +:+ newline; "2 [1]" +:+ newline]
           (ex_behavior 3 ["N3-0"]) [ex_behavior 4 ["N1-0"]]).
  - repeat constructor.
  - reflexivity.
Defined.

(** ** More on neutralisation *)

Section NeutralizeShapes.
Context {F : Type} `{Scalar F}.
Implicit Types (h : heap F) (E B : tensor2 F).

Lemma removed_row_length B (e : vec F) :
  length e = length (rows B) -> length (removed_row B e) = length e.
Proof.
  intros Hlen. unfold removed_row. generalize (seq 0 (shape1 B)) as js. intros js.
  revert e Hlen. induction js as [| j js IH]; intros e Hlen; cbn [foldl]; [reflexivity |].
  assert (Hstep : length (vsub e (vscale (dot e (column B j)) (column B j))) = length e).
  { unfold vsub, vscale, column. rewrite length_zip_with, !length_map. lia. }
  rewrite IH by (rewrite Hstep; exact Hlen). exact Hstep.
Qed.

Lemma remove_projections_rows B E :
  rows (remove_projections B E) = map (removed_row B) (rows E).
Proof. unfold remove_projections. apply foldl_remove_rows. Qed.

Lemma tensor2_eq (t t' : tensor2 F) :
  shape0 t = shape0 t' -> shape1 t = shape1 t' -> rows t = rows t' -> t = t'.
Proof. destruct t, t'. simpl. intros -> -> ->. reflexivity. Qed.

(** X18.  When the caller's tensor is well formed and as wide as the subspace
    is high, both the tensor left in place and the tensor returned by
    [neutralize_embeddings] are well formed and have the shape of the
    tensor passed in. *)
Theorem neutralize_keeps_shape h (embeddings : nat) (bias_subspace : tensor2 F) :
  embeddings < length h ->
  1 <= shape1 bias_subspace ->
  wf_tensor (load h embeddings) ->
  shape1 (load h embeddings) = length (rows bias_subspace) ->
  exists (h' : heap F) (normalized_embeddings : nat),
    neutralize_embeddings h embeddings bias_subspace = (h', Ok normalized_embeddings)
    /\ wf_tensor (load h' embeddings) /\ wf_tensor (load h' normalized_embeddings)
    /\ shape0 (load h' embeddings) = shape0 (load h embeddings)
    /\ shape1 (load h' embeddings) = shape1 (load h embeddings)
    /\ shape0 (load h' normalized_embeddings) = shape0 (load h embeddings)
    /\ shape1 (load h' normalized_embeddings) = shape1 (load h embeddings).
Proof.
  intros He Hk [Hrows Hwidth] Hdim.
  destruct (neutralize_embeddings_ok h embeddings bias_subspace He Hk)
    as [h' [r [Hcall [_ [_ [Hcell [Hret _]]]]]]].
  exists h', r. split; [exact Hcall |].
  destruct (remove_projections_shape bias_subspace (load h embeddings)) as [H0 [H1 H2]].
  assert (Hwf : wf_tensor (remove_projections bias_subspace (load h embeddings))).
  { split; [rewrite H2, H0; exact Hrows |].
    rewrite remove_projections_rows, H1. apply Forall_fmap.
    eapply Forall_impl; [exact Hwidth |]. intros e Hlen. cbv beta in *.
    unfold compose. rewrite removed_row_length; [exact Hlen | lia]. }
  rewrite Hret, Hcell. split; [exact Hwf |]. split.
  - destruct Hwf as [Hr Hw]. split.
    + rewrite normalize_rows, length_map. exact Hr.
    + rewrite normalize_rows. apply Forall_fmap.
      eapply Forall_impl; [exact Hw |]. intros e Hlen. unfold compose.
      cbv beta in *. unfold vdiv. rewrite length_map. exact Hlen.
  - unfold normalize. cbn [shape0 shape1]. rewrite H0, H1. tauto.
Qed.

End NeutralizeShapes.

Lemma neutralize_keeps_shape_witness :
  exists (h' : heap PrimFloat.float) (normalized_embeddings : nat),
    neutralize_embeddings [Tensor2 1 2 [[fl 3; fl 4]]] 0 ex_bias_float
    = (h', Ok normalized_embeddings)
    /\ wf_tensor (load h' 0) /\ wf_tensor (load h' normalized_embeddings)
    /\ shape0 (load h' 0) = shape0 (load [Tensor2 1 2 [[fl 3; fl 4]]] 0)
    /\ shape1 (load h' 0) = shape1 (load [Tensor2 1 2 [[fl 3; fl 4]]] 0)
    /\ shape0 (load h' normalized_embeddings)
       = shape0 (load [Tensor2 1 2 [[fl 3; fl 4]]] 0)
    /\ shape1 (load h' normalized_embeddings)
       = shape1 (load [Tensor2 1 2 [[fl 3; fl 4]]] 0).
Proof.
  apply (neutralize_keeps_shape [Tensor2 1 2 [[fl 3; fl 4]]] 0 ex_bias_float).
  - simpl. lia.
  - simpl. lia.
  - split; [reflexivity | repeat constructor].
  - reflexivity.
Defined.

Section RealProjection.
Local Open Scope R_scope.
Implicit Types (e v w : vec R) (B E : tensor2 R).

Lemma dot_self_sumsq e : dot e e = vsum (map (fun x => x * x) e).
Proof.
  induction e as [| x e IH]; [reflexivity |].
  rewrite dot_cons, IH. reflexivity.
Qed.

Lemma dot_vscale_r (c : R) e v : dot e (vscale c v) = c * dot e v.
Proof. rewrite dot_comm, dot_vscale_l, dot_comm. reflexivity. Qed.

Lemma step_sumsq e v :
  length e = length v -> dot v v = 1 ->
  dot (vsub e (vscale (dot e v) v)) (vsub e (vscale (dot e v) v))
  = dot e e - dot e v * dot e v.
Proof.
  intros Hlen Hunit.
  assert (Hl : length e = length (vscale (dot e v) v)) by (rewrite length_vscale; exact Hlen).
  rewrite dot_vsub_l by exact Hl.
  rewrite (dot_comm e (vsub e _)), (dot_comm (vscale _ v) (vsub e _)).
  rewrite !dot_vsub_l by exact Hl.
  rewrite !dot_vscale_l, (dot_comm v e).
  rewrite (dot_comm v (vscale (dot e v) v)), dot_vscale_l, Hunit.
  rewrite dot_vscale_r. ring.
Qed.

Lemma removed_sumsq_le B e (js : list nat) :
  unit_columns B -> length e = length (rows B) ->
  Forall (fun j => (j < shape1 B)%nat) js ->
  let e' := foldl (fun e j => vsub e (vscale (dot e (column B j)) (column B j))) e js in
  length e' = length e /\ dot e' e' <= dot e e.
Proof.
  intros Hunit Hlen Hjs. cbv zeta. revert e Hlen.
  induction Hjs as [| j js Hj _ IH]; intros e Hlen; cbn [foldl].
  - split; [reflexivity | lra].
  - assert (Hlv : length e = length (column B j)) by (rewrite length_column; exact Hlen).
    assert (Hl1 : length (vsub e (vscale (dot e (column B j)) (column B j))) = length e).
    { rewrite length_vsub, length_vscale. lia. }
    destruct (IH _ ltac:(rewrite Hl1; exact Hlen)) as [Hl2 Hle].
    split; [rewrite Hl2; exact Hl1 |].
    rewrite (step_sumsq e (column B j) Hlv (Hunit j Hj)) in Hle.
    pose proof (Rle_0_sqr (dot e (column B j))) as Hsq. unfold Rsqr in Hsq. lra.
Qed.

(** X19.  In exact arithmetic, removing the projections on columns of norm
    one never makes an embedding longer: every row left in the caller's
    tensor has a norm no larger than the row it replaces. *)
Theorem projection_removal_never_lengthens (h : heap R) (embeddings : nat)
    (bias_subspace : tensor2 R) :
  (embeddings < length h)%nat ->
  (1 <= shape1 bias_subspace)%nat ->
  Forall (fun row => length row = length (rows bias_subspace)) (rows (load h embeddings)) ->
  unit_columns bias_subspace ->
  exists (h' : heap R) (normalized_embeddings : nat),
    neutralize_embeddings h embeddings bias_subspace = (h', Ok normalized_embeddings)
    /\ Forall2 (fun old new => norm2 new <= norm2 old)
               (rows (load h embeddings)) (rows (load h' embeddings)).
Proof.
  intros He Hk Hwidth Hunit.
  destruct (neutralize_embeddings_ok h embeddings bias_subspace He Hk)
    as [h' [r [Hcall [_ [_ [Hcell _]]]]]].
  exists h', r. split; [exact Hcall |].
  rewrite Hcell, remove_projections_rows. apply Forall2_fmap_r.
  apply Forall_Forall2_diag. eapply Forall_impl; [exact Hwidth |].
  intros e Hlen. cbv beta in *.
  assert (Hn : forall w : vec R, norm2 w = sqrt (dot w w)).
  { intros w. rewrite norm2_eq, dot_self_sumsq. reflexivity. }
  change (norm2 (removed_row bias_subspace e) <= norm2 e).
  rewrite !Hn. apply sqrt_le_1_alt.
  assert (Hjs : Forall (fun j => (j < shape1 bias_subspace)%nat)
                       (seq 0 (shape1 bias_subspace))).
  { apply Forall_forall. intros j Hj. apply elem_of_seq in Hj. lia. }
  destruct (removed_sumsq_le bias_subspace e _ Hunit Hlen Hjs) as [_ Hle].
  exact Hle.
Qed.

Lemma vsub_zero_scale e v :
  (length e <= length v)%nat -> vsub e (vscale 0 v) = e.
Proof.
  revert v. induction e as [| x e IH]; intros [| y v] Hlen; simpl in Hlen;
    try reflexivity; try lia.
  change (vsub (x :: e) (vscale 0 (y :: v))) with ((x - 0 * y) :: vsub e (vscale 0 v)).
  rewrite IH by lia. f_equal. ring.
Qed.

Lemma removed_row_fixed B e :
  length e = length (rows B) ->
  (forall j, (j < shape1 B)%nat -> dot e (column B j) = 0) ->
  removed_row B e = e.
Proof.
  intros Hlen Hdot. unfold removed_row.
  assert (Hjs : Forall (fun j => (j < shape1 B)%nat) (seq 0 (shape1 B))).
  { apply Forall_forall. intros j Hj. apply elem_of_seq in Hj. lia. }
  induction Hjs as [| j js Hj _ IH]; cbn [foldl]; [reflexivity |].
  rewrite (Hdot j Hj), vsub_zero_scale by (rewrite length_column; lia). exact IH.
Qed.

(** X20.  In exact arithmetic and for orthonormal columns, neutralisation is
    idempotent: a second call on the same tensor leaves the caller's tensor
    as the first call left it and returns a tensor equal to the first
    result. *)
Theorem neutralize_twice_changes_nothing (h : heap R) (embeddings : nat)
    (bias_subspace : tensor2 R) :
  (embeddings < length h)%nat ->
  (1 <= shape1 bias_subspace)%nat ->
  Forall (fun row => length row = length (rows bias_subspace)) (rows (load h embeddings)) ->
  orthonormal_columns bias_subspace ->
  exists (h1 h2 : heap R) (r1 r2 : nat),
    neutralize_embeddings h embeddings bias_subspace = (h1, Ok r1)
    /\ neutralize_embeddings h1 embeddings bias_subspace = (h2, Ok r2)
    /\ load h2 embeddings = load h1 embeddings
    /\ load h2 r2 = load h1 r1.
Proof.
  intros He Hk Hwidth Horth.
  destruct (neutralize_embeddings_ok h embeddings bias_subspace He Hk)
    as [h1 [r1 [Hcall1 [Hfresh [Hr1 [Hcell1 [Hret1 _]]]]]]].
  assert (He1 : (embeddings < length h1)%nat) by lia.
  destruct (neutralize_embeddings_ok h1 embeddings bias_subspace He1 Hk)
    as [h2 [r2 [Hcall2 [_ [_ [Hcell2 [Hret2 _]]]]]]].
  exists h1, h2, r1, r2. split; [exact Hcall1 |]. split; [exact Hcall2 |].
  assert (Hfix : remove_projections bias_subspace (load h1 embeddings)
                 = load h1 embeddings).
  { destruct (remove_projections_shape bias_subspace (load h1 embeddings)) as [H0 [H1 _]].
    apply tensor2_eq; [exact H0 | exact H1 |].
    rewrite remove_projections_rows. rewrite <- (map_id (rows (load h1 embeddings))) at 2.
    apply map_ext_in. intros e' He'. apply list_elem_of_In in He'.
    rewrite Hcell1, remove_projections_rows in He'.
    apply list_elem_of_fmap in He'. destruct He' as [e [-> Hin]].
    rewrite Forall_forall in Hwidth. specialize (Hwidth e Hin).
    destruct (row_removed_orthogonal bias_subspace e (shape1 bias_subspace) Horth
                Hwidth (Nat.le_refl _)) as [Hlen Hdot].
    apply removed_row_fixed; [| exact Hdot].
    unfold removed_row. rewrite Hlen. exact Hwidth. }
  split; [rewrite Hcell2; exact Hfix |].
  rewrite Hret2, Hret1, Hfix, Hcell1. reflexivity.
Qed.

End RealProjection.

Section RealProjectionWitnesses.
Local Open Scope R_scope.

Lemma ex_bias_unit : unit_columns ex_bias.
Proof.
  intros i Hi. simpl in Hi. assert (i = 0%nat) as -> by lia.
  unfold dot, column, vsum. simpl. ring.
Qed.

Lemma ex_bias_orthonormal : orthonormal_columns ex_bias.
Proof.
  intros i j Hi Hj. simpl in Hi, Hj.
  assert (i = 0%nat) as -> by lia. assert (j = 0%nat) as -> by lia.
  rewrite decide_True by reflexivity. unfold dot, column, vsum. simpl. ring.
Qed.

Lemma projection_removal_never_lengthens_witness :
  exists (h' : heap R) (normalized_embeddings : nat),
    neutralize_embeddings [Tensor2 1 2 [[3; 4]]] 0 ex_bias = (h', Ok normalized_embeddings)
    /\ Forall2 (fun old new => norm2 new <= norm2 old)
               (rows (load [Tensor2 1 2 [[3; 4]]] 0)) (rows (load h' 0)).
Proof.
  apply (projection_removal_never_lengthens [Tensor2 1 2 [[3; 4]]] 0 ex_bias).
  - simpl. lia.
  - simpl. lia.
  - repeat constructor.
  - exact ex_bias_unit.
Defined.

Lemma neutralize_twice_changes_nothing_witness :
  exists (h1 h2 : heap R) (r1 r2 : nat),
    neutralize_embeddings [Tensor2 1 2 [[3; 4]]] 0 ex_bias = (h1, Ok r1)
    /\ neutralize_embeddings h1 0 ex_bias = (h2, Ok r2)
    /\ load h2 0 = load h1 0
    /\ load h2 r2 = load h1 r1.
Proof.
  apply (neutralize_twice_changes_nothing [Tensor2 1 2 [[3; 4]]] 0 ex_bias).
  - simpl. lia.
  - simpl. lia.
  - repeat constructor.
  - exact ex_bias_orthonormal.
Defined.

End RealProjectionWitnesses.

(** ** The bias subspace *)

Section Subspace.
Local Open Scope R_scope.
Implicit Types (B E C : tensor2 R).

Lemma nth_take_lt {A} (i k : nat) (l : list A) (d : A) :
  (i < k)%nat -> nth i (take k l) d = nth i l d.
Proof.
  revert i k. induction l as [| x l IH]; intros i k Hik.
  - rewrite take_nil. reflexivity.
  - destruct k as [| k]; [lia |]. destruct i as [| i]; [reflexivity |].
    simpl. apply IH. lia.
Qed.

Lemma column_identify (svd_V : tensor2 R -> tensor2 R) C (k i : nat) :
  (i < k)%nat ->
  column (identify_bias_subspace svd_V C k) i = column (svd_V C) i.
Proof.
  intros Hik. unfold column, identify_bias_subspace. cbn [rows].
  rewrite map_map. apply map_ext. intros r. apply nth_take_lt. exact Hik.
Qed.

Lemma identify_orthonormal (svd_V : tensor2 R -> tensor2 R) C (k : nat) :
  orthonormal_columns (svd_V C) ->
  orthonormal_columns (identify_bias_subspace svd_V C k).
Proof.
  intros Horth i j Hi Hj.
  assert (Hs : shape1 (identify_bias_subspace svd_V C k)
               = Nat.min k (shape1 (svd_V C))) by reflexivity.
  rewrite Hs in Hi, Hj.
  rewrite !column_identify by lia. apply Horth; lia.
Qed.

(** X21.  [identify_bias_subspace] keeps the first [k] columns of the factor
    [V], or all of them when there are fewer, and the rows of [V]; in exact
    arithmetic, when the columns of [V] are orthonormal, neutralising with
    the subspace it returns leaves every embedding orthogonal to each of
    those columns of [V]. *)
Theorem subspace_is_first_columns_of_V (svd_V : tensor2 R -> tensor2 R) C (k : nat)
    (h : heap R) (embeddings : nat) :
  (1 <= k)%nat ->
  (1 <= shape1 (svd_V C))%nat ->
  orthonormal_columns (svd_V C) ->
  (embeddings < length h)%nat ->
  Forall (fun row => length row = length (rows (svd_V C))) (rows (load h embeddings)) ->
  let bias_subspace := identify_bias_subspace svd_V C k in
  shape0 bias_subspace = shape0 (svd_V C)
  /\ shape1 bias_subspace = Nat.min k (shape1 (svd_V C))
  /\ (forall i, (i < k)%nat -> column bias_subspace i = column (svd_V C) i)
  /\ exists (h' : heap R) (normalized_embeddings : nat),
       neutralize_embeddings h embeddings bias_subspace = (h', Ok normalized_embeddings)
       /\ forall row i, row ∈ rows (load h' embeddings) ->
            (i < Nat.min k (shape1 (svd_V C)))%nat ->
            dot row (column (svd_V C) i) = 0.
Proof.
  intros Hk HV Horth He Hwidth. cbv zeta.
  split; [reflexivity |]. split; [reflexivity |].
  split; [intros i Hi; apply column_identify; exact Hi |].
  assert (Hk' : (1 <= shape1 (identify_bias_subspace svd_V C k))%nat).
  { change (1 <= Nat.min k (shape1 (svd_V C)))%nat. lia. }
  destruct (neutralize_embeddings_ok h embeddings _ He Hk')
    as [h' [r [Hcall [_ [_ [Hcell _]]]]]].
  exists h', r. split; [exact Hcall |].
  intros row i Hrow Hi. rewrite Hcell, remove_projections_rows in Hrow.
  apply list_elem_of_fmap in Hrow. destruct Hrow as [e [-> Hin]].
  rewrite Forall_forall in Hwidth.
  assert (Hlen : length e = length (rows (identify_bias_subspace svd_V C k))).
  { unfold identify_bias_subspace. cbn [rows]. rewrite length_map. apply Hwidth. exact Hin. }
  destruct (row_removed_orthogonal (identify_bias_subspace svd_V C k) e
              (shape1 (identify_bias_subspace svd_V C k))
              (identify_orthonormal svd_V C k Horth) Hlen (Nat.le_refl _)) as [_ Hdot].
  rewrite <- (column_identify svd_V C k i) by lia.
  apply Hdot. exact Hi.
Qed.

End Subspace.

Section SubspaceWitness.
Local Open Scope R_scope.

Lemma ex_svd_V_real_orthonormal (C : tensor2 R) : orthonormal_columns (ex_svd_V_real C).
Proof.
  intros i j Hi Hj. simpl in Hi, Hj.
  destruct i as [| [| i]]; [| | lia]; destruct j as [| [| j]]; try lia;
    match goal with |- _ = (if ?c then _ else _) => destruct c as [Heq | Hne] end;
    try discriminate; try (exfalso; apply Hne; reflexivity);
    unfold dot, column, vsum; simpl; ring.
Qed.

Lemma subspace_is_first_columns_of_V_witness :
  let bias_subspace := identify_bias_subspace ex_svd_V_real ex_embeddings 1 in
  shape0 bias_subspace = shape0 (ex_svd_V_real ex_embeddings)
  /\ shape1 bias_subspace = Nat.min 1 (shape1 (ex_svd_V_real ex_embeddings))
  /\ (forall i, (i < 1)%nat ->
        column bias_subspace i = column (ex_svd_V_real ex_embeddings) i)
  /\ exists (h' : heap R) (normalized_embeddings : nat),
       neutralize_embeddings [ex_embeddings] 0 bias_subspace
       = (h', Ok normalized_embeddings)
       /\ forall row i, row ∈ rows (load h' 0) ->
            (i < Nat.min 1 (shape1 (ex_svd_V_real ex_embeddings)))%nat ->
            dot row (column (ex_svd_V_real ex_embeddings) i) = 0.
Proof.
  apply (subspace_is_first_columns_of_V ex_svd_V_real ex_embeddings 1 [ex_embeddings] 0).
  - lia.
  - simpl. lia.
  - apply ex_svd_V_real_orthonormal.
  - simpl. lia.
  - repeat constructor.
Defined.

End SubspaceWitness.

(** ** More on the scatter matrix *)

Section ScatterErrors.
Context {F : Type} `{Scalar F}.

(** X22.  On well-formed embeddings with one label per row and means as wide
    as the embeddings, when [categories_unique] lists a category for which
    [category_means] has no entry, [construct_c] raises [KeyError] on the
    first such category and returns no matrix. *)
Theorem construct_c_missing_mean (embeddings : tensor2 F) (categories : list Z)
    (category_means : gmap Z (vec F)) (categories_unique : list Z) (c : Z) :
  wf_tensor embeddings ->
  length categories = shape0 embeddings ->
  (forall c' mean, category_means !! c' = Some mean -> length mean = shape1 embeddings) ->
  c ∈ categories_unique -> category_means !! c = None ->
  exists (before : list Z) (key : Z) (after : list Z),
    categories_unique = before ++ key :: after
    /\ Forall (fun c' => is_Some (category_means !! c')) before
    /\ category_means !! key = None
    /\ construct_c embeddings categories category_means categories_unique
       = Err (KeyError (pretty key)).
Proof.
  intros _ _ _ Hin Hnone. unfold construct_c.
  generalize (zeros2 (shape1 embeddings) (shape1 embeddings)) as C0.
  induction categories_unique as [| c0 cs IH]; intros C0; [inversion Hin |].
  cbn [foldlM].
  destruct (category_means !! c0) as [mean |] eqn:Hc0.
  - assert (Hg : getitemZ category_means c0 = Ok mean)
      by (unfold getitemZ; rewrite Hc0; reflexivity).
    rewrite Hg.
    apply elem_of_cons in Hin. destruct Hin as [-> | Hin]; [congruence |].
    destruct (IH Hin (foldl (fun C diff =>
                madd C (mdiv (ger diff diff)
                  (s_of_nat (length (map (fun e => vsub e mean)
                     (masked categories c0 (rows embeddings)))))))
                C0 (map (fun e => vsub e mean) (masked categories c0 (rows embeddings)))))
      as [before [key [after [Hsplit [Hbefore [Hk Herr]]]]]].
    exists (c0 :: before), key, after.
    split; [rewrite Hsplit; reflexivity |].
    split; [constructor; [rewrite Hc0; eexists; reflexivity | exact Hbefore] |].
    split; [exact Hk |]. exact Herr.
  - assert (Hg : getitemZ category_means c0 = Err (KeyError (pretty c0)))
      by (unfold getitemZ; rewrite Hc0; reflexivity).
    rewrite Hg. exists [], c0, cs.
    split; [reflexivity |]. split; [constructor |]. split; [exact Hc0 | reflexivity].
Qed.

End ScatterErrors.

Lemma construct_c_missing_mean_witness :
  exists (before : list Z) (key : Z) (after : list Z),
    [0%Z; 1%Z] = before ++ key :: after
    /\ Forall (fun c' => is_Some ((<[0%Z := [fl 2; fl 0]]> ∅
                                   : gmap Z (vec PrimFloat.float)) !! c')) before
    /\ (<[0%Z := [fl 2; fl 0]]> ∅ : gmap Z (vec PrimFloat.float)) !! key = None
    /\ construct_c (Tensor2 3 2 [[fl 1; fl 0]; [fl 3; fl 0]; [fl 0; fl 5]])
         ex_categories (<[0%Z := [fl 2; fl 0]]> ∅) [0%Z; 1%Z]
       = Err (KeyError (pretty key)).
Proof.
  apply (construct_c_missing_mean (Tensor2 3 2 [[fl 1; fl 0]; [fl 3; fl 0]; [fl 0; fl 5]])
           ex_categories (<[0%Z := [fl 2; fl 0]]> ∅) [0%Z; 1%Z] 1%Z).
  - split; [reflexivity | repeat constructor].
  - reflexivity.
  - intros c' mean Hc'. apply lookup_insert_Some in Hc'.
    destruct Hc' as [[_ <-] | [_ Hc']]; [reflexivity |].
    rewrite lookup_empty in Hc'. discriminate.
  - right. left.
  - reflexivity.
Defined.

Section ScatterOrder.
Local Open Scope R_scope.
Implicit Types (E : tensor2 R) (ms : list (vec R)).

Lemma vsum_perm (l l' : vec R) : l ≡ₚ l' -> vsum l = vsum l'.
Proof.
  induction 1 as [| x l l' _ IH | x y l | l l' l'' _ IH1 _ IH2].
  - reflexivity.
  - rewrite !vsum_cons, IH. reflexivity.
  - rewrite !vsum_cons. ring.
  - congruence.
Qed.

Lemma category_mean_perm ms ms' (a : nat) :
  ms ≡ₚ ms' -> category_mean ms a = category_mean ms' a.
Proof.
  intros Hp. unfold category_mean.
  rewrite (vsum_perm _ _ (Permutation_map (fun e => coord e a) Hp)).
  rewrite (Permutation_length Hp). reflexivity.
Qed.

Lemma scatter_term_perm ms ms' (a b : nat) :
  ms ≡ₚ ms' -> scatter_term ms a b = scatter_term ms' a b.
Proof.
  intros Hp. unfold scatter_term.
  rewrite (category_mean_perm ms ms' a Hp), (category_mean_perm ms ms' b Hp).
  rewrite (Permutation_length Hp). apply vsum_perm. apply Permutation_map. exact Hp.
Qed.

Lemma masked_perm (categories categories' : list Z) (rs rs' : list (vec R)) (c : Z) :
  zip categories rs ≡ₚ zip categories' rs' ->
  masked categories c rs ≡ₚ masked categories' c rs'.
Proof.
  intros Hp. unfold masked. apply Permutation_map. rewrite Hp. reflexivity.
Qed.

Lemma masked_member (categories : list Z) (rs : list (vec R)) (c : Z) :
  (length categories <= length rs)%nat -> c ∈ categories -> masked categories c rs <> [].
Proof.
  intros Hlen Hin. apply list_elem_of_lookup in Hin. destruct Hin as [i Hi].
  destruct (lookup_lt_is_Some_2 rs i) as [e He].
  { apply lookup_lt_Some in Hi. lia. }
  assert (Hmem : e ∈ masked categories c rs).
  { unfold masked. apply list_elem_of_fmap. exists (c, e). split; [reflexivity |].
    apply list_elem_of_filter. split; [reflexivity |].
    apply list_elem_of_lookup. exists i. apply lookup_zip_with_Some.
    exists c, e. auto. }
  intros Hnil. rewrite Hnil in Hmem. inversion Hmem.
Qed.

Lemma construct_c_entries E (categories cs : list Z) :
  wf_tensor E ->
  exists C : tensor2 R,
    construct_c E categories (compute_category_means E categories cs) cs = Ok C
    /\ forall a b, (a < shape1 E)%nat -> (b < shape1 E)%nat ->
         entry (rows C) a b
         = vsum (map (fun c : Z => scatter_term (masked categories c (rows E)) a b) cs).
Proof.
  intros [_ Hwidth]. rewrite construct_c_eq. eexists. split; [reflexivity |].
  cbn [rows]. intros a b Ha Hb.
  destruct (outer_loop_spec (shape1 E) (rows E) categories cs Hwidth _
              (is_square_zeros2 (shape1 E))) as [_ [Hent _]].
  rewrite Hent by assumption. rewrite entry_zeros2. ring.
Qed.

(** X23.  In exact arithmetic, on well-formed embeddings with one label per
    row, the scatter matrix does not depend on the order in which the
    categories are visited: any reordering of [categories_unique] gives
    the same entries. *)
Theorem construct_c_ignores_category_order E (categories cs cs' : list Z) :
  wf_tensor E ->
  length categories = shape0 E ->
  cs ≡ₚ cs' ->
  exists C C' : tensor2 R,
    construct_c E categories (compute_category_means E categories cs) cs = Ok C
    /\ construct_c E categories (compute_category_means E categories cs') cs' = Ok C'
    /\ forall a b, (a < shape1 E)%nat -> (b < shape1 E)%nat ->
         entry (rows C) a b = entry (rows C') a b.
Proof.
  intros Hwf _ Hp.
  destruct (construct_c_entries E categories cs Hwf) as [C [HC Hent]].
  destruct (construct_c_entries E categories cs' Hwf) as [C' [HC' Hent']].
  exists C, C'. split; [exact HC |]. split; [exact HC' |].
  intros a b Ha Hb. rewrite Hent, Hent' by assumption.
  apply vsum_perm. apply Permutation_map. exact Hp.
Qed.

(** X24.  In exact arithmetic the scatter matrix does not depend on the order
    of the news in the table: listing the same (category, embedding) pairs
    in another order gives the same entries. *)
Theorem construct_c_ignores_row_order E E' (categories categories' : list Z) :
  wf_tensor E -> wf_tensor E' ->
  shape1 E = shape1 E' ->
  length categories = shape0 E -> length categories' = shape0 E' ->
  zip categories (rows E) ≡ₚ zip categories' (rows E') ->
  exists C C' : tensor2 R,
    construct_c E categories
      (compute_category_means E categories (unique categories)) (unique categories) = Ok C
    /\ construct_c E' categories'
         (compute_category_means E' categories' (unique categories'))
         (unique categories') = Ok C'
    /\ forall a b, (a < shape1 E)%nat -> (b < shape1 E)%nat ->
         entry (rows C) a b = entry (rows C') a b.
Proof.
  intros Hwf Hwf' Hd Hlen Hlen' Hp.
  destruct (construct_c_entries E categories (unique categories) Hwf) as [C [HC Hent]].
  destruct (construct_c_entries E' categories' (unique categories') Hwf')
    as [C' [HC' Hent']].
  exists C, C'. split; [exact HC |]. split; [exact HC' |].
  intros a b Ha Hb. rewrite Hent by assumption. rewrite Hent' by (rewrite <- Hd; assumption).
  assert (Hcats : categories ≡ₚ categories').
  { destruct Hwf as [Hr _], Hwf' as [Hr' _].
    rewrite <- (fst_zip categories (rows E)) by lia.
    rewrite <- (fst_zip categories' (rows E')) by lia.
    apply fmap_Permutation. exact Hp. }
  assert (Hu : unique categories ≡ₚ unique categories').
  { apply NoDup_Permutation; [apply unique_NoDup | apply unique_NoDup |].
    intros c. rewrite !elem_of_unique, Hcats. reflexivity. }
  rewrite (vsum_perm _ _ (Permutation_map _ Hu)).
  f_equal. apply map_ext. intros c.
  apply scatter_term_perm. apply masked_perm. exact Hp.
Qed.

(** X25.  In exact arithmetic, on well-formed embeddings with one label per
    row, [compute_category_means] binds exactly the categories it is
    given; a category that labels at least one row has members, and is
    bound to a vector as wide as the embeddings whose coordinates are the
    arithmetic means of the coordinates of its members, which for a single
    member is the member itself. *)
Theorem compute_category_means_are_means E (categories categories_unique : list Z) (c : Z) :
  wf_tensor E ->
  length categories = shape0 E ->
  c ∈ categories ->
  c ∈ categories_unique ->
  exists mean,
    compute_category_means E categories categories_unique !! c = Some mean
    /\ masked categories c (rows E) <> []
    /\ length mean = shape1 E
    /\ (forall a, coord mean a = category_mean (masked categories c (rows E)) a)
    /\ (forall e, masked categories c (rows E) = [e] -> mean = e)
    /\ (forall c', c' ∉ categories_unique ->
          compute_category_means E categories categories_unique !! c' = None).
Proof.
  intros [Hrows Hwidth] Hlabels Hmember Hin.
  assert (Hm : Forall (fun u => length u = shape1 E) (masked categories c (rows E)))
    by (apply masked_Forall; exact Hwidth).
  destruct (mean_dim0_spec (shape1 E) _ Hm) as [Hlen Hmean].
  exists (mean_dim0 (shape1 E) (masked categories c (rows E))).
  split; [| split; [apply masked_member; [lia | exact Hmember] |
                    split; [exact Hlen | split; [exact Hmean | split]]]].
  - unfold compute_category_means. rewrite foldl_insert_lookup, decide_True by exact Hin.
    reflexivity.
  - intros e He.
    assert (Hle : length e = shape1 E).
    { rewrite He in Hm. inversion Hm; assumption. }
    apply (nth_ext _ _ 0 0); [rewrite Hlen; symmetry; exact Hle |].
    intros a _.
    change (coord (mean_dim0 (shape1 E) (masked categories c (rows E))) a = coord e a).
    rewrite Hmean, He. unfold category_mean.
    change (vsum (map (fun e0 => coord e0 a) [e])) with (coord e a + 0).
    change (INR (length [e])) with 1. field.
  - intros c' Hnin. unfold compute_category_means.
    rewrite foldl_insert_lookup, decide_False by exact Hnin. apply lookup_empty.
Qed.

Lemma construct_c_ignores_category_order_witness :
  exists C C' : tensor2 R,
    construct_c ex_embeddings ex_categories
      (compute_category_means ex_embeddings ex_categories [0%Z; 1%Z]) [0%Z; 1%Z] = Ok C
    /\ construct_c ex_embeddings ex_categories
         (compute_category_means ex_embeddings ex_categories [1%Z; 0%Z]) [1%Z; 0%Z] = Ok C'
    /\ forall a b, (a < shape1 ex_embeddings)%nat -> (b < shape1 ex_embeddings)%nat ->
         entry (rows C) a b = entry (rows C') a b.
Proof.
  apply (construct_c_ignores_category_order ex_embeddings ex_categories
           [0%Z; 1%Z] [1%Z; 0%Z]).
  - split; [reflexivity | repeat constructor].
  - reflexivity.
  - apply perm_swap.
Defined.

Lemma construct_c_ignores_row_order_witness :
  exists C C' : tensor2 R,
    construct_c ex_embeddings ex_categories
      (compute_category_means ex_embeddings ex_categories (unique ex_categories))
      (unique ex_categories) = Ok C
    /\ construct_c (Tensor2 3 2 [[3; 0]; [1; 0]; [0; 5]]) [0%Z; 0%Z; 1%Z]
         (compute_category_means (Tensor2 3 2 [[3; 0]; [1; 0]; [0; 5]]) [0%Z; 0%Z; 1%Z]
            (unique [0%Z; 0%Z; 1%Z]))
         (unique [0%Z; 0%Z; 1%Z]) = Ok C'
    /\ forall a b, (a < shape1 ex_embeddings)%nat -> (b < shape1 ex_embeddings)%nat ->
         entry (rows C) a b = entry (rows C') a b.
Proof.
  apply (construct_c_ignores_row_order ex_embeddings
           (Tensor2 3 2 [[3; 0]; [1; 0]; [0; 5]]) ex_categories [0%Z; 0%Z; 1%Z]).
  - split; [reflexivity | repeat constructor].
  - split; [reflexivity | repeat constructor].
  - reflexivity.
  - reflexivity.
  - reflexivity.
  - apply perm_swap.
Defined.

Lemma compute_category_means_are_means_witness :
  exists mean,
    compute_category_means ex_embeddings ex_categories [0%Z; 1%Z] !! 1%Z = Some mean
    /\ masked ex_categories 1%Z (rows ex_embeddings) <> []
    /\ length mean = shape1 ex_embeddings
    /\ (forall a, coord mean a
                  = category_mean (masked ex_categories 1%Z (rows ex_embeddings)) a)
    /\ (forall e, masked ex_categories 1%Z (rows ex_embeddings) = [e] -> mean = e)
    /\ (forall c', c' ∉ [0%Z; 1%Z] ->
          compute_category_means ex_embeddings ex_categories [0%Z; 1%Z] !! c' = None).
Proof.
  apply (compute_category_means_are_means ex_embeddings ex_categories [0%Z; 1%Z] 1%Z).
  - split; [reflexivity | repeat constructor].
  - reflexivity.
  - right. right. left.
  - right. left.
Defined.

End ScatterOrder.
